(** * number_analyzer: parsing and descriptive statistics

    A shallow embedding of [scripts/number_analyzer.cpp] and the
    properties of its parser, statistics and report.

    - [double] is the primitive binary64 type [float] of the Standard
      Library.  Its operations are the IEEE 754 ones, NaN, infinities and
      signed zeros included, each one rounded on its own to nearest (no
      fused multiply-add).  The sign and the payload of a NaN are not
      represented.
    - [std::string] is [string]; [size_t] positions and sizes are [nat],
      [string::npos] is [None]; the [int] counters are [Z].  A vector built
      from one command-line argument has far fewer than [2^31] elements, so
      no counter of the program wraps.
    - The object state [numbers], [errors] is a record threaded through a
      small state monad, so that what a method writes shows in its result.
    - [std::stod], [std::getline] and [std::sort] belong to the C++ library;
      they are written here after the C and C++ standards and, where these
      leave a choice, after glibc and libstdc++ on x86-64.
    - The text that [operator<<] prints for a [double] is a parameter of the
      report. *)

From Stdlib Require Import Floats ZArith NArith List String Ascii Bool Lia.
From Stdlib Require Import DecimalString.
From Stdlib Require Import Permutation Sorted.
Import ListNotations.

Local Open Scope string_scope.
Local Open Scope list_scope.

(* ================================================================== *)
(** * Characters and strings *)

Module Chars.

Definition TAB : ascii := ascii_of_nat 9.
Definition LF  : ascii := ascii_of_nat 10.
Definition VT  : ascii := ascii_of_nat 11.
Definition FF  : ascii := ascii_of_nat 12.
Definition CR  : ascii := ascii_of_nat 13.
Definition SP  : ascii := ascii_of_nat 32.

(** The string ["\n"]. *)
Definition nl : string := String LF EmptyString.

(** The set [" \t\r\n"] of line 31 and 32. *)
Definition trim_set : list ascii := [SP; TAB; CR; LF].

Definition mem (c : ascii) (set : list ascii) : bool :=
  existsb (Ascii.eqb c) set.

(** [isspace] in the "C" locale. *)
Definition isspace (c : ascii) : bool := mem c [SP; TAB; LF; VT; FF; CR].

Definition in_range (lo hi : nat) (c : ascii) : bool :=
  (lo <=? nat_of_ascii c)%nat && (nat_of_ascii c <=? hi)%nat.

(** Value of a decimal digit, [None] for any other character. *)
Definition digit_val (c : ascii) : option Z :=
  if in_range 48 57 c then Some (Z.of_nat (nat_of_ascii c) - 48)%Z else None.

(** Value of a hexadecimal digit, either case. *)
Definition xdigit_val (c : ascii) : option Z :=
  if in_range 48 57 c then Some (Z.of_nat (nat_of_ascii c) - 48)%Z
  else if in_range 97 102 c then Some (Z.of_nat (nat_of_ascii c) - 87)%Z
  else if in_range 65 70 c then Some (Z.of_nat (nat_of_ascii c) - 55)%Z
  else None.

(** [tolower] on the letters, identity elsewhere. *)
Definition tolower (c : ascii) : ascii :=
  if in_range 65 90 c then ascii_of_nat (nat_of_ascii c + 32) else c.

End Chars.

(** [s.find_first_not_of(set)] scanning from position [pos]. *)
Fixpoint find_first_not_of_from (s : string) (set : list ascii) (pos : nat)
  : option nat :=
  match s with
  | EmptyString => None
  | String c s' =>
      if Chars.mem c set then find_first_not_of_from s' set (S pos)
      else Some pos
  end.

Definition find_first_not_of (s : string) (set : list ascii) : option nat :=
  find_first_not_of_from s set 0.

(** [s.find_last_not_of(set)]: the last position holding a character outside
    [set]. *)
Fixpoint find_last_not_of_from (s : string) (set : list ascii) (pos : nat)
  : option nat :=
  match s with
  | EmptyString => None
  | String c s' =>
      match find_last_not_of_from s' set (S pos) with
      | Some i => Some i
      | None => if Chars.mem c set then None else Some pos
      end
  end.

Definition find_last_not_of (s : string) (set : list ascii) : option nat :=
  find_last_not_of_from s set 0.

(** Lines 31-36: the token is cut to [start .. end] when it holds a
    character that is not white space, and left as it is otherwise. *)
Definition trim (number : string) : string :=
  let start := find_first_not_of number Chars.trim_set in
  let end_ := find_last_not_of number Chars.trim_set in
  match start, end_ with
  | Some start, Some end_ => substring start (end_ - start + 1) number
  | _, _ => number
  end.

(** ** [std::getline] on a string stream

    The stream is the text that is still to be read.  [getline] fails, and
    ends the loop of [parse], when it can extract nothing at all; else it
    yields the characters before the next delimiter (or up to the end) and
    drops the delimiter. *)
Fixpoint read_until (delim : ascii) (ss : string) : string * string :=
  match ss with
  | EmptyString => (EmptyString, EmptyString)
  | String c rest =>
      if Ascii.eqb c delim then (EmptyString, rest)
      else let '(tok, rest') := read_until delim rest in (String c tok, rest')
  end.

Definition getline (ss : string) (delim : ascii) : option (string * string) :=
  match ss with
  | EmptyString => None
  | _ => Some (read_until delim ss)
  end.

(* ================================================================== *)
(** * [std::stod]

    [std::stod(str)] calls [strtod] on the characters of [str]; it throws
    [invalid_argument] when no conversion is done and [out_of_range] when
    [strtod] reports [ERANGE].  The function is the C++ library's, not the
    program's: it is written here after the C standard (7.22.1.3) for the
    "C" locale, with correct rounding to nearest, and [ERANGE] on overflow
    and on a result that is tiny and inexact (as glibc on x86-64 does). *)

Module Strtod.

Inductive numeral : Type :=
| NumInf
| NumNan
| NumDec (m : N) (e10 : Z)   (** [m * 10^e10] *)
| NumHex (m : N) (e2 : Z).   (** [m * 2^e2]  *)

Fixpoint skip_space (s : string) : string :=
  match s with
  | String c s' => if Chars.isspace c then skip_space s' else s
  | EmptyString => s
  end.

(** The longest run of digits at the head of [s], and what follows. *)
Fixpoint span_digits (val : ascii -> option Z) (s : string)
  : list Z * string :=
  match s with
  | String c s' =>
      match val c with
      | Some d => let '(ds, r) := span_digits val s' in (d :: ds, r)
      | None => ([], s)
      end
  | EmptyString => ([], s)
  end.

Definition number_of (base : Z) (ds : list Z) : Z :=
  fold_left (fun acc d => acc * base + d)%Z ds 0%Z.

(** An optional sign: [true] for ["-"]. *)
Definition scan_sign (s : string) : bool * string :=
  match s with
  | String "-" s' => (true, s')
  | String "+" s' => (false, s')
  | _ => (false, s)
  end.

(** Case-insensitive test that [p] (given in lower case) starts [s]. *)
Fixpoint starts_with_ci (p s : string) : bool :=
  match p, s with
  | EmptyString, _ => true
  | String a p', String c s' =>
      Ascii.eqb a (Chars.tolower c) && starts_with_ci p' s'
  | String _ _, EmptyString => false
  end.

(** The exponent part: a marker, an optional sign and at least one
    decimal digit; when it is absent or cut short the exponent is 0. *)
Definition scan_exponent (marker : ascii) (s : string) : Z :=
  match s with
  | String c s1 =>
      if Ascii.eqb (Chars.tolower c) marker then
        let '(neg, s2) := scan_sign s1 in
        match span_digits Chars.digit_val s2 with
        | ([], _) => 0%Z
        | (ds, _) => if neg then (- number_of 10 ds)%Z else number_of 10 ds
        end
      else 0%Z
  | EmptyString => 0%Z
  end.

(** Digits, an optional radix point, digits, an exponent; at least one
    digit is needed.  The result is the integer the digits spell, the
    number of digits after the point and the exponent. *)
Definition scan_mantissa (val : ascii -> option Z) (base : Z)
           (marker : ascii) (s : string) : option (N * Z * Z) :=
  let '(ip, s1) := span_digits val s in
  let '(fp, s2) :=
    match s1 with
    | String "." s1' => span_digits val s1'
    | _ => ([], s1)
    end in
  match ip ++ fp with
  | [] => None
  | ds => Some (Z.to_N (number_of base ds), Z.of_nat (List.length fp),
                scan_exponent marker s2)
  end.

Definition scan_hex (s : string) : option numeral :=
  match s with
  | String "0" (String x s') =>
      if Ascii.eqb (Chars.tolower x) "x" then
        match scan_mantissa Chars.xdigit_val 16 "p" s' with
        | Some (m, nfrac, e) => Some (NumHex m (e - 4 * nfrac))
        | None => None
        end
      else None
  | _ => None
  end.

Definition scan_dec (s : string) : option numeral :=
  match scan_mantissa Chars.digit_val 10 "e" s with
  | Some (m, nfrac, e) => Some (NumDec m (e - nfrac))
  | None => None
  end.

(** The subject sequence: white space, a sign, then an infinity, a NaN,
    a hexadecimal or a decimal constant.  What follows it is ignored. *)
Definition scan (str : string) : option (bool * numeral) :=
  let '(neg, s) := scan_sign (skip_space str) in
  if starts_with_ci "inf" s then Some (neg, NumInf)
  else if starts_with_ci "nan" s then Some (neg, NumNan)
  else match scan_hex s with
       | Some n => Some (neg, n)
       | None =>
           match scan_dec s with
           | Some n => Some (neg, n)
           | None => None
           end
       end.

(** Rounding to nearest, ties to even, in the format of precision
    [prec] whose infinities have exponent [emx]. *)
Definition round (emx : Z) (neg : bool) (n : numeral) : spec_float :=
  match n with
  | NumInf => S754_infinity neg
  | NumNan => S754_nan
  | NumDec N0 _ | NumHex N0 _ => S754_zero neg
  | NumHex (Npos m) e2 => binary_round prec emx neg m e2
  | NumDec (Npos m) e10 =>
      if (0 <=? e10)%Z
      then binary_round prec emx neg (m * Z.to_pos (10 ^ e10)) 0
      else
        let '(mz, ez, lz) :=
          SFdiv_core_binary prec emx (Zpos m) 0 (10 ^ (- e10)) 0 in
        binary_round_aux prec emx neg mz ez lz
  end.

(** Is the finite binary number [m * 2^e] the value of the numeral? *)
Definition exactly (m : positive) (e : Z) (n : numeral) : bool :=
  let eq_scaled (b : Z) (mn : N) (en : Z) :=
    (Zpos m * 2 ^ Z.max e 0 * b ^ Z.max (- en) 0
     =? Z.of_N mn * b ^ Z.max en 0 * 2 ^ Z.max (- e) 0)%Z in
  match n with
  | NumDec mn en => eq_scaled 10%Z mn en
  | NumHex mn en => eq_scaled 2%Z mn en
  | _ => false
  end.

(** An exponent bound so large that rounding with it never leaves the
    normal range for the numbers compared below. *)
Definition emax_wide : Z := 2 ^ 80.

(** [ERANGE]: the result overflows, or it is inexact and the number,
    rounded to 53 bits without a bound on the exponent, is below the
    smallest normal number [2^-1022]. *)
Definition erange (neg : bool) (n : numeral) : bool :=
  match n with
  | NumInf | NumNan | NumDec N0 _ | NumHex N0 _ => false
  | _ =>
      match round emax neg n with
      | S754_infinity _ => true
      | S754_finite _ m e =>
          negb (exactly m e n) &&
          match round emax_wide neg n with
          | S754_finite _ m' e' => (Zpos (digits2_pos m') + e' <=? -1022)%Z
          | _ => true
          end
      | _ => true
      end
  end.

(** [strtod]: [None] when no conversion is done, else the value and
    whether [errno] is [ERANGE]. *)
Definition strtod (str : string) : option (float * bool) :=
  match scan str with
  | None => None
  | Some (neg, n) => Some (SF2Prim (round emax neg n), erange neg n)
  end.

End Strtod.

Inductive stod_result : Type :=
| StodValue (num : float)
| StodInvalidArgument
| StodOutOfRange.

Definition stod (str : string) : stod_result :=
  match Strtod.strtod str with
  | None => StodInvalidArgument
  | Some (_, true) => StodOutOfRange
  | Some (num, false) => StodValue num
  end.

(* ================================================================== *)
(** * The analyzer object and its methods *)

(** The two private members of [class NumberAnalyzer] (lines 16-17). *)
Record NumberAnalyzer : Type := mkAnalyzer {
  numbers : list float;
  errors : string
}.

(** The object a default constructor builds (line 20). *)
Definition new_analyzer : NumberAnalyzer := mkAnalyzer [] "".

(** ** A state monad over the object *)

Definition M (A : Type) : Type := NumberAnalyzer -> A * NumberAnalyzer.

Definition ret {A : Type} (a : A) : M A := fun st => (a, st).

Definition bind {A B : Type} (m : M A) (k : A -> M B) : M B :=
  fun st => let '(a, st') := m st in k a st'.

Notation "x <- m ;; k" := (bind m (fun x => k))
  (at level 61, m at next level, right associativity).
Notation "m ;;; k" := (bind m (fun _ => k))
  (at level 61, right associativity).

(** Reading a member. *)
Definition gets {A : Type} (f : NumberAnalyzer -> A) : M A :=
  fun st => (f st, st).

(** [numbers.push_back(num)]. *)
Definition push_back (num : float) : M unit :=
  fun st => (tt, mkAnalyzer (numbers st ++ [num]) (errors st)).

(** [errors += msg]. *)
Definition append_errors (msg : string) : M unit :=
  fun st => (tt, mkAnalyzer (numbers st) (errors st ++ msg)%string).

Definition eval {A : Type} (m : M A) (st : NumberAnalyzer) : A := fst (m st).
Definition exec {A : Type} (m : M A) (st : NumberAnalyzer) : NumberAnalyzer :=
  snd (m st).

(** ** [parse] (lines 25-49) *)

(** The body of the loop, lines 30-45, for one token. *)
Definition parse_token (number : string) : M unit :=
  let number := trim number in
  match stod number with
  | StodValue num => push_back num
  | StodInvalidArgument =>
      append_errors ("Invalid number: " ++ number ++ Chars.nl)%string
  | StodOutOfRange =>
      append_errors ("Number out of range: " ++ number ++ Chars.nl)%string
  end.

(** [while (getline(ss, number, ','))]: each turn consumes at least one
    character of the stream, so [fuel] above the length of the stream is
    never used up. *)
Fixpoint parse_loop (fuel : nat) (ss : string) : M unit :=
  match fuel with
  | O => ret tt
  | S fuel' =>
      match getline ss "," with
      | None => ret tt
      | Some (number, ss') => parse_token number ;;; parse_loop fuel' ss'
      end
  end.

Definition parse (input : string) : M bool :=
  parse_loop (S (String.length input)) input ;;;
  ns <- gets numbers ;;
  ret (negb (match ns with [] => true | _ => false end)).

(** The tokens the loop sees, one after the other. *)
Fixpoint tokens_from (cur : string) (ss : string) : list string :=
  match ss with
  | EmptyString => match cur with EmptyString => [] | _ => [cur] end
  | String c rest =>
      if Ascii.eqb c ","
      then cur :: tokens_from EmptyString rest
      else tokens_from (cur ++ String c EmptyString)%string rest
  end.

Definition tokens (input : string) : list string :=
  tokens_from EmptyString input.

(** ** The statistics (lines 54-149) *)

Local Open Scope float_scope.

(** [numbers.size()] converted to [double] for a division: the integer
    rounded to nearest (a size is below [2^63]). *)
Definition double_of_size (n : nat) : float :=
  of_uint63 (Uint63.of_Z (Z.of_nat n)).

(** Lines 54-60. *)
Definition calculateSum : M float :=
  ns <- gets numbers ;;
  ret (fold_left (fun sum num => sum + num) ns 0).

(** Lines 65-68. *)
Definition calculateAverage : M float :=
  ns <- gets numbers ;;
  match ns with
  | [] => ret 0
  | _ => sum <- calculateSum ;; ret (sum / double_of_size (List.length ns))
  end.

(** ** [std::sort]

    On a range of at most 16 elements [std::sort] of libstdc++ is the
    insertion sort below: an element smaller than the first one goes to
    the front, any other one moves left past the elements greater than
    it.  On values without NaN every implementation returns the same list
    up to [==] (lemma [sorted_perm_same_keys] below).  On a longer range
    the library sorts by another method, and with a NaN or with zeros of
    both signs among the values its copy may differ from this one: what is
    proved for vectors of every length is therefore stated for any
    ascending rearrangement of the numbers and up to [==], or uses of the
    copy only that it is a rearrangement. *)

(** [__unguarded_linear_insert] on the prefix seen from its right end. *)
Fixpoint insert_from_right (val : float) (rev_prefix : list float)
  : list float :=
  match rev_prefix with
  | [] => [val]
  | next :: rest =>
      if val <? next then next :: insert_from_right val rest
      else val :: rev_prefix
  end.

Definition insert_sorted (prefix : list float) (val : float) : list float :=
  match prefix with
  | [] => [val]
  | first :: _ =>
      if val <? first then val :: prefix
      else rev (insert_from_right val (rev prefix))
  end.

Definition sort (v : list float) : list float :=
  fold_left insert_sorted v [].

(** [v[i]] for an index in range. *)
Definition at_ (v : list float) (i : nat) : float := nth i v 0.

(** Lines 73-85. *)
Definition calculateMedian : M float :=
  ns <- gets numbers ;;
  match ns with
  | [] => ret 0
  | _ =>
      let sorted := sort ns in
      let size := List.length sorted in
      if (size mod 2 =? 0)%nat
      then ret ((at_ sorted (size / 2 - 1) + at_ sorted (size / 2)) / 2)
      else ret (at_ sorted (size / 2))
  end.

(** Lines 90-102. *)
Definition calculateStdDev : M float :=
  ns <- gets numbers ;;
  match ns with
  | [] => ret 0
  | _ =>
      avg <- calculateAverage ;;
      let sumSquareDiff :=
        fold_left (fun acc num => let diff := num - avg in acc + diff * diff)
                  ns 0 in
      ret (sqrt (sumSquareDiff / double_of_size (List.length ns)))
  end.

(** The state of the loop of [findMode]. *)
Record mode_state : Type := mkMode {
  mode : float;
  maxCount : Z;
  currentCount : Z;
  previous : float          (** [sorted[i - 1]] *)
}.

(** Lines 118-126, one turn of the loop at element [cur = sorted[i]]. *)
Definition mode_step (s : mode_state) (cur : float) : mode_state :=
  if cur =? previous s then
    let currentCount' := (currentCount s + 1)%Z in
    if (maxCount s <? currentCount')%Z
    then mkMode cur currentCount' currentCount' cur
    else mkMode (mode s) (maxCount s) currentCount' cur
  else mkMode (mode s) (maxCount s) 1 cur.

(** Lines 107-130. *)
Definition findMode : M float :=
  ns <- gets numbers ;;
  match ns with
  | [] => ret 0
  | _ =>
      match sort ns with
      | [] => ret 0
      | first :: rest =>
          ret (mode (fold_left mode_step rest (mkMode first 1 1 first)))
      end
  end.

(** Lines 135-149. *)
Definition calculateQuartiles : M (list float) :=
  ns <- gets numbers ;;
  if (List.length ns <? 4)%nat then ret [0; 0; 0]
  else
    let sorted := sort ns in
    let size := List.length sorted in
    let q1_idx := (size / 4)%nat in
    let q2_idx := (size / 2)%nat in
    let q3_idx := ((3 * size) / 4)%nat in
    ret [at_ sorted q1_idx; at_ sorted q2_idx; at_ sorted q3_idx].

(** [*std::min_element] and [*std::max_element] on a non-empty vector: the
    first smallest and the first largest element. *)
Definition min_element (v : list float) : float :=
  match v with
  | [] => 0
  | x :: v' => fold_left (fun smallest y => if y <? smallest then y else smallest) v' x
  end.

Definition max_element (v : list float) : float :=
  match v with
  | [] => 0
  | x :: v' => fold_left (fun largest y => if largest <? y then y else largest) v' x
  end.

(** Lines 203-211: the three counters after the loop. *)
Definition sign_step (c : Z * Z * Z) (num : float) : Z * Z * Z :=
  let '(positiveCount, negativeCount, zeroCount) := c in
  if 0 <? num then ((positiveCount + 1)%Z, negativeCount, zeroCount)
  else if num <? 0 then (positiveCount, (negativeCount + 1)%Z, zeroCount)
  else (positiveCount, negativeCount, (zeroCount + 1)%Z).

Definition sign_counts (v : list float) : Z * Z * Z :=
  fold_left sign_step v (0%Z, 0%Z, 0%Z).

(** ** [generateReport] (lines 154-219) and [main] (lines 230-248) *)

Local Close Scope float_scope.

(** [report << n] for a [size_t] and for an [int]. *)
Definition show_size (n : nat) : string := NilZero.string_of_uint (Nat.to_uint n).
Definition show_int (n : Z) : string := NilZero.string_of_int (Z.to_int n).

(** A piece of text followed by ["\n"]. *)
Definition ln (s : string) : string := (s ++ Chars.nl)%string.

(** Lines 221-227. *)
Definition getErrors : M string := gets errors.
Definition getCount : M nat := gets (fun st => List.length (numbers st)).

(** What [main] leaves behind: the exit status and the text written to the
    two streams. *)
Record outcome : Type := mkOutcome {
  exit_status : Z;
  to_cout : string;
  to_cerr : string
}.

Section Report.

(** [report << x] for a [double] once [fixed << setprecision(4)] is set
    (line 171): the text the stream library prints. *)
Variable show_double : float -> string.

Local Open Scope string_scope.

(** Lines 157-158. *)
Definition report_header : string :=
  ln "Number Analysis Report" ++ ln "======================" ++ Chars.nl.

(** Lines 160-163. *)
Definition report_warnings : M string :=
  errs <- gets errors ;;
  match errs with
  | EmptyString => ret ""
  | _ => ret (ln "Warnings/Errors:" ++ errs ++ Chars.nl)
  end.

(** Lines 173-178. *)
Definition report_basic : M string :=
  ns <- gets numbers ;;
  sum <- calculateSum ;;
  avg <- calculateAverage ;;
  median <- calculateMedian ;;
  md <- findMode ;;
  ret (ln "Basic Statistics:"
       ++ "  Count: " ++ show_size (List.length ns) ++ Chars.nl
       ++ "  Sum: " ++ show_double sum ++ Chars.nl
       ++ "  Average: " ++ show_double avg ++ Chars.nl
       ++ "  Median: " ++ show_double median ++ Chars.nl
       ++ "  Mode: " ++ show_double md ++ Chars.nl ++ Chars.nl).

(** Lines 181-187. *)
Definition report_range : M string :=
  ns <- gets numbers ;;
  let minVal := min_element ns in
  let maxVal := max_element ns in
  ret (ln "Range Statistics:"
       ++ "  Minimum: " ++ show_double minVal ++ Chars.nl
       ++ "  Maximum: " ++ show_double maxVal ++ Chars.nl
       ++ "  Range: " ++ show_double (maxVal - minVal)%float
       ++ Chars.nl ++ Chars.nl).

(** Lines 190-192: [calculateStdDev] is called three times. *)
Definition report_dispersion : M string :=
  sd <- calculateStdDev ;;
  sd1 <- calculateStdDev ;;
  sd2 <- calculateStdDev ;;
  ret (ln "Dispersion Statistics:"
       ++ "  Standard Deviation: " ++ show_double sd ++ Chars.nl
       ++ "  Variance: " ++ show_double (sd1 * sd2)%float
       ++ Chars.nl ++ Chars.nl).

(** Lines 195-200. *)
Definition report_quartiles : M string :=
  quartiles <- calculateQuartiles ;;
  ret (ln "Quartile Analysis:"
       ++ "  Q1 (25th percentile): " ++ show_double (at_ quartiles 0) ++ Chars.nl
       ++ "  Q2 (50th percentile): " ++ show_double (at_ quartiles 1) ++ Chars.nl
       ++ "  Q3 (75th percentile): " ++ show_double (at_ quartiles 2) ++ Chars.nl
       ++ "  IQR: " ++ show_double (at_ quartiles 2 - at_ quartiles 0)%float
       ++ Chars.nl ++ Chars.nl).

(** Lines 203-216. *)
Definition report_signs : M string :=
  ns <- gets numbers ;;
  let '(positiveCount, negativeCount, zeroCount) := sign_counts ns in
  ret (ln "Sign Analysis:"
       ++ "  Positive: " ++ show_int positiveCount ++ Chars.nl
       ++ "  Negative: " ++ show_int negativeCount ++ Chars.nl
       ++ "  Zero: " ++ show_int zeroCount ++ Chars.nl).

Definition generateReport : M string :=
  warnings <- report_warnings ;;
  ns <- gets numbers ;;
  match ns with
  | [] => ret (report_header ++ warnings ++ ln "Error: No valid numbers parsed")
  | _ =>
      basic <- report_basic ;;
      range <- report_range ;;
      dispersion <- report_dispersion ;;
      quart <- report_quartiles ;;
      signs <- report_signs ;;
      ret (report_header ++ warnings ++ basic ++ range ++ dispersion
           ++ quart ++ signs)
  end.

(** [main] on the arguments [argv[0], argv[1], ...]. *)
Definition main (argv : list string) : outcome :=
  match argv with
  | _ :: input :: _ =>
      let '(ok, analyzer) := parse input new_analyzer in
      if negb ok
      then mkOutcome 1 "" ("Error parsing input: " ++ eval getErrors analyzer)
      else mkOutcome 0 (eval generateReport analyzer) ""
  | _ =>
      mkOutcome 1 "" (ln "Usage: number_analyzer '<comma-separated-numbers>'")
  end.

End Report.

(* ================================================================== *)
(** * Notions used to state the properties *)

(** ** The parser *)

(** A token holds no comma. *)
Fixpoint comma_free (tok : string) : bool :=
  match tok with
  | EmptyString => true
  | String c tok' => negb (Ascii.eqb c ",") && comma_free tok'
  end.

(** The effect of the loop on the object: the body run on each token, in
    order. *)
Definition parse_tokens (toks : list string) (st : NumberAnalyzer)
  : NumberAnalyzer :=
  fold_left (fun st number => exec (parse_token number) st) toks st.

(** The numbers of the specification: an optional sign, digits with an
    optional decimal point, an optional exponent, and nothing else. *)
Definition spec_decimal_number (t : string) : bool :=
  let '(_, s) := Strtod.scan_sign t in
  let '(ip, s1) := Strtod.span_digits Chars.digit_val s in
  let '(fp, s2) :=
    match s1 with
    | String "." s1' => Strtod.span_digits Chars.digit_val s1'
    | _ => ([], s1)
    end in
  match ip ++ fp with
  | [] => false
  | _ =>
      match s2 with
      | EmptyString => true
      | String c s3 =>
          Ascii.eqb (Chars.tolower c) "e" &&
          let '(_, s4) := Strtod.scan_sign s3 in
          match Strtod.span_digits Chars.digit_val s4 with
          | (_ :: _, EmptyString) => true
          | _ => false
          end
      end
  end.

(** ** The object *)

(** A computation that leaves the object as it found it. *)
Definition read_only {A : Type} (m : M A) : Prop :=
  forall st, exec m st = st.

(** ** The order of [double]

    The comparisons [<], [<=] and [==] of two values that are not NaN are
    those of a key in [Z * Z * Z] ordered lexicographically; the two zeros
    share a key.  Every comparison with a NaN is false. *)

Module FloatOrder.

Definition key : Type := (Z * Z * Z)%type.

Definition sf_key (x : spec_float) : key :=
  match x with
  | S754_nan => (0, 0, 0)
  | S754_zero _ => (0, 0, 0)
  | S754_infinity false => (2, 0, 0)
  | S754_infinity true => (-2, 0, 0)
  | S754_finite false m e => (1, e, Zpos m)
  | S754_finite true m e => (-1, - e, Zneg m)
  end%Z.

Definition key_lt (a b : key) : Prop :=
  let '(a1, a2, a3) := a in
  let '(b1, b2, b3) := b in
  (a1 < b1 \/ (a1 = b1 /\ (a2 < b2 \/ (a2 = b2 /\ a3 < b3))))%Z.

Definition key_le (a b : key) : Prop := key_lt a b \/ a = b.

Definition fkey (x : float) : key := sf_key (Prim2SF x).

(** The order of the keys, on the values themselves. *)
Definition kle (x y : float) : Prop := key_le (fkey x) (fkey y).

End FloatOrder.

(** A vector without NaN. *)
Definition no_nan (v : list float) : Prop :=
  Forall (fun x => is_nan x = false) v.

(** [<=] on [double], as a relation. *)
Definition fle (x y : float) : Prop := (x <=? y)%float = true.

(** ** Values as numbers *)

(** Two results hold the same number: they compare equal with [==], or
    both are NaN. *)
Definition same_number (x y : float) : Prop :=
  (x =? y)%float = true \/ (x = nan /\ y = nan).

(** The same, on the specification of the format: the two zeros are one
    number. *)
Definition sf_same (a b : spec_float) : Prop :=
  match a, b with
  | S754_zero _, S754_zero _ => True
  | _, _ => a = b
  end.

(** The value has the sign bit [s] and is not a NaN. *)
Definition sf_signed (s : bool) (x : spec_float) : Prop :=
  match x with
  | S754_zero s' | S754_infinity s' | S754_finite s' _ _ => s' = s
  | S754_nan => False
  end.

(** Neither a NaN nor an infinity. *)
Definition sf_finite (x : spec_float) : Prop :=
  match x with
  | S754_zero _ | S754_finite _ _ _ => True
  | _ => False
  end.

(** ** The statistics, as the specification words them *)

(** The number of elements of [v] that satisfy [f], as an [int]. *)
Definition count_if (f : float -> bool) (v : list float) : Z :=
  Z.of_nat (List.length (filter f v)).

(** The median as lines 79-84 compute it from the sorted copy. *)
Definition median_of_sorted (sorted : list float) : float :=
  let size := List.length sorted in
  if (size mod 2 =? 0)%nat
  then ((at_ sorted (size / 2 - 1) + at_ sorted (size / 2)) / 2)%float
  else at_ sorted (size / 2).

(** The runs of consecutive equal values of a vector, in order. *)
Fixpoint runs (v : list float) : list (list float) :=
  match v with
  | [] => []
  | x :: v' =>
      match runs v' with
      | (y :: r) :: rs =>
          if (y =? x)%float then (x :: y :: r) :: rs
          else [x] :: (y :: r) :: rs
      | _ => [[x]]
      end
  end.

(** A later run replaces the best one only when it is strictly longer. *)
Definition longer_run (best r : list float) : list float :=
  if (List.length best <? List.length r)%nat then r else best.

Definition first_longest (rs : list (list float)) : list float :=
  match rs with
  | [] => []
  | r0 :: rs' => fold_left longer_run rs' r0
  end.

(** The value of the first run of greatest length. *)
Definition spec_mode (sorted : list float) : float :=
  last (first_longest (runs sorted)) 0%float.

(** Consecutive elements compare equal. *)
Fixpoint chain (r : list float) : Prop :=
  match r with
  | x :: ((y :: _) as r') => (y =? x)%float = true /\ chain r'
  | _ => True
  end.

(** Consecutive runs hold different values. *)
Fixpoint separated (rs : list (list float)) : Prop :=
  match rs with
  | r1 :: ((r2 :: _) as rs') =>
      (hd 0%float r2 =? last r1 0%float)%float = false /\ separated rs'
  | _ => True
  end.

(** The best run so far, as the loop keeps it: its last value and its
    length. *)
Definition pick (best : float * Z) (r : list float) : float * Z :=
  if (snd best <? Z.of_nat (List.length r))%Z
  then (last r 0%float, Z.of_nat (List.length r))
  else best.


(* ================================================================== *)
(** * Notions used to state further properties *)

(** ** The tokens *)

(** The tokens written one after the other with a comma between two of
    them. *)
Fixpoint join_commas (toks : list string) : string :=
  match toks with
  | [] => ""
  | [tok] => tok
  | tok :: toks' => (tok ++ String "," (join_commas toks'))%string
  end.

(** Every character of the text is one of [" \t\r\n"]. *)
Fixpoint all_space (s : string) : bool :=
  match s with
  | EmptyString => true
  | String c s' => Chars.mem c Chars.trim_set && all_space s'
  end.

(** The first and the last character of a text, if it has one. *)
Definition first_char (s : string) : option ascii :=
  match s with
  | EmptyString => None
  | String c _ => Some c
  end.

Fixpoint last_char (s : string) : option ascii :=
  match s with
  | EmptyString => None
  | String c EmptyString => Some c
  | String _ s' => last_char s'
  end.

(** The character is outside [" \t\r\n"]. *)
Definition not_space (c : option ascii) : Prop :=
  match c with
  | Some c => Chars.mem c Chars.trim_set = false
  | None => False
  end.

(** What one token adds to [numbers], and what it adds to [errors]. *)
Definition token_values (tok : string) : list float :=
  match stod (trim tok) with
  | StodValue num => [num]
  | _ => []
  end.

Definition token_message (tok : string) : string :=
  match stod (trim tok) with
  | StodValue _ => ""
  | StodInvalidArgument => ("Invalid number: " ++ trim tok ++ Chars.nl)%string
  | StodOutOfRange => ("Number out of range: " ++ trim tok ++ Chars.nl)%string
  end.

Definition token_fails (tok : string) : bool :=
  match stod (trim tok) with
  | StodValue _ => false
  | _ => true
  end.

(** The messages of the tokens, one after the other. *)
Definition messages (toks : list string) : string :=
  fold_right (fun tok acc => (token_message tok ++ acc)%string) "" toks.

(** The usage line that [main] prints (line 232). *)
Definition usage : string :=
  ln "Usage: number_analyzer '<comma-separated-numbers>'".

(** The text is not empty and does not end with a comma. *)
Definition ends_without_comma (s : string) : Prop :=
  match last_char s with
  | Some c => c <> ","%char
  | None => False
  end.

(** ** Frequencies *)

(** The number of elements of [v] that compare equal to [x]. *)
Definition count_eq (x : float) (v : list float) : nat :=
  List.length (filter (fun y => (y =? x)%float) v).

(** What the runs of a sorted vector without NaN satisfy, and every tail
    of the list of runs with them. *)
Definition good_runs (rs : list (list float)) : Prop :=
  Forall chain rs /\ Forall (fun r => r <> []) rs /\ separated rs
  /\ StronglySorted FloatOrder.kle (List.concat rs)
  /\ no_nan (List.concat rs).
(* ================================================================== *)
(** * Properties of the parser *)

Section StringFacts.

Local Open Scope string_scope.

Lemma append_empty_r (s : string) : s ++ "" = s.
Proof. induction s as [|c s IH]; simpl; [reflexivity | now rewrite IH]. Qed.

Lemma append_assoc (s t u : string) : (s ++ t) ++ u = s ++ (t ++ u).
Proof. induction s as [|c s IH]; simpl; [reflexivity | now rewrite IH]. Qed.

Lemma length_append (s t : string) :
  String.length (s ++ t) = String.length s + String.length t.
Proof. induction s as [|c s IH]; simpl; [reflexivity | now rewrite IH]. Qed.

End StringFacts.

(** One call of [getline] shortens the stream. *)
Lemma read_until_shorter (delim c : ascii) (ss : string) :
  String.length (snd (read_until delim (String c ss))) <= String.length ss.
Proof.
  revert c; induction ss as [|d ss IH]; intros c; simpl.
  - destruct (Ascii.eqb c delim); simpl; lia.
  - destruct (Ascii.eqb c delim); simpl; [lia|].
    specialize (IH d). simpl in IH.
    destruct (Ascii.eqb d delim); simpl in *; [lia|].
    destruct (read_until delim ss) as [tok rest']; simpl in *. lia.
Qed.

(** The tokens of a stream: the one [getline] reads, then those of what
    is left. *)
Lemma tokens_from_read_until (ss cur : string) :
  ss <> EmptyString \/ cur <> EmptyString ->
  tokens_from cur ss =
  (cur ++ fst (read_until "," ss))%string
    :: tokens (snd (read_until "," ss)).
Proof.
  revert cur; induction ss as [|c ss IH]; intros cur H; simpl.
  - destruct H as [H|H]; [congruence|].
    rewrite append_empty_r. destruct cur; [congruence | reflexivity].
  - destruct (Ascii.eqb c ",") eqn:E; simpl.
    + now rewrite append_empty_r.
    + rewrite IH by (right; destruct cur; discriminate).
      destruct (read_until "," ss) as [tok rest']; simpl.
      now rewrite append_assoc.
Qed.

Lemma tokens_getline (ss : string) :
  tokens ss =
  match getline ss "," with
  | None => []
  | Some (number, ss') => number :: tokens ss'
  end.
Proof.
  destruct ss as [|c ss]; [reflexivity|].
  unfold tokens at 1. rewrite tokens_from_read_until by (left; discriminate).
  unfold getline. now destruct (read_until "," (String c ss)).
Qed.

Lemma parse_loop_tokens (fuel : nat) (ss : string) (st : NumberAnalyzer) :
  String.length ss < fuel ->
  parse_loop fuel ss st = (tt, parse_tokens (tokens ss) st).
Proof.
  revert ss st; induction fuel as [|fuel IH]; intros ss st Hlt; [lia|].
  rewrite tokens_getline. simpl.
  destruct ss as [|c ss]; [reflexivity|].
  unfold getline.
  pose proof (read_until_shorter "," c ss) as Hs.
  destruct (read_until "," (String c ss)) as [number ss'] eqn:E.
  simpl in Hs, Hlt. unfold bind.
  destruct (parse_token number st) as [u st'] eqn:Et.
  rewrite IH by lia. simpl. unfold exec. now rewrite Et.
Qed.

Lemma parse_unfold (input : string) (st : NumberAnalyzer) :
  parse input st =
  let st' := parse_tokens (tokens input) st in
  (negb (match numbers st' with [] => true | _ => false end), st').
Proof.
  unfold parse, bind. rewrite parse_loop_tokens by lia. reflexivity.
Qed.

Lemma tokens_from_comma_free (tok cur rest : string) :
  comma_free tok = true ->
  tokens_from cur (tok ++ String "," rest)%string
  = (cur ++ tok)%string :: tokens rest.
Proof.
  revert cur; induction tok as [|c tok IH]; intros cur H; simpl in *.
  - now rewrite append_empty_r.
  - apply andb_prop in H as [Hc Ht].
    destruct (Ascii.eqb c ","); [discriminate|].
    rewrite IH by assumption. now rewrite append_assoc.
Qed.

Lemma tokens_from_last (tok cur : string) :
  comma_free tok = true -> (cur ++ tok)%string <> EmptyString ->
  tokens_from cur tok = [(cur ++ tok)%string].
Proof.
  revert cur; induction tok as [|c tok IH]; intros cur H Hne; simpl in *.
  - rewrite append_empty_r in Hne |- *. destruct cur; [congruence | reflexivity].
  - apply andb_prop in H as [Hc Ht].
    destruct (Ascii.eqb c ","); [discriminate|].
    rewrite IH; rewrite ?append_assoc; auto.
Qed.

(** What the body of the loop does, by the three outcomes of [stod]. *)
Lemma parse_token_cases (tok : string) (st : NumberAnalyzer) :
  exec (parse_token tok) st =
  match stod (trim tok) with
  | StodValue num => mkAnalyzer (numbers st ++ [num]) (errors st)
  | StodInvalidArgument =>
      mkAnalyzer (numbers st)
                 (errors st ++ "Invalid number: " ++ trim tok ++ Chars.nl)%string
  | StodOutOfRange =>
      mkAnalyzer (numbers st)
                 (errors st ++ "Number out of range: " ++ trim tok ++ Chars.nl)%string
  end.
Proof.
  unfold parse_token, exec. now destruct (stod (trim tok)).
Qed.

(** ** Empty tokens *)

(** C1, as the code has it: the loop runs its body once per token that
    [getline] yields.  An empty token appends the entry
    ["Invalid number: \n"] and no value.  A leading comma and two
    consecutive commas yield an empty token; a trailing comma and an
    empty input yield none, and a text without a comma is one token.
    Parsing [""] leaves both the numbers and the error text empty,
    parsing [","] leaves the numbers empty and one entry in the error
    text; [parse] returns [false] on both. *)
Theorem empty_tokens_are_invalid_numbers :
  (forall input st,
      parse input st =
      let st' := parse_tokens (tokens input) st in
      (negb (match numbers st' with [] => true | _ => false end), st'))
  /\ (forall st,
         exec (parse_token "") st =
         mkAnalyzer (numbers st)
                    (errors st ++ "Invalid number: " ++ Chars.nl)%string)
  /\ (forall rest, tokens (String "," rest) = "" :: tokens rest)
  /\ (forall tok rest,
         comma_free tok = true ->
         tokens (tok ++ String "," (String "," rest))%string
         = tok :: "" :: tokens rest)
  /\ (forall tok,
         comma_free tok = true -> tok <> "" ->
         tokens (tok ++ ",")%string = [tok] /\ tokens tok = [tok])
  /\ tokens "" = []
  /\ parse "" new_analyzer = (false, mkAnalyzer [] "")
  /\ parse "," new_analyzer
     = (false, mkAnalyzer [] ("Invalid number: " ++ Chars.nl)%string).
Proof.
  split; [exact parse_unfold|].
  split; [intros st; now rewrite parse_token_cases|].
  split; [reflexivity|].
  split.
  { intros tok rest H. unfold tokens at 1.
    now rewrite tokens_from_comma_free. }
  split.
  { intros tok H Hne. unfold tokens. split.
    - rewrite tokens_from_comma_free by assumption. reflexivity.
    - now rewrite tokens_from_last. }
  repeat split.
Qed.

Lemma empty_tokens_witness :
  tokens ("1" ++ String "," (String "," "2"))%string = ["1"; ""; "2"]
  /\ tokens ("1" ++ ",")%string = ["1"].
Proof.
  split.
  - apply (proj1 (proj2 (proj2 (proj2 empty_tokens_are_invalid_numbers)))).
    reflexivity.
  - apply (proj1 (proj2 (proj2 (proj2 (proj2 empty_tokens_are_invalid_numbers))))
             "1").
    + reflexivity.
    + discriminate.
Defined.

(** C1 as stated fails: the empty input has no token at all, so its error
    text stays empty; and the comma that ends ["1,"] adds no entry. *)
Lemma empty_input_logs_nothing :
  errors (exec (parse "") new_analyzer) = ""
  /\ exec (parse "1,") new_analyzer = mkAnalyzer [1%float] "".
Proof. split; reflexivity. Qed.

(** ** The outcome of one token *)

Lemma isspace_cases (c : ascii) :
  Chars.isspace c = true ->
  c = Chars.SP \/ c = Chars.TAB \/ c = Chars.LF \/ c = Chars.VT
  \/ c = Chars.FF \/ c = Chars.CR.
Proof.
  unfold Chars.isspace, Chars.mem. cbn [existsb].
  rewrite !orb_true_iff, !Ascii.eqb_eq. intuition discriminate.
Qed.

Lemma spec_decimal_number_no_space (c : ascii) (t : string) :
  Chars.isspace c = true -> spec_decimal_number (String c t) = false.
Proof.
  intros H. apply isspace_cases in H.
  destruct H as [-> | [-> | [-> | [-> | [-> | ->]]]]]; reflexivity.
Qed.

(** A number of the specification is converted: [strtod] finds a
    subject sequence in it. *)
Lemma spec_decimal_number_scanned (t : string) :
  spec_decimal_number t = true -> Strtod.scan t <> None.
Proof.
  intros H.
  assert (Hs : Strtod.skip_space t = t).
  { destruct t as [|c t]; [reflexivity|]. simpl.
    destruct (Chars.isspace c) eqn:E; [|reflexivity].
    now rewrite spec_decimal_number_no_space in H. }
  unfold Strtod.scan. rewrite Hs.
  unfold spec_decimal_number in H.
  destruct (Strtod.scan_sign t) as [neg s].
  destruct (Strtod.starts_with_ci "inf" s); [discriminate|].
  destruct (Strtod.starts_with_ci "nan" s); [discriminate|].
  destruct (Strtod.scan_hex s); [discriminate|].
  unfold Strtod.scan_dec, Strtod.scan_mantissa.
  destruct (Strtod.span_digits Chars.digit_val s) as [ip s1].
  destruct (match s1 with
            | String "." s1' => Strtod.span_digits Chars.digit_val s1'
            | _ => ([], s1)
            end) as [fp s2].
  destruct (ip ++ fp); [discriminate | discriminate].
Qed.

(** C2, as the code has it: with [t] the trimmed token, when [strtod]
    converts no prefix of [t] the entry ["Invalid number: t\n"] is
    appended and no value; when it converts one and reports a range
    error, ["Number out of range: t\n"] is appended and no value; else the
    value of the prefix is appended and the error text is unchanged.  A
    number of the specification is never reported invalid; tokens such as
    ["12abc"], ["inf"], ["nan"] and ["0x1A"] add the values 12, infinity,
    NaN and 26. *)
Theorem parse_token_outcomes :
  (forall tok st,
      exec (parse_token tok) st =
      match Strtod.strtod (trim tok) with
      | None =>
          mkAnalyzer (numbers st)
            (errors st ++ "Invalid number: " ++ trim tok ++ Chars.nl)%string
      | Some (_, true) =>
          mkAnalyzer (numbers st)
            (errors st ++ "Number out of range: " ++ trim tok ++ Chars.nl)%string
      | Some (num, false) => mkAnalyzer (numbers st ++ [num]) (errors st)
      end)
  /\ (forall t, spec_decimal_number t = true -> Strtod.strtod t <> None)
  /\ exec (parse_token "12abc") new_analyzer = mkAnalyzer [12%float] ""
  /\ exec (parse_token "inf") new_analyzer = mkAnalyzer [infinity] ""
  /\ exec (parse_token "nan") new_analyzer = mkAnalyzer [nan] ""
  /\ exec (parse_token "0x1A") new_analyzer = mkAnalyzer [26%float] ""
  /\ exec (parse_token "1e999") new_analyzer
     = mkAnalyzer [] ("Number out of range: 1e999" ++ Chars.nl)%string.
Proof.
  split.
  { intros tok st. rewrite parse_token_cases. unfold stod.
    destruct (Strtod.strtod (trim tok)) as [[num [|]]|]; reflexivity. }
  split.
  { intros t H. apply spec_decimal_number_scanned in H.
    unfold Strtod.strtod. destruct (Strtod.scan t) as [[neg n]|];
      [discriminate | congruence]. }
  repeat split; vm_compute; reflexivity.
Qed.

Lemma parse_token_outcomes_witness :
  spec_decimal_number "-1.5e3" = true /\ Strtod.strtod "-1.5e3" <> None.
Proof.
  split; [reflexivity|].
  apply (proj1 (proj2 parse_token_outcomes)). reflexivity.
Defined.

(** C2 as stated fails: ["12abc"] is not a decimal number, yet its prefix
    is converted, 12 is appended and nothing is logged. *)
Lemma junk_after_number_is_accepted :
  spec_decimal_number "12abc" = false
  /\ exec (parse_token "12abc") new_analyzer = mkAnalyzer [12%float] "".
Proof. split; vm_compute; reflexivity. Qed.

(* ================================================================== *)
(** * Facts on the order of [double] *)

Module FloatOrderFacts.

Import FloatOrder.


Lemma key_lt_irrefl (a : key) : ~ key_lt a a.
Proof. destruct a as [[a1 a2] a3]; simpl; lia. Qed.

Lemma key_lt_trans (a b c : key) : key_lt a b -> key_lt b c -> key_lt a c.
Proof.
  destruct a as [[a1 a2] a3], b as [[b1 b2] b3], c as [[c1 c2] c3];
    simpl; lia.
Qed.

Lemma key_trichotomy (a b : key) : key_lt a b \/ a = b \/ key_lt b a.
Proof.
  destruct a as [[a1 a2] a3], b as [[b1 b2] b3]; simpl.
  destruct (Z.lt_trichotomy a1 b1) as [H|[H|H]]; [lia | | lia].
  destruct (Z.lt_trichotomy a2 b2) as [H2|[H2|H2]]; [lia | | lia].
  destruct (Z.lt_trichotomy a3 b3) as [H3|[H3|H3]]; [lia | | lia].
  subst; auto.
Qed.

Lemma key_le_refl (a : key) : key_le a a.
Proof. now right. Qed.

Lemma key_le_trans (a b c : key) : key_le a b -> key_le b c -> key_le a c.
Proof.
  intros [H1| ->] [H2| ->]; [left | left | left | right]; auto.
  eapply key_lt_trans; eauto.
Qed.

Lemma key_le_antisym (a b : key) : key_le a b -> key_le b a -> a = b.
Proof.
  intros [H1| ->] [H2|H2]; auto.
  exfalso. apply (key_lt_irrefl a). eapply key_lt_trans; eauto.
Qed.

Lemma key_le_total (a b : key) : key_le a b \/ key_le b a.
Proof.
  destruct (key_trichotomy a b) as [H|[H|H]];
    [left; now left | left; now right | right; now left].
Qed.

Lemma key_not_lt_le (a b : key) : ~ key_lt a b -> key_le b a.
Proof.
  intros H. destruct (key_trichotomy a b) as [H'|[H'|H']];
    [contradiction | right; auto | now left].
Qed.

(** [SFcompare] is the comparison of the keys. *)
Lemma SFcompare_key (x y : spec_float) :
  x <> S754_nan -> y <> S754_nan ->
  match SFcompare x y with
  | Some Lt => key_lt (sf_key x) (sf_key y)
  | Some Eq => sf_key x = sf_key y
  | Some Gt => key_lt (sf_key y) (sf_key x)
  | None => False
  end.
Proof.
  intros Hx Hy.
  destruct x as [sx|sx| |sx mx ex], y as [sy|sy| |sy my ey];
    try congruence;
    try (destruct sx; simpl; try destruct sy; simpl; auto; lia).
  destruct sx, sy; simpl; try lia.
  - destruct (Z.compare_spec ex ey) as [E|E|E]; try lia.
    change (Pos.compare_cont Eq mx my) with (Pos.compare mx my).
    destruct (Pos.compare_spec mx my) as [F|F|F]; simpl; subst;
      auto; lia.
  - destruct (Z.compare_spec ex ey) as [E|E|E]; try lia.
    change (Pos.compare_cont Eq mx my) with (Pos.compare mx my).
    destruct (Pos.compare_spec mx my) as [F|F|F]; simpl; subst;
      auto; lia.
Qed.

Lemma is_nan_spec (x : float) :
  is_nan x = false <-> Prim2SF x <> S754_nan.
Proof.
  unfold is_nan. rewrite FloatAxioms.eqb_spec. unfold SFeqb.
  split.
  - intros H E. rewrite E in H. discriminate.
  - intros H. pose proof (SFcompare_key _ _ H H) as K.
    destruct (SFcompare (Prim2SF x) (Prim2SF x)) as [[| |]|];
      auto; exfalso; try contradiction;
      eapply key_lt_irrefl; eauto.
Qed.

Lemma is_nan_true (x : float) : is_nan x = true -> x = nan.
Proof.
  intros H. apply Prim2SF_inj.
  destruct (Prim2SF x) eqn:E; try reflexivity;
    assert (N : is_nan x = false)
      by (apply is_nan_spec; rewrite E; discriminate);
    congruence.
Qed.

Section Comparisons.

Variables x y : float.
Hypothesis Hx : is_nan x = false.
Hypothesis Hy : is_nan y = false.

Lemma compare_keys :
  match SFcompare (Prim2SF x) (Prim2SF y) with
  | Some Lt => key_lt (fkey x) (fkey y)
  | Some Eq => fkey x = fkey y
  | Some Gt => key_lt (fkey y) (fkey x)
  | None => False
  end.
Proof. apply SFcompare_key; now apply is_nan_spec. Qed.

Lemma ltb_key : (x <? y)%float = true <-> key_lt (fkey x) (fkey y).
Proof.
  rewrite FloatAxioms.ltb_spec. unfold SFltb. pose proof compare_keys as K.
  destruct (SFcompare (Prim2SF x) (Prim2SF y)) as [[| |]|];
    try contradiction; split; intros H; auto; try discriminate;
    exfalso.
  - rewrite K in H. eapply key_lt_irrefl; eauto.
  - eapply key_lt_irrefl, key_lt_trans; eauto.
Qed.

Lemma eqb_key : (x =? y)%float = true <-> fkey x = fkey y.
Proof.
  rewrite FloatAxioms.eqb_spec. unfold SFeqb. pose proof compare_keys as K.
  destruct (SFcompare (Prim2SF x) (Prim2SF y)) as [[| |]|];
    try contradiction; split; intros H; auto; try discriminate;
    exfalso; rewrite H in K; eapply key_lt_irrefl; eauto.
Qed.

Lemma leb_key : (x <=? y)%float = true <-> kle x y.
Proof.
  rewrite FloatAxioms.leb_spec. unfold SFleb, kle, key_le.
  pose proof compare_keys as K.
  destruct (SFcompare (Prim2SF x) (Prim2SF y)) as [[| |]|];
    try contradiction; split; intros H; auto; try discriminate;
    exfalso; destruct H as [H|H].
  - eapply key_lt_irrefl, key_lt_trans; eauto.
  - rewrite H in K. eapply key_lt_irrefl; eauto.
Qed.

Lemma ltb_false_kle : (x <? y)%float = false -> kle y x.
Proof.
  intros H. apply key_not_lt_le. intros K.
  apply ltb_key in K. congruence.
Qed.

Lemma ltb_true_kle : (x <? y)%float = true -> kle x y.
Proof. intros H. left. now apply ltb_key. Qed.

End Comparisons.

End FloatOrderFacts.


(* ================================================================== *)
(** * Facts on [sort] *)

Section SortFacts.

Import FloatOrder FloatOrderFacts.

Lemma insert_from_right_perm (val : float) (rp : list float) :
  Permutation (insert_from_right val rp) (val :: rp).
Proof.
  induction rp as [|next rest IH]; simpl; [reflexivity|].
  destruct (val <? next)%float; [|reflexivity].
  rewrite IH. apply perm_swap.
Qed.

Lemma insert_sorted_perm (prefix : list float) (val : float) :
  Permutation (insert_sorted prefix val) (val :: prefix).
Proof.
  unfold insert_sorted. destruct prefix as [|first rest]; [reflexivity|].
  destruct (val <? first)%float; [reflexivity|].
  rewrite <- Permutation_rev, insert_from_right_perm.
  now rewrite <- Permutation_rev.
Qed.

Lemma fold_insert_perm (v acc : list float) :
  Permutation (fold_left insert_sorted v acc) (acc ++ v).
Proof.
  revert acc; induction v as [|x v IH]; intros acc; simpl.
  - now rewrite app_nil_r.
  - rewrite IH, insert_sorted_perm. apply Permutation_middle.
Qed.

(** [sort] rearranges its argument, whatever it holds. *)
Lemma sort_perm (v : list float) : Permutation (sort v) v.
Proof. unfold sort. now rewrite fold_insert_perm. Qed.

Lemma sort_length (v : list float) : List.length (sort v) = List.length v.
Proof. apply Permutation_length, sort_perm. Qed.

Lemma sort_nonempty (v : list float) : v <> [] -> sort v <> [].
Proof.
  intros H E. apply H. apply length_zero_iff_nil.
  rewrite <- sort_length, E. reflexivity.
Qed.

Lemma no_nan_perm (v w : list float) :
  Permutation v w -> no_nan v -> no_nan w.
Proof. intros P H. unfold no_nan. now rewrite <- P. Qed.

Lemma StronglySorted_snoc {A : Type} (R : A -> A -> Prop) (l : list A) (a : A) :
  StronglySorted R l -> Forall (fun z => R z a) l ->
  StronglySorted R (l ++ [a]).
Proof.
  induction 1 as [|b l Hs IH Hb]; intros Ha; simpl.
  - repeat constructor.
  - inversion Ha; subst. constructor; [auto|].
    apply Forall_app; split; [assumption | now constructor].
Qed.

Lemma StronglySorted_rev {A : Type} (R : A -> A -> Prop) (l : list A) :
  StronglySorted (fun a b => R b a) l -> StronglySorted R (rev l).
Proof.
  induction 1 as [|b l Hs IH Hb]; simpl; [constructor|].
  apply StronglySorted_snoc; [assumption|].
  apply Forall_rev. assumption.
Qed.

Lemma insert_from_right_sorted (val : float) (rp : list float) :
  no_nan (val :: rp) ->
  StronglySorted (fun a b => kle b a) rp ->
  StronglySorted (fun a b => kle b a) (insert_from_right val rp).
Proof.
  intros Hn Hs. induction Hs as [|next rest Hs IH Hnext]; simpl.
  - repeat constructor.
  - assert (Hv : is_nan val = false) by now inversion Hn.
    assert (Hx : is_nan next = false).
    { inversion Hn as [|? ? _ Hr]; subst. now inversion Hr. }
    assert (Hrest : no_nan (val :: rest)).
    { inversion Hn as [|? ? ? Hr]; subst. inversion Hr; subst.
      now constructor. }
    destruct (val <? next)%float eqn:E.
    + constructor; [auto|].
      rewrite insert_from_right_perm. constructor; [|assumption].
      now apply ltb_true_kle.
    + constructor; [now constructor|].
      assert (K : kle next val) by now apply ltb_false_kle.
      constructor; [assumption|].
      eapply Forall_impl; [|exact Hnext].
      intros z Hz. unfold kle in *. eapply key_le_trans; eauto.
Qed.

Lemma insert_sorted_sorted (prefix : list float) (val : float) :
  no_nan (val :: prefix) ->
  StronglySorted kle prefix ->
  StronglySorted kle (insert_sorted prefix val).
Proof.
  intros Hn Hs. unfold insert_sorted.
  destruct prefix as [|first rest]; [repeat constructor|].
  assert (Hv : is_nan val = false) by now inversion Hn.
  assert (Hf : is_nan first = false).
  { inversion Hn as [|? ? _ Hr]; subst. now inversion Hr. }
  destruct (val <? first)%float eqn:E.
  - constructor; [assumption|].
    assert (K : kle val first) by now apply ltb_true_kle.
    constructor; [assumption|].
    apply StronglySorted_inv in Hs as [_ Hall].
    eapply Forall_impl; [|exact Hall].
    intros z Hz. unfold kle in *. eapply key_le_trans; eauto.
  - apply StronglySorted_rev. apply insert_from_right_sorted.
    + eapply no_nan_perm; [|exact Hn].
      apply perm_skip, Permutation_rev.
    + rewrite <- (rev_involutive (first :: rest)) in Hs.
      remember (rev (first :: rest)) as rp. clear - Hs.
      assert (G : forall l, StronglySorted kle l ->
                            StronglySorted (fun a b => kle b a) (rev l)).
      { intros l H. apply (StronglySorted_rev (fun a b => kle b a)).
        exact H. }
      apply G in Hs. now rewrite rev_involutive in Hs.
Qed.

Lemma fold_insert_sorted (v acc : list float) :
  no_nan (acc ++ v) -> StronglySorted kle acc ->
  StronglySorted kle (fold_left insert_sorted v acc).
Proof.
  revert acc; induction v as [|x v IH]; intros acc Hn Hs; simpl; [assumption|].
  apply IH.
  - eapply no_nan_perm; [|exact Hn].
    rewrite insert_sorted_perm.
    change (x :: acc) with ([x] ++ acc).
    rewrite (Permutation_app_comm [x] acc), <- app_assoc. reflexivity.
  - apply insert_sorted_sorted; [|assumption].
    unfold no_nan in *. apply Forall_app in Hn as [Ha Hv].
    inversion Hv; subst. now constructor.
Qed.

Lemma sort_sorted_kle (v : list float) :
  no_nan v -> StronglySorted kle (sort v).
Proof. intros H. apply fold_insert_sorted; [exact H | constructor]. Qed.

Lemma StronglySorted_impl_in {A : Type} (R S : A -> A -> Prop) (l : list A) :
  (forall a b, In a l -> In b l -> R a b -> S a b) ->
  StronglySorted R l -> StronglySorted S l.
Proof.
  intros H Hs. induction Hs as [|a l Hs IH Ha]; constructor.
  - apply IH. intros x y Hx Hy. apply H; now right.
  - rewrite Forall_forall in *. intros x Hx.
    apply H; [now left | now right | auto].
Qed.

(** On values without NaN, [sort] returns them in ascending order. *)
Lemma sort_sorted (v : list float) :
  no_nan v -> StronglySorted fle (sort v).
Proof.
  intros H. pose proof (sort_sorted_kle v H) as Hs.
  assert (Hn : no_nan (sort v)).
  { eapply no_nan_perm; [|exact H]. symmetry. apply sort_perm. }
  unfold no_nan in Hn. rewrite Forall_forall in Hn.
  eapply StronglySorted_impl_in; [|exact Hs].
  intros a b Ha Hb K. unfold fle. apply leb_key; auto.
Qed.

(** Two sorted arrangements of the same values agree up to [==]: they
    have the same keys, position by position. *)
Lemma sorted_unique {A : Type} (R : A -> A -> Prop) :
  (forall a b, R a b -> R b a -> a = b) ->
  forall l1 l2, StronglySorted R l1 -> StronglySorted R l2 ->
                Permutation l1 l2 -> l1 = l2.
Proof.
  intros anti l1. induction l1 as [|a l1 IH]; intros l2 H1 H2 P.
  - apply Permutation_nil in P. now subst.
  - destruct l2 as [|b l2].
    { symmetry in P. now apply Permutation_nil in P. }
    apply StronglySorted_inv in H1 as [H1 Ha].
    apply StronglySorted_inv in H2 as [H2 Hb].
    rewrite Forall_forall in Ha, Hb.
    assert (E : a = b).
    { assert (Ia : In a (b :: l2)) by (eapply Permutation_in; [exact P | now left]).
      assert (Ib : In b (a :: l1))
        by (eapply Permutation_in; [symmetry; exact P | now left]).
      destruct Ia as [Ia|Ia]; [now symmetry|].
      destruct Ib as [Ib|Ib]; [assumption|].
      apply anti; auto. }
    subst b. f_equal. apply IH; auto.
    eapply Permutation_cons_inv; eauto.
Qed.

Lemma StronglySorted_map_key (l : list float) :
  StronglySorted kle l -> StronglySorted key_le (map fkey l).
Proof.
  induction 1 as [|a l Hs IH Ha]; simpl; constructor; auto.
  apply Forall_map. exact Ha.
Qed.

Lemma sorted_perm_same_keys (l1 l2 : list float) :
  Permutation l1 l2 -> StronglySorted kle l1 -> StronglySorted kle l2 ->
  map fkey l1 = map fkey l2.
Proof.
  intros P H1 H2.
  apply (sorted_unique key_le key_le_antisym).
  - now apply StronglySorted_map_key.
  - now apply StronglySorted_map_key.
  - now apply Permutation_map.
Qed.

Lemma sort_perm_keys (v w : list float) :
  no_nan v -> Permutation v w ->
  map fkey (sort v) = map fkey (sort w).
Proof.
  intros Hn P. apply sorted_perm_same_keys.
  - rewrite sort_perm, P. symmetry. apply sort_perm.
  - now apply sort_sorted_kle.
  - apply sort_sorted_kle. eapply no_nan_perm; eauto.
Qed.

End SortFacts.

(* ================================================================== *)
(** * Methods that only read the object *)

Lemma read_only_ret {A : Type} (a : A) : read_only (ret a).
Proof. intros st. reflexivity. Qed.

Lemma read_only_gets {A : Type} (f : NumberAnalyzer -> A) : read_only (gets f).
Proof. intros st. reflexivity. Qed.

Lemma read_only_bind {A B : Type} (m : M A) (k : A -> M B) :
  read_only m -> (forall a, read_only (k a)) -> read_only (bind m k).
Proof.
  intros Hm Hk st. unfold exec, bind.
  specialize (Hm st). unfold exec in Hm.
  destruct (m st) as [a st']. simpl in Hm. subst st'. apply Hk.
Qed.

(** The result of a sequence whose first part only reads. *)
Lemma eval_bind_read_only {A B : Type} (m : M A) (k : A -> M B) st :
  read_only m -> eval (bind m k) st = eval (k (eval m st)) st.
Proof.
  intros Hm. unfold eval, bind. specialize (Hm st). unfold exec in Hm.
  destruct (m st) as [a st']. simpl in *. now subst.
Qed.

Create HintDb frame.
#[local] Hint Resolve read_only_ret read_only_gets : frame.

Ltac frame_step :=
  match goal with
  | |- read_only (bind _ _) => apply read_only_bind; [|intros ?]
  | |- read_only (match ?x with _ => _ end) => destruct x
  | |- read_only _ => solve [auto with frame]
  end.

Ltac frame := repeat frame_step.

Lemma calculateSum_read_only : read_only calculateSum.
Proof. unfold calculateSum. frame. Qed.
#[local] Hint Resolve calculateSum_read_only : frame.

Lemma calculateAverage_read_only : read_only calculateAverage.
Proof. unfold calculateAverage. frame. Qed.
#[local] Hint Resolve calculateAverage_read_only : frame.

Lemma calculateMedian_read_only : read_only calculateMedian.
Proof. unfold calculateMedian. frame. Qed.
#[local] Hint Resolve calculateMedian_read_only : frame.

Lemma calculateStdDev_read_only : read_only calculateStdDev.
Proof. unfold calculateStdDev. frame. Qed.
#[local] Hint Resolve calculateStdDev_read_only : frame.

Lemma findMode_read_only : read_only findMode.
Proof. unfold findMode. frame. Qed.
#[local] Hint Resolve findMode_read_only : frame.

Lemma calculateQuartiles_read_only : read_only calculateQuartiles.
Proof. unfold calculateQuartiles. frame. Qed.
#[local] Hint Resolve calculateQuartiles_read_only : frame.

Section ReportFrame.

Variable show_double : float -> string.

Lemma report_warnings_read_only : read_only report_warnings.
Proof. unfold report_warnings. frame. Qed.

Lemma report_basic_read_only : read_only (report_basic show_double).
Proof. unfold report_basic. frame. Qed.

Lemma report_range_read_only : read_only (report_range show_double).
Proof. unfold report_range. frame. Qed.

Lemma report_dispersion_read_only : read_only (report_dispersion show_double).
Proof. unfold report_dispersion. frame. Qed.

Lemma report_quartiles_read_only : read_only (report_quartiles show_double).
Proof. unfold report_quartiles. frame. Qed.

Lemma report_signs_read_only : read_only report_signs.
Proof. unfold report_signs. frame. Qed.

Hint Resolve report_warnings_read_only report_basic_read_only
  report_range_read_only report_dispersion_read_only
  report_quartiles_read_only report_signs_read_only : frame.

Lemma generateReport_read_only : read_only (generateReport show_double).
Proof. unfold generateReport. frame. Qed.

(** The text of the report, section by section. *)
Lemma generateReport_text (st : NumberAnalyzer) :
  eval (generateReport show_double) st =
  match numbers st with
  | [] =>
      (report_header ++ eval report_warnings st
       ++ ln "Error: No valid numbers parsed")%string
  | _ =>
      (report_header ++ eval report_warnings st
       ++ eval (report_basic show_double) st
       ++ eval (report_range show_double) st
       ++ eval (report_dispersion show_double) st
       ++ eval (report_quartiles show_double) st
       ++ eval report_signs st)%string
  end.
Proof.
  unfold generateReport.
  rewrite eval_bind_read_only by auto with frame.
  rewrite eval_bind_read_only by auto with frame.
  change (eval (gets numbers) st) with (numbers st).
  destruct (numbers st) as [|x ns]; [reflexivity|].
  repeat rewrite eval_bind_read_only by auto with frame.
  reflexivity.
Qed.

End ReportFrame.

(** C8: every statistics method and the report leave [numbers] and [errors]
    as they were, so a second report from the same object is the same
    text. *)
Theorem statistics_and_report_read_only :
  forall (show_double : float -> string) (st : NumberAnalyzer),
    exec calculateSum st = st
    /\ exec calculateAverage st = st
    /\ exec calculateMedian st = st
    /\ exec calculateStdDev st = st
    /\ exec findMode st = st
    /\ exec calculateQuartiles st = st
    /\ exec getErrors st = st
    /\ exec getCount st = st
    /\ exec (generateReport show_double) st = st
    /\ (let '(text1, st1) := generateReport show_double st in
        let '(text2, st2) := generateReport show_double st1 in
        text1 = text2
        /\ numbers st2 = numbers st /\ errors st2 = errors st).
Proof.
  intros show_double st.
  repeat split;
    try solve [ apply calculateSum_read_only | apply calculateAverage_read_only
              | apply calculateMedian_read_only | apply calculateStdDev_read_only
              | apply findMode_read_only | apply calculateQuartiles_read_only
              | apply generateReport_read_only ].
  pose proof (generateReport_read_only show_double st) as H.
  unfold exec in H.
  destruct (generateReport show_double st) as [text1 st1] eqn:E1.
  simpl in H. subst st1. rewrite E1. auto.
Qed.

(* ================================================================== *)
(** * The command line *)

Lemma exec_parse (input : string) (st : NumberAnalyzer) :
  exec (parse input) st = parse_tokens (tokens input) st.
Proof. unfold exec. now rewrite parse_unfold. Qed.

(** C6: with the argument present, [main] returns 1 and writes the error
    text to [cerr] exactly when no number was parsed; else it returns 0 and
    writes the report to [cout], and the report holds the error text under
    ["Warnings/Errors:"] when there is one. *)
Theorem main_exit_status :
  forall (show_double : float -> string) (prog input : string)
         (rest : list string),
    let st := exec (parse input) new_analyzer in
    let out := main show_double (prog :: input :: rest) in
    (numbers st = [] ->
     out = mkOutcome 1 "" ("Error parsing input: " ++ errors st)%string)
    /\ (numbers st <> [] ->
        out = mkOutcome 0 (eval (generateReport show_double) st) "")
    /\ (exit_status out = 1%Z <-> numbers st = [])
    /\ (exit_status out = 0%Z <-> numbers st <> [])
    /\ (numbers st <> [] -> errors st <> "" ->
        exists tail,
          to_cout out
          = (report_header ++ ln "Warnings/Errors:" ++ errors st ++ Chars.nl
             ++ tail)%string).
Proof.
  intros show_double prog input rest st out.
  assert (Hout : out =
                 match numbers st with
                 | [] => mkOutcome 1 "" ("Error parsing input: " ++ errors st)%string
                 | _ => mkOutcome 0 (eval (generateReport show_double) st) ""
                 end).
  { subst out st. unfold main. rewrite exec_parse, parse_unfold.
    cbv zeta. destruct (numbers (parse_tokens (tokens input) new_analyzer));
      reflexivity. }
  rewrite Hout. clear Hout out.
  split; [intros ->; reflexivity|].
  split; [intros H; destruct (numbers st); [congruence | reflexivity]|].
  split.
  { destruct (numbers st); simpl; split; intros H;
      try reflexivity; discriminate. }
  split.
  { destruct (numbers st); simpl; split; intros H;
      try reflexivity; try discriminate; congruence. }
  intros Hn He.
  destruct (numbers st) as [|x ns] eqn:En; [congruence|]. simpl.
  rewrite generateReport_text, En.
  unfold report_warnings at 1.
  rewrite eval_bind_read_only by apply read_only_gets.
  change (eval (gets errors) st) with (errors st).
  destruct (errors st) as [|c errs] eqn:Ee; [congruence|].
  eexists. unfold eval at 1, ret at 1. cbn [fst].
  rewrite !append_assoc. reflexivity.
Qed.

Lemma main_exit_status_witness :
  let st := exec (parse "1,x") new_analyzer in
  numbers st <> [] /\ errors st <> ""
  /\ exists tail,
      to_cout (main (fun _ => "") ["prog"; "1,x"])
      = (report_header ++ ln "Warnings/Errors:" ++ errors st ++ Chars.nl
         ++ tail)%string.
Proof.
  split; [vm_compute; discriminate|].
  split; [vm_compute; discriminate|].
  apply (proj2 (proj2 (proj2 (proj2
          (main_exit_status (fun _ => "") "prog" "1,x" []))))).
  - vm_compute; discriminate.
  - vm_compute; discriminate.
Defined.

(* ================================================================== *)
(** * Sign analysis *)

Lemma sign_counts_from (v : list float) (p n z : Z) :
  fold_left sign_step v (p, n, z) =
  ((p + count_if (fun x => 0 <? x)%float v)%Z,
   (n + count_if (fun x => negb (0 <? x) && (x <? 0))%float v)%Z,
   (z + count_if (fun x => negb (0 <? x) && negb (x <? 0))%float v)%Z).
Proof.
  unfold count_if.
  revert p n z; induction v as [|x v IH]; intros p n z; simpl.
  - now rewrite !Z.add_0_r.
  - destruct (0 <? x)%float; simpl; [|destruct (x <? 0)%float; simpl];
      rewrite IH; simpl List.length;
      (apply f_equal2; [apply f_equal2|]); lia.
Qed.

Lemma count_if_partition (v : list float) :
  (count_if (fun x => 0 <? x)%float v
   + count_if (fun x => negb (0 <? x) && (x <? 0))%float v
   + count_if (fun x => negb (0 <? x) && negb (x <? 0))%float v
   = Z.of_nat (List.length v))%Z.
Proof.
  unfold count_if. induction v as [|x v IH]; [reflexivity|].
  cbn [filter]. cbv beta.
  destruct (0 <? x)%float; cbn [negb andb];
    [|destruct (x <? 0)%float; cbn [negb andb]];
    cbn [List.length]; rewrite ?Nat2Z.inj_succ; lia.
Qed.

(** C9: the three counters add up to the count; [Zero] counts exactly the
    values that are neither above nor below 0, a NaN among them, and
    [stod] yields a NaN on the token ["nan"]. *)
Theorem sign_buckets_partition :
  forall v : list float,
    let '(positiveCount, negativeCount, zeroCount) := sign_counts v in
    (positiveCount + negativeCount + zeroCount = Z.of_nat (List.length v))%Z
    /\ positiveCount = count_if (fun x => 0 <? x)%float v
    /\ negativeCount = count_if (fun x => negb (0 <? x) && (x <? 0))%float v
    /\ zeroCount = count_if (fun x => negb (0 <? x) && negb (x <? 0))%float v
    /\ stod "nan" = StodValue nan
    /\ (0 <? nan)%float = false /\ (nan <? 0)%float = false
    /\ sign_counts [nan] = (0, 0, 1)%Z
    /\ eval report_signs (exec (parse "nan,-2,0") new_analyzer)
       = (ln "Sign Analysis:" ++ ln "  Positive: 0" ++ ln "  Negative: 1"
          ++ ln "  Zero: 2")%string.
Proof.
  intros v. unfold sign_counts. rewrite sign_counts_from. simpl.
  split; [apply count_if_partition|].
  repeat split; vm_compute; reflexivity.
Qed.

(* ================================================================== *)
(** * Quartiles *)

Lemma calculateQuartiles_eval (st : NumberAnalyzer) :
  eval calculateQuartiles st =
  let n := List.length (numbers st) in
  if (n <? 4)%nat then [0; 0; 0]%float
  else [at_ (sort (numbers st)) (n / 4);
        at_ (sort (numbers st)) (n / 2);
        at_ (sort (numbers st)) (3 * n / 4)].
Proof.
  unfold calculateQuartiles.
  rewrite eval_bind_read_only by apply read_only_gets.
  change (eval (gets numbers) st) with (numbers st). cbv zeta.
  rewrite sort_length.
  destruct (List.length (numbers st) <? 4)%nat; reflexivity.
Qed.

(** C10: on the six values 4, 8, 15, 16, 23, 42 the median is 15.5 and
    the second quartile is 16, and these are the numbers the report
    shows on its Median and Q2 lines. *)
Theorem median_differs_from_second_quartile :
  exists v : list float,
    Nat.even (List.length v) = true /\ 4 <= List.length v
    /\ numbers (exec (parse "4,8,15,16,23,42") new_analyzer) = v
    /\ v = [4; 8; 15; 16; 23; 42]%float
    /\ eval calculateMedian (mkAnalyzer v "") = 15.5%float
    /\ at_ (eval calculateQuartiles (mkAnalyzer v "")) 1 = 16%float
    /\ (eval calculateMedian (mkAnalyzer v "")
        =? at_ (eval calculateQuartiles (mkAnalyzer v "")) 1)%float = false
    /\ forall show_double : float -> string,
        eval (report_basic show_double) (mkAnalyzer v "")
        = (ln "Basic Statistics:"
           ++ "  Count: 6" ++ Chars.nl
           ++ "  Sum: " ++ show_double 108%float ++ Chars.nl
           ++ "  Average: " ++ show_double 18%float ++ Chars.nl
           ++ "  Median: " ++ show_double 15.5%float ++ Chars.nl
           ++ "  Mode: " ++ show_double 4%float ++ Chars.nl ++ Chars.nl)%string
        /\ eval (report_quartiles show_double) (mkAnalyzer v "")
           = (ln "Quartile Analysis:"
              ++ "  Q1 (25th percentile): " ++ show_double 8%float ++ Chars.nl
              ++ "  Q2 (50th percentile): " ++ show_double 16%float ++ Chars.nl
              ++ "  Q3 (75th percentile): " ++ show_double 23%float ++ Chars.nl
              ++ "  IQR: " ++ show_double 15%float
              ++ Chars.nl ++ Chars.nl)%string.
Proof.
  exists [4; 8; 15; 16; 23; 42]%float.
  repeat split; try (vm_compute; reflexivity).
  simpl. lia.
Qed.

(* ================================================================== *)
(** * The mode *)

Section ModeFacts.

Import FloatOrder FloatOrderFacts.

Lemma runs_head (x : float) (v : list float) :
  exists r rs, runs (x :: v) = (x :: r) :: rs.
Proof.
  simpl. destruct (runs v) as [|[|y r] rs]; eauto.
  destruct (y =? x)%float; eauto.
Qed.

Lemma runs_cons (p x : float) (v : list float) (r : list float)
      (rs : list (list float)) :
  runs (x :: v) = (x :: r) :: rs ->
  runs (p :: x :: v) =
  if (x =? p)%float then (p :: x :: r) :: rs else [p] :: (x :: r) :: rs.
Proof.
  intros E. change (runs (p :: x :: v)) with
    (match runs (x :: v) with
     | (y :: r) :: rs =>
         if (y =? p)%float then (p :: y :: r) :: rs
         else [p] :: (y :: r) :: rs
     | _ => [[p]]
     end).
  now rewrite E.
Qed.

(** The runs cut the vector: put end to end they give it back. *)
Lemma runs_concat (v : list float) : List.concat (runs v) = v.
Proof.
  induction v as [|x v IH]; [reflexivity|].
  destruct v as [|y v]; [reflexivity|].
  destruct (runs_head y v) as (r & rs & E).
  rewrite (runs_cons x y v r rs E).
  rewrite E in IH. simpl in IH.
  destruct (y =? x)%float; simpl; now rewrite IH.
Qed.

Lemma runs_chain (v : list float) : Forall chain (runs v).
Proof.
  induction v as [|x v IH]; [constructor|].
  destruct v as [|y v]; [repeat constructor|].
  destruct (runs_head y v) as (r & rs & E).
  rewrite (runs_cons x y v r rs E). rewrite E in IH.
  inversion IH as [|? ? Hc Hrs]; subst.
  destruct (y =? x)%float eqn:T.
  - constructor; [|assumption]. simpl. split; [assumption|].
    exact Hc.
  - constructor; [exact I|]. constructor; assumption.
Qed.

Lemma runs_separated (v : list float) : separated (runs v).
Proof.
  induction v as [|x v IH]; [exact I|].
  destruct v as [|y v]; [exact I|].
  destruct (runs_head y v) as (r & rs & E).
  rewrite (runs_cons x y v r rs E). rewrite E in IH.
  destruct (y =? x)%float eqn:T.
  - destruct rs as [|r2 rs]; [exact I|].
    destruct IH as [H1 H2]. split; [|exact H2].
    change (last (x :: y :: r) 0%float) with (last (y :: r) 0%float).
    exact H1.
  - split; [exact T | exact IH].
Qed.

Lemma eqb_true_not_nan (x y : float) :
  (x =? y)%float = true -> is_nan x = false /\ is_nan y = false.
Proof.
  rewrite FloatAxioms.eqb_spec. unfold SFeqb. intros H.
  split; apply is_nan_spec; intros E; rewrite E in H;
    [|destruct (Prim2SF x)]; discriminate.
Qed.

(** In a run every element compares equal to the last one, or is it. *)
Lemma chain_all_equal (r : list float) :
  chain r ->
  Forall (fun x => x = last r 0%float \/ (x =? last r 0%float)%float = true) r.
Proof.
  induction r as [|x r IH]; intros H; [constructor|].
  destruct r as [|y r]; [repeat constructor; now left|].
  destruct H as [Hxy Hc]. specialize (IH Hc).
  change (last (x :: y :: r) 0%float) with (last (y :: r) 0%float).
  constructor; [|exact IH].
  right. inversion IH as [|? ? Hy _]; subst.
  destruct (eqb_true_not_nan _ _ Hxy) as [Ny Nx].
  destruct Hy as [Hy|Hy].
  - rewrite <- Hy. apply eqb_key; auto. symmetry. now apply eqb_key.
  - destruct (eqb_true_not_nan _ _ Hy) as [_ Nl].
    apply eqb_key; auto.
    transitivity (fkey y).
    + symmetry. now apply eqb_key.
    + now apply eqb_key.
Qed.

Lemma mode_loop (v : list float) :
  forall s : mode_state,
    (1 <= currentCount s <= maxCount s)%Z ->
    mode (fold_left mode_step v s) =
    match runs (previous s :: v) with
    | r0 :: rs =>
        let len0 := (currentCount s - 1 + Z.of_nat (List.length r0))%Z in
        fst (fold_left pick rs
               (if (maxCount s <? len0)%Z then (last r0 0%float, len0)
                else (mode s, maxCount s)))
    | [] => mode s
    end.
Proof.
  induction v as [|x v IH]; intros s Hs.
  - simpl. replace (currentCount s - 1 + 1)%Z with (currentCount s) by lia.
    destruct (Z.ltb_spec (maxCount s) (currentCount s)); [lia | reflexivity].
  - destruct (runs_head x v) as (r & rs & E).
    rewrite (runs_cons (previous s) x v r rs E).
    cbn [fold_left]. unfold mode_step at 2.
    destruct (x =? previous s)%float.
    + destruct (Z.ltb_spec (maxCount s) (currentCount s + 1)) as [L|L].
      * rewrite IH by (simpl; lia). cbn [previous currentCount maxCount mode].
        rewrite E. cbv zeta.
        change (last (previous s :: x :: r) 0%float) with (last (x :: r) 0%float).
        cbn [List.length]. rewrite !Nat2Z.inj_succ.
        destruct r as [|y r].
        -- cbn [List.length last].
           destruct (Z.ltb_spec (currentCount s + 1)
                       (currentCount s + 1 - 1 + Z.succ (Z.of_nat 0)));
             [lia|].
           destruct (Z.ltb_spec (maxCount s)
                       (currentCount s - 1 + Z.succ (Z.succ (Z.of_nat 0))));
             [|lia].
           do 2 f_equal. f_equal. lia.
        -- cbn [List.length]. rewrite !Nat2Z.inj_succ.
           match goal with
           | |- context [(currentCount s + 1 <? ?a)%Z] =>
               destruct (Z.ltb_spec (currentCount s + 1) a); [|lia]
           end.
           match goal with
           | |- context [(maxCount s <? ?a)%Z] =>
               destruct (Z.ltb_spec (maxCount s) a); [|lia]
           end.
           do 2 f_equal. f_equal. lia.
      * rewrite IH by (simpl; lia). cbn [previous currentCount maxCount mode].
        rewrite E. cbv zeta.
        change (last (previous s :: x :: r) 0%float) with (last (x :: r) 0%float).
        cbn [List.length]. rewrite !Nat2Z.inj_succ.
        replace (currentCount s + 1 - 1 + Z.succ (Z.of_nat (List.length r)))%Z
          with (currentCount s - 1
                + Z.succ (Z.succ (Z.of_nat (List.length r))))%Z by lia.
        reflexivity.
    + rewrite IH by (simpl; lia). cbn [previous currentCount maxCount mode].
      rewrite E. cbv zeta. cbn [List.length fold_left].
      replace (currentCount s - 1 + Z.of_nat 1)%Z with (currentCount s) by lia.
      destruct (Z.ltb_spec (maxCount s) (currentCount s)); [lia|].
      unfold pick at 2. cbn [snd List.length].
      replace (1 - 1 + Z.of_nat (S (List.length r)))%Z
        with (Z.of_nat (S (List.length r))) by lia.
      reflexivity.
Qed.

Lemma fold_pick_longer (rs : list (list float)) (b : list float) :
  fold_left pick rs (last b 0%float, Z.of_nat (List.length b))
  = (last (fold_left longer_run rs b) 0%float,
     Z.of_nat (List.length (fold_left longer_run rs b))).
Proof.
  revert b; induction rs as [|r rs IH]; intros b; [reflexivity|].
  cbn [fold_left]. unfold pick at 2, longer_run at 2 4. cbn [snd].
  destruct (Nat.ltb_spec (List.length b) (List.length r));
    destruct (Z.ltb_spec (Z.of_nat (List.length b)) (Z.of_nat (List.length r)));
    try lia; apply IH.
Qed.

(** The loop of [findMode] computes the mode of the specification. *)
Lemma mode_loop_spec (first : float) (rest : list float) :
  mode (fold_left mode_step rest (mkMode first 1 1 first))
  = spec_mode (first :: rest).
Proof.
  rewrite mode_loop by (simpl; lia). cbn [previous currentCount maxCount mode].
  unfold spec_mode, first_longest.
  destruct (runs_head first rest) as (r & rs & E). rewrite E. cbv zeta.
  replace (1 - 1 + Z.of_nat (List.length (first :: r)))%Z
    with (Z.of_nat (List.length (first :: r))) by lia.
  destruct (Z.ltb_spec 1 (Z.of_nat (List.length (first :: r)))) as [L|L].
  - now rewrite fold_pick_longer.
  - destruct r as [|y r]; [|simpl in L; lia].
    change (first, 1%Z) with (last [first] 0%float, Z.of_nat (List.length [first])).
    now rewrite fold_pick_longer.
Qed.

Lemma fold_longer_run_length (rs : list (list float)) (b : list float) :
  List.length b <= List.length (fold_left longer_run rs b).
Proof.
  revert b; induction rs as [|r rs IH]; intros b; simpl; [lia|].
  unfold longer_run at 2.
  destruct (Nat.ltb_spec (List.length b) (List.length r)).
  - specialize (IH r). lia.
  - apply IH.
Qed.

(** The run kept is the first one of greatest length: the runs before it
    are strictly shorter, the runs after it are not longer. *)
Lemma fold_longer_run_split (rs : list (list float)) (b : list float) :
  exists pre post,
    b :: rs = pre ++ fold_left longer_run rs b :: post
    /\ Forall (fun r => List.length r
                        < List.length (fold_left longer_run rs b)) pre
    /\ Forall (fun r => List.length r
                        <= List.length (fold_left longer_run rs b)) post.
Proof.
  revert b; induction rs as [|r rs IH]; intros b.
  - exists [], []. simpl. repeat split; constructor.
  - cbn [fold_left]. unfold longer_run at 2 4 6.
    destruct (Nat.ltb_spec (List.length b) (List.length r)) as [L|L].
    + destruct (IH r) as (pre & post & E & Hpre & Hpost).
      exists (b :: pre), post. rewrite E. repeat split; auto.
      constructor; [|assumption].
      pose proof (fold_longer_run_length rs r). lia.
    + destruct (IH b) as (pre & post & E & Hpre & Hpost).
      remember (fold_left longer_run rs b) as best eqn:Ebest.
      destruct pre as [|b' pre].
      * simpl in E. injection E as Eb Epost.
        exists [], (r :: rs). clear Ebest. subst b. simpl.
        repeat split; [constructor|].
        constructor; [assumption|]. rewrite Epost. exact Hpost.
      * simpl in E. injection E as Eb Ers. subst b'.
        exists (b :: r :: pre), post. simpl.
        split; [now rewrite Ers|]. split; [|assumption].
        inversion Hpre; subst. constructor; [assumption|].
        constructor; [lia | assumption].
Qed.

End ModeFacts.

Lemma findMode_eval (st : NumberAnalyzer) :
  numbers st <> [] -> eval findMode st = spec_mode (sort (numbers st)).
Proof.
  intros H. unfold findMode.
  rewrite eval_bind_read_only by apply read_only_gets.
  change (eval (gets numbers) st) with (numbers st).
  destruct (numbers st) as [|x ns] eqn:E; [congruence|].
  pose proof (sort_nonempty (x :: ns) H) as Hs.
  destruct (sort (x :: ns)) as [|first rest]; [congruence|].
  unfold eval, ret. cbn [fst]. apply mode_loop_spec.
Qed.

(* ================================================================== *)
(** * The median *)

Section MedianFacts.

Import FloatOrder FloatOrderFacts.

Lemma sf_same_refl (a : spec_float) : sf_same a a.
Proof. destruct a; simpl; auto. Qed.

Lemma key_eq_sf_same (a b : spec_float) :
  a <> S754_nan -> b <> S754_nan -> sf_key a = sf_key b -> sf_same a b.
Proof.
  intros Ha Hb.
  destruct a as [sa|sa| |sa ma ea], b as [sb|sb| |sb mb eb];
    try congruence; simpl; auto;
    try destruct sa; try destruct sb; simpl; intros E;
    try discriminate; try reflexivity.
  - injection E as E1 E2. assert (ea = eb) by lia. now subst.
  - injection E as E1 E2. now subst.
Qed.

Lemma SFadd_same (a a' b b' : spec_float) :
  sf_same a a' -> sf_same b b' ->
  sf_same (SF64add a b) (SF64add a' b').
Proof.
  intros Ha Hb.
  destruct a as [sa|sa| |sa ma ea], a' as [sa'|sa'| |sa' ma' ea'];
    simpl in Ha; try discriminate Ha; try (injection Ha as ?; subst);
    destruct b as [sb|sb| |sb mb eb], b' as [sb'|sb'| |sb' mb' eb'];
    simpl in Hb; try discriminate Hb; try (injection Hb as ?; subst);
    try apply sf_same_refl;
    repeat match goal with s : bool |- _ => destruct s end;
    simpl; auto.
Qed.

Lemma SFdiv_same (a a' : spec_float) (s : bool) (m : positive) (e : Z) :
  sf_same a a' ->
  sf_same (SF64div a (S754_finite s m e)) (SF64div a' (S754_finite s m e)).
Proof.
  intros Ha.
  destruct a as [sa|sa| |sa ma ea], a' as [sa'|sa'| |sa' ma' ea'];
    simpl in Ha; try discriminate Ha; try (injection Ha as ?; subst);
    try apply sf_same_refl.
  simpl. exact I.
Qed.

Lemma Prim2SF_nan : Prim2SF nan = S754_nan.
Proof. reflexivity. Qed.

Lemma sf_same_number (x y : float) :
  sf_same (Prim2SF x) (Prim2SF y) -> same_number x y.
Proof.
  unfold same_number. intros H.
  destruct (Prim2SF x) as [sx|sx| |sx mx ex] eqn:Ex.
  - left. rewrite FloatAxioms.eqb_spec, Ex.
    destruct (Prim2SF y); simpl in H; try discriminate H. reflexivity.
  - left. simpl in H. rewrite FloatAxioms.eqb_spec, Ex, <- H.
    destruct sx; reflexivity.
  - right. simpl in H. split; apply Prim2SF_inj; rewrite Prim2SF_nan; auto.
  - left. simpl in H.
    assert (N : is_nan x = false) by (apply is_nan_spec; rewrite Ex; discriminate).
    assert (E : x = y) by (apply Prim2SF_inj; congruence).
    subst y. now apply eqb_key.
Qed.

Lemma Prim2SF_two : Prim2SF 2 = S754_finite false 4503599627370496 (-51).
Proof. reflexivity. Qed.

Lemma calculateMedian_eval (st : NumberAnalyzer) :
  numbers st <> [] ->
  eval calculateMedian st = median_of_sorted (sort (numbers st)).
Proof.
  intros H. unfold calculateMedian.
  rewrite eval_bind_read_only by apply read_only_gets.
  change (eval (gets numbers) st) with (numbers st).
  destruct (numbers st) as [|x ns]; [congruence|].
  unfold median_of_sorted. cbv zeta.
  destruct (List.length (sort (x :: ns)) mod 2 =? 0)%nat; reflexivity.
Qed.

Lemma at_sorted_same (s1 s2 : list float) (i : nat) :
  no_nan s1 -> Permutation s1 s2 ->
  StronglySorted kle s1 -> StronglySorted kle s2 ->
  i < List.length s1 ->
  sf_same (Prim2SF (at_ s1 i)) (Prim2SF (at_ s2 i)).
Proof.
  intros Hn P H1 H2 Hi.
  assert (Hw : no_nan s2) by (eapply no_nan_perm; eauto).
  assert (In1 : In (at_ s1 i) s1) by now apply nth_In.
  assert (In2 : In (at_ s2 i) s2).
  { apply nth_In. now rewrite <- (Permutation_length P). }
  unfold no_nan in Hn, Hw. rewrite Forall_forall in Hn, Hw.
  apply key_eq_sf_same.
  - apply is_nan_spec. auto.
  - apply is_nan_spec. auto.
  - pose proof (sorted_perm_same_keys s1 s2 P H1 H2) as K.
    unfold at_.
    change (sf_key (Prim2SF (nth i s1 0%float)))
      with (fkey (nth i s1 0%float)).
    change (sf_key (Prim2SF (nth i s2 0%float)))
      with (fkey (nth i s2 0%float)).
    rewrite <- (map_nth fkey s1 0%float i).
    rewrite <- (map_nth fkey s2 0%float i).
    now rewrite K.
Qed.

(** The median of two ascending arrangements of the same values, none of
    them a NaN, is the same number. *)
Lemma median_of_sorted_same (s1 s2 : list float) :
  s1 <> [] -> no_nan s1 -> Permutation s1 s2 ->
  StronglySorted kle s1 -> StronglySorted kle s2 ->
  same_number (median_of_sorted s1) (median_of_sorted s2).
Proof.
  intros Hne Hn P H1 H2. unfold median_of_sorted. cbv zeta.
  rewrite <- (Permutation_length P).
  assert (L : 0 < List.length s1) by (destruct s1; [congruence | simpl; lia]).
  apply sf_same_number.
  destruct (List.length s1 mod 2 =? 0)%nat.
  - rewrite !div_spec, !add_spec, Prim2SF_two.
    apply SFdiv_same, SFadd_same; apply at_sorted_same; auto.
    + assert (List.length s1 / 2 < List.length s1)
        by (apply Nat.div_lt; lia).
      lia.
    + apply Nat.div_lt; lia.
  - apply at_sorted_same; auto. apply Nat.div_lt; lia.
Qed.

Lemma fle_sorted_kle (s : list float) :
  no_nan s -> StronglySorted fle s -> StronglySorted kle s.
Proof.
  intros Hn Hs. unfold no_nan in Hn. rewrite Forall_forall in Hn.
  eapply StronglySorted_impl_in; [|exact Hs].
  intros a b Ha Hb K. apply leb_key; auto.
Qed.

End MedianFacts.

(** C7, as the code has it: on a non-empty vector without NaN the median
    of any rearrangement is the same number as the median of the vector
    (the two compare equal, or both are the NaN that the sum of two
    opposite infinities gives).  The median is computed from the sorted
    copy as lines 79-84 say, and any ascending arrangement of the numbers
    gives the same number as the copy that [sort] returns. *)
Theorem median_permutation_invariant :
  forall (v w : list float) (errs errs' : string),
    v <> [] -> no_nan v -> Permutation v w ->
    same_number (eval calculateMedian (mkAnalyzer v errs))
                (eval calculateMedian (mkAnalyzer w errs'))
    /\ eval calculateMedian (mkAnalyzer v errs) = median_of_sorted (sort v)
    /\ (forall s : list float,
           Permutation s v -> StronglySorted fle s ->
           same_number (median_of_sorted s)
                       (eval calculateMedian (mkAnalyzer v errs))).
Proof.
  intros v w errs errs' Hne Hn P.
  assert (Hw : w <> []).
  { intros E. subst w. symmetry in P. apply Permutation_nil in P.
    congruence. }
  rewrite !calculateMedian_eval by assumption. simpl numbers.
  split; [|split; [reflexivity|]].
  - apply median_of_sorted_same.
    + now apply sort_nonempty.
    + eapply no_nan_perm; [|exact Hn]. symmetry. apply sort_perm.
    + rewrite sort_perm, P. symmetry. apply sort_perm.
    + now apply sort_sorted_kle.
    + apply sort_sorted_kle. eapply no_nan_perm; eauto.
  - intros s Ps Hs.
    assert (Hns : no_nan s) by (eapply no_nan_perm; [symmetry|]; eauto).
    apply median_of_sorted_same; auto.
    + intros E. subst s. apply Permutation_nil in Ps. congruence.
    + rewrite Ps. symmetry. apply sort_perm.
    + now apply fle_sorted_kle.
    + now apply sort_sorted_kle.
Qed.

Lemma median_permutation_invariant_witness :
  same_number
    (eval calculateMedian (mkAnalyzer [3; 1; 2; 0]%float ""))
    (eval calculateMedian (mkAnalyzer [0; 2; 1; 3]%float "")).
Proof.
  apply (median_permutation_invariant [3; 1; 2; 0]%float [0; 2; 1; 3]%float "" "").
  - discriminate.
  - repeat constructor.
  - apply (perm_trans (l' := [0; 3; 1; 2]%float)).
    + change [3; 1; 2; 0]%float with ([3; 1; 2] ++ [0])%float%list.
      symmetry. apply (Permutation_cons_append [3; 1; 2]%float 0%float).
    + apply perm_skip.
      apply (perm_trans (l' := [2; 3; 1]%float)).
      * symmetry. apply (Permutation_cons_append [3; 1]%float 2%float).
      * apply perm_skip. apply perm_swap.
Defined.

(** C7 as stated fails: with a NaN among the numbers the sorted copy
    depends on where the NaN stood, and so does the median. *)
Lemma median_changes_with_nan :
  numbers (exec (parse "nan,1,2") new_analyzer) = [nan; 1; 2]%float
  /\ numbers (exec (parse "1,nan,2") new_analyzer) = [1; nan; 2]%float
  /\ Permutation [nan; 1; 2]%float [1; nan; 2]%float
  /\ eval calculateMedian (mkAnalyzer [nan; 1; 2]%float "") = 1%float
  /\ eval calculateMedian (mkAnalyzer [1; nan; 2]%float "") = nan
  /\ (1 =? nan)%float = false.
Proof.
  repeat split; try (vm_compute; reflexivity).
  apply perm_swap.
Qed.

(* ================================================================== *)
(** * Signs of the results of the arithmetic *)

Section RoundingFacts.

Import FloatOrder FloatOrderFacts.

Lemma shr_1_nonneg (mrs : shr_record) :
  (0 <= shr_m mrs)%Z -> (0 <= shr_m (shr_1 mrs))%Z.
Proof.
  destruct mrs as [m r s]. simpl.
  destruct m as [|p|p]; [| destruct p | ]; simpl; lia.
Qed.

Lemma iter_shr_1_nonneg (p : positive) :
  forall mrs, (0 <= shr_m mrs)%Z -> (0 <= shr_m (SpecFloat.iter_pos shr_1 p mrs))%Z.
Proof.
  induction p as [p IH|p IH|]; intros mrs H; simpl.
  - apply IH, IH, shr_1_nonneg, H.
  - apply IH, IH, H.
  - apply shr_1_nonneg, H.
Qed.

Lemma shr_fexp_nonneg (m e : Z) (l : location) :
  (0 <= m)%Z -> (0 <= shr_m (fst (shr_fexp prec emax m e l)))%Z.
Proof.
  intros H. unfold shr_fexp, shr.
  assert (H0 : (0 <= shr_m (shr_record_of_loc m l))%Z)
    by (destruct l as [|[| |]]; exact H).
  destruct (fexp prec emax (Zdigits2 m + e) - e)%Z; simpl; auto.
  now apply iter_shr_1_nonneg.
Qed.

Lemma round_nearest_even_nonneg (m : Z) (l : location) :
  (0 <= m)%Z -> (0 <= round_nearest_even m l)%Z.
Proof.
  intros H. destruct l as [|[| |]]; simpl; try lia.
  destruct (Z.even m); lia.
Qed.

(** Rounding keeps the sign it is given; it yields a NaN on no
    mantissa that is not negative. *)
Lemma binary_round_aux_signed (s : bool) (mx ex : Z) (lx : location) :
  (0 <= mx)%Z -> sf_signed s (binary_round_aux prec emax s mx ex lx).
Proof.
  intros H. unfold binary_round_aux.
  pose proof (shr_fexp_nonneg mx ex lx H) as H1.
  destruct (shr_fexp prec emax mx ex lx) as [mrs' e']. simpl in H1.
  pose proof (shr_fexp_nonneg
                (round_nearest_even (shr_m mrs') (loc_of_shr_record mrs'))
                e' loc_Exact
                (round_nearest_even_nonneg _ _ H1)) as H2.
  destruct (shr_fexp prec emax
              (round_nearest_even (shr_m mrs') (loc_of_shr_record mrs'))
              e' loc_Exact) as [mrs'' e'']. simpl in H2.
  destruct (shr_m mrs'') as [|m|m]; [reflexivity | | lia].
  destruct (e'' <=? emax - prec)%Z; reflexivity.
Qed.

Lemma binary_round_aux_signed_or_nan (s : bool) (mx ex : Z) (lx : location) :
  binary_round_aux prec emax s mx ex lx = S754_nan
  \/ sf_signed s (binary_round_aux prec emax s mx ex lx).
Proof.
  unfold binary_round_aux.
  destruct (shr_fexp prec emax mx ex lx) as [mrs' e'].
  destruct (shr_fexp prec emax
              (round_nearest_even (shr_m mrs') (loc_of_shr_record mrs'))
              e' loc_Exact) as [mrs'' e''].
  destruct (shr_m mrs'') as [|m|m]; [right; reflexivity | | now left].
  destruct (e'' <=? emax - prec)%Z; right; reflexivity.
Qed.

Lemma binary_round_signed (s : bool) (m : positive) (e : Z) :
  sf_signed s (binary_round prec emax s m e).
Proof.
  unfold binary_round.
  destruct (shl_align m e (fexp prec emax (Z.pos (digits2_pos m) + e)))
    as [mz ez].
  apply binary_round_aux_signed. lia.
Qed.

Lemma sf_signed_not_nan (s : bool) (x : spec_float) :
  sf_signed s x -> x <> S754_nan.
Proof. intros H E. subst x. exact H. Qed.

Lemma binary_normalize_not_nan (m e : Z) (szero : bool) :
  binary_normalize prec emax m e szero <> S754_nan.
Proof.
  destruct m as [|p|p]; simpl; [discriminate | |];
    eapply sf_signed_not_nan, binary_round_signed.
Qed.

(** ** The five operations *)

Lemma SFadd_finite_not_nan (a b : spec_float) :
  a <> S754_nan -> sf_finite b -> SF64add a b <> S754_nan.
Proof.
  intros Ha Hb. unfold SF64add, SFadd.
  destruct a as [sa|sa| |sa ma ea], b as [sb|sb| |sb mb eb];
    try contradiction; try congruence;
    repeat match goal with s : bool |- _ => destruct s end;
    try discriminate; apply binary_normalize_not_nan.
Qed.

Lemma SFsub_finite_not_nan (a b : spec_float) :
  sf_finite a -> b <> S754_nan -> SF64sub a b <> S754_nan.
Proof.
  intros Ha Hb. unfold SF64sub, SFsub.
  destruct a as [sa|sa| |sa ma ea], b as [sb|sb| |sb mb eb];
    try contradiction; try congruence;
    repeat match goal with s : bool |- _ => destruct s end;
    try discriminate; apply binary_normalize_not_nan.
Qed.

Lemma SFdiv_core_nonneg (m1 : positive) (e1 : Z) (m2 : positive) (e2 : Z) :
  (0 <= fst (fst (SFdiv_core_binary prec emax (Z.pos m1) e1 (Z.pos m2) e2)))%Z.
Proof.
  unfold SFdiv_core_binary.
  set (s := (e1 - e2 - _)%Z).
  set (m' := match s with
             | Z.pos _ => Z.shiftl (Z.pos m1) s
             | 0%Z => Z.pos m1
             | Z.neg _ => 0%Z
             end).
  assert (Hm : (0 <= m')%Z).
  { subst m'. destruct s; try lia. apply Z.shiftl_nonneg. lia. }
  pose proof (Z_div_mod m' (Z.pos m2) ltac:(lia)) as D.
  destruct (Z.div_eucl m' (Z.pos m2)) as [q r]. simpl. nia.
Qed.

Lemma SFdiv_positive_not_nan (a : spec_float) (m : positive) (e : Z) :
  a <> S754_nan -> SF64div a (S754_finite false m e) <> S754_nan.
Proof.
  intros Ha. unfold SF64div, SFdiv.
  destruct a as [sa|sa| |sa ma ea]; try congruence; try discriminate.
  pose proof (SFdiv_core_nonneg ma ea m e) as H.
  destruct (SFdiv_core_binary prec emax (Z.pos ma) ea (Z.pos m) e)
    as [[mz ez] lz]. simpl in H.
  eapply sf_signed_not_nan, binary_round_aux_signed, H.
Qed.

Lemma SFdiv_positive_signed (a : spec_float) (m : positive) (e : Z) :
  sf_signed false a -> sf_signed false (SF64div a (S754_finite false m e)).
Proof.
  intros Ha. unfold SF64div, SFdiv.
  destruct a as [sa|sa| |sa ma ea]; simpl in Ha; try contradiction;
    subst; simpl; try reflexivity.
  pose proof (SFdiv_core_nonneg ma ea m e) as H.
  destruct (SFdiv_core_binary prec emax (Z.pos ma) ea (Z.pos m) e)
    as [[mz ez] lz]. simpl in H.
  apply binary_round_aux_signed, H.
Qed.

Lemma SFmul_self_signed (a : spec_float) :
  a <> S754_nan -> sf_signed false (SF64mul a a).
Proof.
  intros Ha. unfold SF64mul, SFmul.
  destruct a as [sa|sa| |sa ma ea]; try congruence;
    try (destruct sa; reflexivity).
  replace (xorb sa sa) with false by (destruct sa; reflexivity).
  apply binary_round_aux_signed. lia.
Qed.

Lemma SFadd_signed (a b : spec_float) :
  sf_signed false a -> sf_signed false b -> sf_signed false (SF64add a b).
Proof.
  intros Ha Hb. unfold SF64add, SFadd.
  destruct a as [sa|sa| |sa ma ea], b as [sb|sb| |sb mb eb];
    simpl in Ha, Hb; try contradiction; subst; simpl; try reflexivity.
  apply binary_round_signed.
Qed.

Lemma SFsqrt_core_nonneg (m : positive) (e : Z) :
  (0 <= fst (fst (SFsqrt_core_binary prec emax (Z.pos m) e)))%Z.
Proof.
  unfold SFsqrt_core_binary.
  set (s := (e - 2 * _)%Z).
  set (m' := match s with
             | Z.pos _ => Z.shiftl (Z.pos m) s
             | 0%Z => Z.pos m
             | Z.neg _ => 0%Z
             end).
  assert (Hm : (0 <= m')%Z).
  { subst m'. destruct s; try lia. apply Z.shiftl_nonneg. lia. }
  pose proof (Z.sqrtrem_spec m' Hm) as D.
  destruct (Z.sqrtrem m') as [q r]. simpl. lia.
Qed.

Lemma SFsqrt_signed (a : spec_float) :
  sf_signed false a -> sf_signed false (SF64sqrt a).
Proof.
  intros Ha. unfold SF64sqrt, SFsqrt.
  destruct a as [sa|sa| |sa ma ea]; simpl in Ha; try contradiction;
    subst; simpl; try reflexivity.
  pose proof (SFsqrt_core_nonneg ma ea) as H.
  destruct (SFsqrt_core_binary prec emax (Z.pos ma) ea) as [[mz ez] lz].
  simpl in H. apply binary_round_aux_signed, H.
Qed.

(** A square root is a NaN, a zero, or has the sign bit clear. *)
Lemma SFsqrt_cases (a : spec_float) :
  SF64sqrt a = S754_nan
  \/ (exists s, SF64sqrt a = S754_zero s)
  \/ sf_signed false (SF64sqrt a).
Proof.
  unfold SF64sqrt, SFsqrt.
  destruct a as [sa|sa| |sa ma ea]; auto.
  - right; left; eauto.
  - destruct sa; [left | right; right]; reflexivity.
  - destruct sa; [left; reflexivity|].
    destruct (SFsqrt_core_binary prec emax (Z.pos ma) ea) as [[mz ez] lz].
    destruct (binary_round_aux_signed_or_nan false mz ez lz); auto.
Qed.

Lemma Prim2SF_zero : Prim2SF 0 = S754_zero false.
Proof. reflexivity. Qed.

Lemma leb_zero_signed (x : float) :
  sf_signed false (Prim2SF x) -> (0 <=? x)%float = true.
Proof.
  rewrite FloatAxioms.leb_spec, Prim2SF_zero.
  destruct (Prim2SF x) as [s|s| |s m e]; simpl; intros H;
    try contradiction; subst; reflexivity.
Qed.

Lemma sqrt_not_negative (x : float) :
  (sqrt x <? 0)%float = false
  /\ ((0 <=? sqrt x)%float = true \/ sqrt x = nan).
Proof.
  rewrite FloatAxioms.ltb_spec, FloatAxioms.leb_spec, Prim2SF_zero, sqrt_spec.
  destruct (SFsqrt_cases (Prim2SF x)) as [H|[[s H]|H]].
  - rewrite H. split; [reflexivity|]. right.
    apply Prim2SF_inj. now rewrite sqrt_spec, Prim2SF_nan.
  - rewrite H. split; [reflexivity | left; reflexivity].
  - destruct (SF64sqrt (Prim2SF x)) as [s|s| |s m e]; simpl in H;
      try contradiction; subst; split; auto.
Qed.

End RoundingFacts.

(* ================================================================== *)
(** * The count as a [double] *)

Section SizeFacts.

Lemma digits2_pos_size (p : positive) : digits2_pos p = Pos.size p.
Proof. induction p as [p IH|p IH|]; simpl; now rewrite ?IH. Qed.

Lemma digits2_pos_bound (p : positive) :
  (Z.pos p < 2 ^ 53)%Z -> (Z.pos (digits2_pos p) <= 53)%Z.
Proof.
  intros H. rewrite digits2_pos_size.
  destruct (Z.le_gt_cases (Z.pos (Pos.size p)) 53) as [L|L]; [exact L|].
  exfalso.
  pose proof (Pos.size_le p) as S.
  apply Pos2Z.pos_le_pos in S. rewrite Pos2Z.inj_pow in S.
  assert (M : (2 ^ 54 <= 2 ^ Z.pos (Pos.size p))%Z)
    by (apply Z.pow_le_mono_r; lia).
  change (Z.pos p~0) with (2 * Z.pos p)%Z in S.
  change (2 ^ 54)%Z with (2 * 2 ^ 53)%Z in M. lia.
Qed.

Lemma digits2_pos_iter (p k : positive) :
  digits2_pos (Pos.iter xO p k) = (digits2_pos p + k)%positive.
Proof.
  induction k as [|k IH] using Pos.peano_ind.
  - simpl. now rewrite Pos.add_1_r.
  - rewrite Pos.iter_succ. simpl. rewrite IH. lia.
Qed.

(** A mantissa of 53 bits with an exponent in range is kept as it is. *)
Lemma binary_round_aux_exact (s : bool) (mz : positive) (ez : Z) :
  digits2_pos mz = 53%positive -> (-1074 <= ez <= 971)%Z ->
  binary_round_aux prec emax s (Z.pos mz) ez loc_Exact = S754_finite s mz ez.
Proof.
  intros Hd He.
  assert (F : forall l, shr_fexp prec emax (Z.pos mz) ez l
                        = (shr_record_of_loc (Z.pos mz) l, ez)).
  { intros l. unfold shr_fexp. simpl Zdigits2. rewrite Hd.
    replace (fexp prec emax (53 + ez) - ez)%Z with 0%Z; [reflexivity|].
    unfold fexp, SpecFloat.emin, prec, emax. lia. }
  unfold binary_round_aux. rewrite F. cbn [shr_record_of_loc shr_m
    loc_of_shr_record round_nearest_even]. rewrite F.
  cbn [shr_record_of_loc shr_m].
  destruct (Z.leb_spec ez (emax - prec)); [reflexivity|].
  unfold emax, prec in *. lia.
Qed.

Lemma binary_round_small (s : bool) (p : positive) :
  (Z.pos p < 2 ^ 53)%Z ->
  exists m e, binary_round prec emax s p 0 = S754_finite s m e.
Proof.
  intros H. pose proof (digits2_pos_bound p H) as Hd.
  unfold binary_round.
  assert (Hf : fexp prec emax (Z.pos (digits2_pos p) + 0)
               = (Z.pos (digits2_pos p) - 53)%Z).
  { unfold fexp, SpecFloat.emin, prec, emax. lia. }
  rewrite Hf. unfold shl_align.
  destruct (Z.pos (digits2_pos p) - 53 - 0)%Z as [|k|k] eqn:E; [| lia |].
  - exists p, 0%Z. apply binary_round_aux_exact; [lia | lia].
  - exists (Pos.iter xO p k), (Z.pos (digits2_pos p) - 53)%Z.
    apply binary_round_aux_exact; [|lia].
    rewrite digits2_pos_iter. lia.
Qed.

Lemma double_of_size_finite (n : nat) :
  0 < n -> (Z.of_nat n < 2 ^ 53)%Z ->
  exists m e, Prim2SF (double_of_size n) = S754_finite false m e.
Proof.
  intros Hn Hb. unfold double_of_size.
  rewrite of_uint63_spec, Uint63.of_Z_spec.
  rewrite Z.mod_small
    by (split; [lia|]; apply Z.lt_trans with (2 ^ 53)%Z;
        [exact Hb | reflexivity]).
  destruct (Z.of_nat n) as [|p|p] eqn:E; [lia | | lia].
  simpl. now apply binary_round_small.
Qed.

End SizeFacts.

(* ================================================================== *)
(** * The standard deviation *)

Section StdDevFacts.

Import FloatOrder FloatOrderFacts.

Lemma Prim2SF_infinity : Prim2SF infinity = S754_infinity false.
Proof. reflexivity. Qed.

Lemma is_finite_spec (x : float) :
  is_finite x = true -> sf_finite (Prim2SF x).
Proof.
  unfold is_finite. rewrite negb_true_iff, orb_false_iff. intros [Hn Hi].
  apply is_nan_spec in Hn. unfold is_infinity in Hi.
  rewrite FloatAxioms.eqb_spec, abs_spec, Prim2SF_infinity in Hi.
  destruct (Prim2SF x) as [s|s| |s m e]; simpl; auto; try congruence.
  destruct s; discriminate Hi.
Qed.

Lemma calculateSum_eval (st : NumberAnalyzer) :
  eval calculateSum st
  = fold_left (fun sum num => sum + num)%float (numbers st) 0%float.
Proof. reflexivity. Qed.

Lemma calculateAverage_eval (st : NumberAnalyzer) :
  numbers st <> [] ->
  eval calculateAverage st
  = (eval calculateSum st / double_of_size (List.length (numbers st)))%float.
Proof.
  intros H. unfold calculateAverage.
  rewrite eval_bind_read_only by apply read_only_gets.
  change (eval (gets numbers) st) with (numbers st).
  destruct (numbers st) as [|x ns] eqn:E; [congruence|].
  rewrite eval_bind_read_only by apply calculateSum_read_only.
  reflexivity.
Qed.

Lemma calculateStdDev_eval (st : NumberAnalyzer) :
  eval calculateStdDev st =
  match numbers st with
  | [] => 0%float
  | _ =>
      let avg := eval calculateAverage st in
      sqrt (fold_left
              (fun acc num => let diff := num - avg in acc + diff * diff)
              (numbers st) 0
            / double_of_size (List.length (numbers st)))%float
  end.
Proof.
  unfold calculateStdDev.
  rewrite eval_bind_read_only by apply read_only_gets.
  change (eval (gets numbers) st) with (numbers st).
  destruct (numbers st) as [|x ns] eqn:E; [reflexivity|].
  rewrite eval_bind_read_only by apply calculateAverage_read_only.
  reflexivity.
Qed.

Lemma sum_not_nan (ns : list float) :
  Forall (fun x => sf_finite (Prim2SF x)) ns ->
  forall acc, Prim2SF acc <> S754_nan ->
  Prim2SF (fold_left (fun sum num => sum + num)%float ns acc) <> S754_nan.
Proof.
  induction 1 as [|x ns Hx Hns IH]; intros acc Ha; simpl; [exact Ha|].
  apply IH. rewrite add_spec. now apply SFadd_finite_not_nan.
Qed.

Lemma square_sum_signed (avg : float) (ns : list float) :
  Prim2SF avg <> S754_nan ->
  Forall (fun x => sf_finite (Prim2SF x)) ns ->
  forall acc, sf_signed false (Prim2SF acc) ->
  sf_signed false
    (Prim2SF (fold_left
                (fun acc num => let diff := num - avg in acc + diff * diff)%float
                ns acc)).
Proof.
  intros Havg. induction 1 as [|x ns Hx Hns IH]; intros acc Ha; simpl;
    [exact Ha|].
  apply IH. rewrite add_spec, mul_spec, sub_spec.
  apply SFadd_signed; [exact Ha|].
  apply SFmul_self_signed. now apply SFsub_finite_not_nan.
Qed.

(** Finite values give a standard deviation that is not a NaN and has the
    sign bit clear. *)
Lemma stddev_finite_signed (st : NumberAnalyzer) :
  Forall (fun x => is_finite x = true) (numbers st) ->
  (Z.of_nat (List.length (numbers st)) < 2 ^ 53)%Z ->
  sf_signed false (Prim2SF (eval calculateStdDev st)).
Proof.
  intros Hf Hb. rewrite calculateStdDev_eval.
  destruct (numbers st) as [|x ns] eqn:E; [reflexivity|].
  assert (Hne : numbers st <> []) by congruence.
  assert (Hfin : Forall (fun x => sf_finite (Prim2SF x)) (x :: ns)).
  { eapply Forall_impl; [|exact Hf]. intros a. apply is_finite_spec. }
  destruct (double_of_size_finite (List.length (x :: ns)))
    as (m & e & Hsize); [simpl; lia | exact Hb |].
  cbv zeta. rewrite sqrt_spec, div_spec, Hsize.
  apply SFsqrt_signed, SFdiv_positive_signed.
  apply square_sum_signed; [|exact Hfin | reflexivity].
  rewrite calculateAverage_eval, calculateSum_eval, E by assumption.
  rewrite div_spec, Hsize.
  apply SFdiv_positive_not_nan.
  apply sum_not_nan; [exact Hfin | discriminate].
Qed.

Lemma stddev_not_negative (st : NumberAnalyzer) :
  (eval calculateStdDev st <? 0)%float = false
  /\ ((0 <=? eval calculateStdDev st)%float = true
      \/ eval calculateStdDev st = nan).
Proof.
  rewrite calculateStdDev_eval.
  destruct (numbers st) as [|x ns]; [split; [|left]; reflexivity|].
  apply sqrt_not_negative.
Qed.

End StdDevFacts.

(** C5, as the code has it: the Variance line of the report shows the
    product of the standard deviation with itself, the value that the
    Standard Deviation line shows.  The standard deviation is never
    negative: it is [>= 0] or a NaN, and it is [>= 0] whenever every number
    is finite (and there are fewer than [2^53] of them). *)
Theorem variance_is_stddev_squared :
  forall (show_double : float -> string) (st : NumberAnalyzer),
    let sd := eval calculateStdDev st in
    eval (report_dispersion show_double) st
    = (ln "Dispersion Statistics:"
       ++ "  Standard Deviation: " ++ show_double sd ++ Chars.nl
       ++ "  Variance: " ++ show_double (sd * sd)%float
       ++ Chars.nl ++ Chars.nl)%string
    /\ (sd <? 0)%float = false
    /\ ((0 <=? sd)%float = true \/ sd = nan)
    /\ (Forall (fun x => is_finite x = true) (numbers st) ->
        (Z.of_nat (List.length (numbers st)) < 2 ^ 53)%Z ->
        (0 <=? sd)%float = true).
Proof.
  intros show_double st sd.
  split.
  { unfold report_dispersion.
    rewrite !eval_bind_read_only by apply calculateStdDev_read_only.
    reflexivity. }
  split; [apply stddev_not_negative|].
  split; [apply stddev_not_negative|].
  intros Hf Hb. apply leb_zero_signed. now apply stddev_finite_signed.
Qed.

Lemma variance_is_stddev_squared_witness :
  let st := mkAnalyzer [4; 8; 15; 16; 23; 42]%float "" in
  (0 <=? eval calculateStdDev st)%float = true.
Proof.
  apply (variance_is_stddev_squared (fun _ => "")
           (mkAnalyzer [4; 8; 15; 16; 23; 42]%float "")).
  - repeat constructor.
  - simpl. lia.
Defined.

(** C5 as stated fails: the tokens ["nan"] and ["inf"] are numbers for the
    parser, and the standard deviation of either one alone is a NaN, which
    is not [>= 0]. *)
Lemma stddev_of_nan_is_nan :
  numbers (exec (parse "nan") new_analyzer) = [nan]
  /\ eval calculateStdDev (mkAnalyzer [nan] "") = nan
  /\ numbers (exec (parse "inf") new_analyzer) = [infinity]
  /\ eval calculateStdDev (mkAnalyzer [infinity] "") = nan
  /\ (0 <=? nan)%float = false
  /\ exit_status (main (fun _ => "") ["number_analyzer"; "nan"]) = 0%Z.
Proof. repeat split; vm_compute; reflexivity. Qed.

(* ================================================================== *)
(** * The examples of the specification, evaluated *)

Example parse_three_numbers :
  parse "1,2,3" new_analyzer = (true, mkAnalyzer [1; 2; 3]%float "").
Proof. vm_compute. reflexivity. Qed.

Example parse_skips_a_bad_token :
  parse "1,abc,3" new_analyzer
  = (true, mkAnalyzer [1; 3]%float ("Invalid number: abc" ++ Chars.nl)%string).
Proof. vm_compute. reflexivity. Qed.

Example parse_trims_and_keeps_going :
  parse " 7 ,, 2.5e1x,1e999" new_analyzer
  = (true,
     mkAnalyzer [7; 25]%float
       ("Invalid number: " ++ Chars.nl
        ++ "Number out of range: 1e999" ++ Chars.nl)%string).
Proof. vm_compute. reflexivity. Qed.

Example stod_rounds_to_nearest :
  stod "0.1" = StodValue 0x1.999999999999ap-4%float
  /\ stod "1e23" = StodValue 0x1.52d02c7e14af6p+76%float
  /\ stod "-0" = StodValue (-0)%float
  /\ stod "1.7976931348623157e308" = StodValue 0x1.fffffffffffffp+1023%float
  /\ stod "1.7976931348623159e308" = StodOutOfRange
  /\ stod "2.2250738585072014e-308" = StodValue 0x1p-1022%float
  /\ stod "1e-320" = StodOutOfRange
  /\ stod "." = StodInvalidArgument
  /\ stod "+" = StodInvalidArgument.
Proof. repeat split; vm_compute; reflexivity. Qed.

Example six_numbers_statistics :
  let st := exec (parse "4,8,15,16,23,42") new_analyzer in
  eval getCount st = 6
  /\ eval calculateSum st = 108%float
  /\ eval calculateAverage st = 18%float
  /\ eval calculateMedian st = 15.5%float
  /\ min_element (numbers st) = 4%float
  /\ max_element (numbers st) = 42%float
  /\ (max_element (numbers st) - min_element (numbers st))%float = 38%float.
Proof. repeat split; vm_compute; reflexivity. Qed.

Example sign_analysis_example :
  sign_counts (numbers (exec (parse "-2,0,3,-5,7") new_analyzer))
  = (2, 2, 1)%Z.
Proof. vm_compute. reflexivity. Qed.

Example sort_with_a_nan :
  sort [3; nan; 1; 2]%float = [1; 3; nan; 2]%float
  /\ sort [nan; 3; 1; 2]%float = [nan; 1; 2; 3]%float.
Proof. split; vm_compute; reflexivity. Qed.

(* ================================================================== *)
(** * Further properties of the command line and of the parser *)

Section MainFacts.

Variable show_double : float -> string.

Lemma main_with_argument (prog input : string) (rest : list string) :
  main show_double (prog :: input :: rest) =
  let st := exec (parse input) new_analyzer in
  match numbers st with
  | [] => mkOutcome 1 "" ("Error parsing input: " ++ errors st)%string
  | _ => mkOutcome 0 (eval (generateReport show_double) st) ""
  end.
Proof.
  unfold main. rewrite exec_parse, parse_unfold. cbv zeta.
  destruct (numbers (parse_tokens (tokens input) new_analyzer)); reflexivity.
Qed.

End MainFacts.

(** [main] returns 0 or 1 and writes to one stream only: with status 0 the
    report, which starts with the two title lines, goes to [cout] and
    nothing to [cerr]; with status 1 a text that is not empty goes to
    [cerr] and nothing to [cout].  Without an argument the text is the
    usage line; arguments after the first one and the program name are
    not looked at. *)
Theorem main_writes_one_stream :
  forall (show_double : float -> string) (argv : list string),
    let out := main show_double argv in
    ((exit_status out = 0%Z /\ to_cerr out = ""
      /\ exists tail, to_cout out = (report_header ++ tail)%string)
     \/ (exit_status out = 1%Z /\ to_cout out = "" /\ to_cerr out <> ""))
    /\ main show_double [] = mkOutcome 1 "" usage
    /\ (forall prog, main show_double [prog] = mkOutcome 1 "" usage)
    /\ (forall prog prog' input rest,
           main show_double (prog :: input :: rest)
           = main show_double [prog'; input]).
Proof.
  intros show_double argv out.
  split; [|repeat split].
  subst out. destruct argv as [|prog [|input rest]];
    try (right; repeat split; discriminate).
  rewrite main_with_argument. cbv zeta.
  destruct (numbers (exec (parse input) new_analyzer)) as [|x ns] eqn:E.
  - right. repeat split. discriminate.
  - left. repeat split. cbn [to_cout].
    rewrite generateReport_text, E. eexists. reflexivity.
Qed.

(* ------------------------------------------------------------------ *)
(** ** Tokens and commas *)

Lemma tokens_from_nil (cur ss : string) :
  tokens_from cur ss = [] -> cur = EmptyString /\ ss = EmptyString.
Proof.
  revert cur; induction ss as [|c ss IH]; intros cur H; simpl in H.
  - destruct cur; [auto | discriminate].
  - destruct (Ascii.eqb c ","); [discriminate|].
    apply IH in H as [H _]. destruct cur; discriminate.
Qed.

Lemma comma_free_append (s t : string) :
  comma_free (s ++ t) = comma_free s && comma_free t.
Proof.
  induction s as [|c s IH]; simpl; [reflexivity|].
  rewrite IH. now rewrite andb_assoc.
Qed.

Lemma tokens_from_comma_free_all (ss cur : string) :
  comma_free cur = true ->
  Forall (fun tok => comma_free tok = true) (tokens_from cur ss).
Proof.
  revert cur; induction ss as [|c ss IH]; intros cur H; simpl.
  - destruct cur; repeat constructor. exact H.
  - destruct (Ascii.eqb c ",") eqn:E.
    + constructor; [exact H | now apply IH].
    + apply IH. rewrite comma_free_append, H. simpl. now rewrite E.
Qed.

Lemma join_commas_cons (tok : string) (toks : list string) :
  toks <> [] ->
  join_commas (tok :: toks) = (tok ++ String "," (join_commas toks))%string.
Proof. destruct toks; [congruence | reflexivity]. Qed.

Lemma tokens_from_join (ss cur : string) :
  join_commas (tokens_from cur ss) = (cur ++ ss)%string
  \/ (join_commas (tokens_from cur ss) ++ ",")%string = (cur ++ ss)%string.
Proof.
  revert cur; induction ss as [|c ss IH]; intros cur; simpl.
  - left. rewrite append_empty_r. now destruct cur.
  - destruct (Ascii.eqb_spec c ",") as [->|N].
    + destruct (tokens_from "" ss) as [|t l] eqn:E.
      * apply tokens_from_nil in E as [_ ->]. right. reflexivity.
      * rewrite join_commas_cons by discriminate.
        destruct (IH ""%string) as [H|H]; rewrite E in H; simpl in H.
        -- left. now rewrite <- H.
        -- right. rewrite <- H. now rewrite append_assoc.
    + specialize (IH (cur ++ String c "")%string).
      rewrite append_assoc in IH. exact IH.
Qed.

Lemma tokens_join (toks : list string) :
  Forall (fun tok => comma_free tok = true) toks ->
  last toks "x"%string <> ""%string ->
  tokens (join_commas toks) = toks.
Proof.
  induction 1 as [|tok toks Ht Hts IH]; intros Hl; [reflexivity|].
  destruct toks as [|tok' toks].
  - simpl in *. unfold tokens. rewrite tokens_from_last; auto.
  - rewrite join_commas_cons by discriminate.
    unfold tokens at 1. rewrite tokens_from_comma_free by assumption.
    simpl append. f_equal. apply IH. exact Hl.
Qed.

(** The loop of [parse] cuts the input at its commas and loses nothing but
    one comma at the very end: no token holds a comma, and the tokens
    joined by commas give the input back, or the input without its last
    character when this is a comma.  The other way round, tokens without
    commas, the last of them not empty, are the tokens of their join. *)
Theorem tokens_round_trip :
  (forall input : string,
      Forall (fun tok => comma_free tok = true) (tokens input)
      /\ (join_commas (tokens input) = input
          \/ (join_commas (tokens input) ++ ",")%string = input))
  /\ (forall toks : list string,
         Forall (fun tok => comma_free tok = true) toks ->
         last toks "x"%string <> ""%string ->
         tokens (join_commas toks) = toks).
Proof.
  split.
  - intros input. split.
    + now apply tokens_from_comma_free_all.
    + apply (tokens_from_join input ""%string).
  - exact tokens_join.
Qed.

Lemma tokens_round_trip_witness :
  tokens (join_commas ["1"; ""; " 2"]%string) = ["1"; ""; " 2"]%string.
Proof.
  apply (proj2 tokens_round_trip).
  - repeat constructor.
  - discriminate.
Defined.

(* ------------------------------------------------------------------ *)
(** ** What [parse] adds to the object *)

Lemma parse_tokens_app (toks toks' : list string) (st : NumberAnalyzer) :
  parse_tokens (toks ++ toks') st = parse_tokens toks' (parse_tokens toks st).
Proof. unfold parse_tokens. apply fold_left_app. Qed.

Lemma parse_tokens_spec (toks : list string) :
  forall st,
    parse_tokens toks st
    = mkAnalyzer (numbers st ++ flat_map token_values toks)
                 (errors st ++ messages toks)%string.
Proof.
  induction toks as [|tok toks IH]; intros st.
  - simpl. rewrite app_nil_r, append_empty_r. now destruct st.
  - change (parse_tokens (tok :: toks) st)
      with (parse_tokens toks (exec (parse_token tok) st)).
    rewrite IH, parse_token_cases.
    unfold token_values, token_message, messages. cbn [flat_map fold_right].
    unfold token_values, token_message.
    destruct (stod (trim tok)); cbn [numbers errors app]; f_equal;
      rewrite <- ?app_assoc, ?append_assoc; reflexivity.
Qed.

Lemma values_or_failure (toks : list string) :
  List.length toks
  = List.length (flat_map token_values toks)
    + List.length (filter token_fails toks).
Proof.
  induction toks as [|tok toks IH]; [reflexivity|].
  cbn [flat_map filter]. unfold token_values at 1, token_fails at 1.
  rewrite length_app.
  destruct (stod (trim tok)); cbn [List.length app]; lia.
Qed.

(** [parse] only appends: the numbers it leaves are the ones the object
    had, followed by the values of the tokens that convert, in the order of
    the input; the error text is the one the object had, followed by the
    messages of the other tokens, in the order of the input; every token
    gives one value or one message. *)
Theorem parse_keeps_input_order :
  forall (input : string) (st : NumberAnalyzer),
    let st' := exec (parse input) st in
    numbers st' = numbers st ++ flat_map token_values (tokens input)
    /\ errors st' = (errors st ++ messages (tokens input))%string
    /\ eval getCount st'
       + List.length (filter token_fails (tokens input))
       = eval getCount st + List.length (tokens input).
Proof.
  intros input st st'. subst st'.
  rewrite exec_parse, parse_tokens_spec. cbn [numbers errors].
  repeat split.
  unfold eval, getCount, gets. cbn [fst numbers].
  rewrite length_app, (values_or_failure (tokens input)). lia.
Qed.

Lemma tokens_from_then_comma (a b : string) :
  forall cur : string,
    (a = EmptyString -> cur <> EmptyString) ->
    (a <> EmptyString -> ends_without_comma a) ->
    tokens_from cur (a ++ String "," b) = tokens_from cur a ++ tokens b.
Proof.
  induction a as [|c a IH]; intros cur H0 H1.
  - simpl. destruct cur; [now contradiction H0 | reflexivity].
  - assert (Hc : ends_without_comma (String c a)) by (apply H1; discriminate).
    cbn [append tokens_from].
    destruct (Ascii.eqb_spec c ",") as [->|N].
    + cbn [app]. f_equal. apply IH.
      * intros ->. exfalso. apply Hc. reflexivity.
      * intros Ha. unfold ends_without_comma in *.
        destruct a; [congruence | exact Hc].
    + apply IH.
      * intros _. destruct cur; discriminate.
      * intros Ha. unfold ends_without_comma in *.
        destruct a; [congruence | exact Hc].
Qed.

(** Two calls of [parse] on one object add up: the second one goes on
    where the first one stopped, and when the first input ends with a
    character that is not a comma the result is that of one call on the
    two inputs joined by a comma.  [parse] returns [true] exactly when the
    object holds a number afterwards, so it returns [true] on any input
    once the object holds one. *)
Theorem parse_twice :
  forall (a b : string) (st : NumberAnalyzer),
    exec (parse b) (exec (parse a) st)
    = parse_tokens (tokens a ++ tokens b) st
    /\ (ends_without_comma a ->
        exec (parse (a ++ String "," b)) st
        = exec (parse b) (exec (parse a) st))
    /\ (eval (parse a) st = true <-> numbers (exec (parse a) st) <> [])
    /\ (numbers st <> [] -> eval (parse a) st = true).
Proof.
  intros a b st. rewrite !exec_parse.
  split; [now rewrite parse_tokens_app|].
  split.
  { intros H. rewrite <- parse_tokens_app. f_equal.
    unfold tokens. apply tokens_from_then_comma.
    - intros ->. contradiction H.
    - intros _. exact H. }
  unfold eval. rewrite parse_unfold. cbv zeta. cbn [fst].
  split.
  - destruct (numbers (parse_tokens (tokens a) st)); simpl;
      split; intros H; congruence.
  - intros H. rewrite parse_tokens_spec. cbn [numbers].
    destruct (numbers st) as [|x ns]; [congruence | reflexivity].
Qed.

Lemma parse_twice_witness :
  exec (parse ("1,x" ++ String "," "2,")) new_analyzer
  = exec (parse "2,") (exec (parse "1,x") new_analyzer)
  /\ eval (parse "oops") (mkAnalyzer [1%float] "") = true.
Proof.
  split.
  - apply (parse_twice "1,x" "2," new_analyzer).
    unfold ends_without_comma. simpl. discriminate.
  - apply (parse_twice "oops" "" (mkAnalyzer [1%float] "")).
    discriminate.
Defined.

(* ------------------------------------------------------------------ *)
(** ** Trimming *)

Section TrimFacts.

Local Open Scope string_scope.

Lemma find_first_all_space (s : string) (pos : nat) :
  all_space s = true -> find_first_not_of_from s Chars.trim_set pos = None.
Proof.
  revert pos; induction s as [|c s IH]; intros pos H; simpl in *; auto.
  apply andb_prop in H as [Hc Hs]. rewrite Hc. now apply IH.
Qed.

Lemma find_last_all_space (s : string) (pos : nat) :
  all_space s = true -> find_last_not_of_from s Chars.trim_set pos = None.
Proof.
  revert pos; induction s as [|c s IH]; intros pos H; simpl in *; auto.
  apply andb_prop in H as [Hc Hs]. rewrite IH by assumption. now rewrite Hc.
Qed.

Lemma find_first_after_space (w mid : string) (pos : nat) :
  all_space w = true -> not_space (first_char mid) ->
  find_first_not_of_from (w ++ mid) Chars.trim_set pos
  = Some (pos + String.length w).
Proof.
  revert pos; induction w as [|c w IH]; intros pos Hw Hm; simpl in *.
  - destruct mid as [|a m]; [contradiction|]. simpl in *.
    rewrite Hm. f_equal. lia.
  - apply andb_prop in Hw as [Hc Hw]. rewrite Hc, IH by assumption.
    f_equal. lia.
Qed.

Lemma find_last_before_space (mid w : string) :
  all_space w = true -> not_space (last_char mid) ->
  forall pos,
    find_last_not_of_from (mid ++ w) Chars.trim_set pos
    = Some (pos + String.length mid - 1).
Proof.
  intros Hw. induction mid as [|c mid IH]; intros Hm pos; [contradiction|].
  destruct mid as [|d mid].
  - simpl in *. rewrite find_last_all_space by assumption.
    rewrite Hm. f_equal. lia.
  - change ((String c (String d mid)) ++ w) with (String c (String d mid ++ w)).
    cbn [find_last_not_of_from]. rewrite IH by exact Hm.
    f_equal. simpl. lia.
Qed.

Lemma find_last_after_prefix (w t : string) (i : nat) :
  forall pos,
    find_last_not_of_from t Chars.trim_set (pos + String.length w) = Some i ->
    find_last_not_of_from (w ++ t) Chars.trim_set pos = Some i.
Proof.
  induction w as [|c w IH]; intros pos H; simpl in *.
  - now rewrite Nat.add_0_r in H.
  - rewrite (IH (S pos)); [reflexivity|].
    now replace (S pos + String.length w) with (pos + S (String.length w)) by lia.
Qed.

Lemma substring_skip (w t : string) (n : nat) :
  substring (String.length w) n (w ++ t) = substring 0 n t.
Proof. induction w as [|c w IH]; simpl; auto. Qed.

Lemma substring_prefix (m w : string) :
  substring 0 (String.length m) (m ++ w) = m.
Proof.
  induction m as [|c m IH]; simpl.
  - now destruct w.
  - now rewrite IH.
Qed.

Lemma trim_decomposed (w1 mid w2 : string) :
  all_space w1 = true -> all_space w2 = true ->
  not_space (first_char mid) -> not_space (last_char mid) ->
  trim (w1 ++ mid ++ w2) = mid.
Proof.
  intros H1 H2 Hf Hl. unfold trim, find_first_not_of, find_last_not_of.
  rewrite (find_first_after_space w1 (mid ++ w2) 0 H1)
    by (destruct mid; [contradiction | exact Hf]).
  rewrite (find_last_after_prefix w1 (mid ++ w2)
             (String.length w1 + String.length mid - 1) 0)
    by (rewrite find_last_before_space by assumption; f_equal; lia).
  simpl Nat.add.
  assert (L : 0 < String.length mid) by (destruct mid; [contradiction | simpl; lia]).
  replace (String.length w1 + String.length mid - 1 - String.length w1 + 1)
    with (String.length mid) by lia.
  now rewrite substring_skip, substring_prefix.
Qed.

Lemma last_char_append (a b : string) :
  b <> "" -> last_char (a ++ b) = last_char b.
Proof.
  intros Hb. induction a as [|c a IH]; [reflexivity|].
  simpl. rewrite IH. destruct (a ++ b) eqn:E; [|reflexivity].
  destruct a; simpl in E; [congruence | discriminate].
Qed.

Lemma decompose_spaces (s : string) :
  all_space s = false ->
  exists w1 mid w2,
    s = w1 ++ mid ++ w2
    /\ all_space w1 = true /\ all_space w2 = true
    /\ not_space (first_char mid) /\ not_space (last_char mid).
Proof.
  induction s as [|c s IH]; intros H; [discriminate|].
  cbn [all_space] in H.
  destruct (Chars.mem c Chars.trim_set) eqn:Hc; cbn [andb] in H.
  - destruct (IH H) as (w1 & mid & w2 & E & H1 & H2 & Hf & Hl).
    exists (String c w1), mid, w2. rewrite E.
    cbn [all_space append]. rewrite Hc, H1. auto.
  - destruct (all_space s) eqn:Hs.
    + exists "", (String c ""), s.
      cbn [all_space append first_char last_char not_space]. auto.
    + destruct (IH eq_refl) as (w1 & mid & w2 & E & H1 & H2 & Hf & Hl).
      exists "", (String c (w1 ++ mid)), w2. rewrite E.
      cbn [all_space append first_char not_space].
      rewrite append_assoc. repeat split; auto.
      assert (Nm : mid <> "") by (destruct mid; [contradiction | discriminate]).
      pose proof (last_char_append w1 mid Nm) as L.
      destruct (w1 ++ mid) as [|a s0] eqn:E'.
      * destruct w1; simpl in E'; [congruence | discriminate].
      * change (last_char (String c (String a s0)))
          with (last_char (String a s0)).
        rewrite L. exact Hl.
Qed.

End TrimFacts.

(** Lines 31-36: a token made of white space only (the empty one too) is
    left as it is; any other token is cut to the stretch from its first to
    its last character that is not white space, so what is left starts
    and ends with such a character and only white space is dropped.
    Trimming twice is trimming once. *)
Theorem trim_spec :
  forall tok : string,
    (all_space tok = true -> trim tok = tok)
    /\ (all_space tok = false ->
        not_space (first_char (trim tok))
        /\ not_space (last_char (trim tok))
        /\ exists w1 w2,
            all_space w1 = true /\ all_space w2 = true
            /\ tok = (w1 ++ trim tok ++ w2)%string)
    /\ trim (trim tok) = trim tok.
Proof.
  intros tok.
  assert (A : all_space tok = true -> trim tok = tok).
  { intros H. unfold trim, find_first_not_of.
    now rewrite find_first_all_space. }
  assert (B : all_space tok = false ->
              exists w1 w2,
                all_space w1 = true /\ all_space w2 = true
                /\ tok = (w1 ++ trim tok ++ w2)%string
                /\ not_space (first_char (trim tok))
                /\ not_space (last_char (trim tok))).
  { intros H.
    destruct (decompose_spaces tok H) as (w1 & mid & w2 & E & H1 & H2 & Hf & Hl).
    exists w1, w2. rewrite E at 2 3 4.
    rewrite (trim_decomposed w1 mid w2) by assumption. auto. }
  split; [exact A|]. split.
  - intros H. destruct (B H) as (w1 & w2 & H1 & H2 & E & Hf & Hl). eauto 8.
  - destruct (all_space tok) eqn:H.
    + now rewrite !A.
    + destruct (B eq_refl) as (w1 & w2 & H1 & H2 & E & Hf & Hl).
      pose proof (trim_decomposed ""%string (trim tok) ""%string
                    eq_refl eq_refl Hf Hl) as T.
      cbn [append] in T. now rewrite append_empty_r in T.
Qed.

Lemma trim_spec_witness :
  trim (String Chars.TAB " ") = String Chars.TAB " "
  /\ not_space (first_char (trim " 1 2  ")).
Proof.
  split.
  - apply (proj1 (trim_spec (String Chars.TAB " "))). reflexivity.
  - apply (proj1 (proj2 (trim_spec " 1 2  "))). reflexivity.
Defined.

(* ================================================================== *)
(** * Further properties of the statistics *)

Section RangeFacts.

Import FloatOrder FloatOrderFacts.

Lemma ltb_nan_l (x : float) : (nan <? x)%float = false.
Proof. rewrite FloatAxioms.ltb_spec, Prim2SF_nan. reflexivity. Qed.

Lemma ltb_nan_r (x : float) : (x <? nan)%float = false.
Proof.
  rewrite FloatAxioms.ltb_spec, Prim2SF_nan.
  now destruct (Prim2SF x).
Qed.

Lemma kle_refl (x : float) : kle x x.
Proof. apply key_le_refl. Qed.

Lemma kle_trans (x y z : float) : kle x y -> kle y z -> kle x z.
Proof. apply key_le_trans. Qed.

(** The two loops of [std::min_element] and [std::max_element]. *)
Lemma min_fold_in (v : list float) :
  forall x,
    In (fold_left (fun smallest y => if (y <? smallest)%float then y else smallest)
                  v x) (x :: v).
Proof.
  induction v as [|y v IH]; intros x; [now left|].
  cbn [fold_left]. destruct (y <? x)%float.
  - right. apply IH.
  - destruct (IH x) as [H|H]; [now left | right; now right].
Qed.

Lemma max_fold_in (v : list float) :
  forall x,
    In (fold_left (fun largest y => if (largest <? y)%float then y else largest)
                  v x) (x :: v).
Proof.
  induction v as [|y v IH]; intros x; [now left|].
  cbn [fold_left]. destruct (x <? y)%float.
  - right. apply IH.
  - destruct (IH x) as [H|H]; [now left | right; now right].
Qed.

Lemma min_fold_from_nan (v : list float) :
  fold_left (fun smallest y => if (y <? smallest)%float then y else smallest)
            v nan = nan.
Proof.
  induction v as [|y v IH]; [reflexivity|].
  cbn [fold_left]. now rewrite ltb_nan_r.
Qed.

Lemma max_fold_from_nan (v : list float) :
  fold_left (fun largest y => if (largest <? y)%float then y else largest)
            v nan = nan.
Proof.
  induction v as [|y v IH]; [reflexivity|].
  cbn [fold_left]. now rewrite ltb_nan_l.
Qed.

Lemma min_fold_skips_nan (v : list float) :
  forall x,
    fold_left (fun smallest y => if (y <? smallest)%float then y else smallest)
              v x
    = fold_left (fun smallest y => if (y <? smallest)%float then y else smallest)
                (filter (fun y => negb (is_nan y)) v) x.
Proof.
  induction v as [|y v IH]; intros x; [reflexivity|].
  cbn [fold_left filter]. destruct (is_nan y) eqn:N; cbn [negb].
  - apply is_nan_true in N. subst y. rewrite ltb_nan_l. apply IH.
  - cbn [fold_left]. apply IH.
Qed.

Lemma max_fold_skips_nan (v : list float) :
  forall x,
    fold_left (fun largest y => if (largest <? y)%float then y else largest)
              v x
    = fold_left (fun largest y => if (largest <? y)%float then y else largest)
                (filter (fun y => negb (is_nan y)) v) x.
Proof.
  induction v as [|y v IH]; intros x; [reflexivity|].
  cbn [fold_left filter]. destruct (is_nan y) eqn:N; cbn [negb].
  - apply is_nan_true in N. subst y. rewrite ltb_nan_r. apply IH.
  - cbn [fold_left]. apply IH.
Qed.

Lemma min_fold_least (v : list float) :
  no_nan v ->
  forall x,
    is_nan x = false ->
    let m := fold_left
               (fun smallest y => if (y <? smallest)%float then y else smallest)
               v x in
    is_nan m = false /\ kle m x /\ Forall (kle m) v.
Proof.
  induction 1 as [|y v Hy Hv IH]; intros x Hx; cbn [fold_left].
  - repeat split; [assumption | apply kle_refl | constructor].
  - destruct (y <? x)%float eqn:E.
    + destruct (IH y Hy) as (Hm & Hmy & Hall).
      repeat split; auto.
      eapply kle_trans; [exact Hmy|]. now apply ltb_true_kle.
    + destruct (IH x Hx) as (Hm & Hmx & Hall).
      repeat split; auto. constructor; [|assumption].
      eapply kle_trans; [exact Hmx|]. now apply ltb_false_kle.
Qed.

Lemma max_fold_greatest (v : list float) :
  no_nan v ->
  forall x,
    is_nan x = false ->
    let m := fold_left
               (fun largest y => if (largest <? y)%float then y else largest)
               v x in
    is_nan m = false /\ kle x m /\ Forall (fun y => kle y m) v.
Proof.
  induction 1 as [|y v Hy Hv IH]; intros x Hx; cbn [fold_left].
  - repeat split; [assumption | apply kle_refl | constructor].
  - destruct (x <? y)%float eqn:E.
    + destruct (IH y Hy) as (Hm & Hmy & Hall).
      repeat split; auto.
      eapply kle_trans; [|exact Hmy]. now apply ltb_true_kle.
    + destruct (IH x Hx) as (Hm & Hmx & Hall).
      repeat split; auto. constructor; [|assumption].
      eapply kle_trans; [|exact Hmx]. now apply ltb_false_kle.
Qed.

Lemma no_nan_filter (v : list float) :
  no_nan (filter (fun y => negb (is_nan y)) v).
Proof.
  unfold no_nan. apply Forall_forall. intros y Hy.
  apply filter_In in Hy as [_ Hy]. now destruct (is_nan y).
Qed.

(** Bounds of the minimum and of the maximum when the first element is
    not a NaN: every element that is not a NaN lies between them. *)
Lemma min_max_enclose (x : float) (v : list float) :
  is_nan x = false ->
  is_nan (min_element (x :: v)) = false
  /\ is_nan (max_element (x :: v)) = false
  /\ forall y, In y (x :: v) -> is_nan y = false ->
               fle (min_element (x :: v)) y /\ fle y (max_element (x :: v)).
Proof.
  intros Hx. unfold min_element, max_element.
  rewrite min_fold_skips_nan, max_fold_skips_nan.
  destruct (min_fold_least _ (no_nan_filter v) x Hx) as (Hm & Hmx & Hmin).
  destruct (max_fold_greatest _ (no_nan_filter v) x Hx) as (HM & HMx & Hmax).
  cbv zeta in *. repeat split; auto.
  - destruct H as [<-|H]; [now apply leb_key|].
    rewrite Forall_forall in Hmin. apply leb_key; auto.
    apply Hmin. apply filter_In. split; [assumption|]. now rewrite H0.
  - destruct H as [<-|H]; [now apply leb_key|].
    rewrite Forall_forall in Hmax. apply leb_key; auto.
    apply Hmax. apply filter_In. split; [assumption|]. now rewrite H0.
Qed.

End RangeFacts.

(** Lines 181-182: the minimum and the maximum are elements of the
    vector.  When the first number is a NaN both are NaN, whatever
    follows.  When it is not, a NaN further on is passed over, neither is a
    NaN, and every number that is not a NaN lies between them. *)
Theorem min_max_bounds :
  forall (x : float) (v : list float),
    In (min_element (x :: v)) (x :: v)
    /\ In (max_element (x :: v)) (x :: v)
    /\ (is_nan x = true ->
        min_element (x :: v) = nan /\ max_element (x :: v) = nan)
    /\ (is_nan x = false ->
        is_nan (min_element (x :: v)) = false
        /\ is_nan (max_element (x :: v)) = false
        /\ forall y, In y (x :: v) -> is_nan y = false ->
                     fle (min_element (x :: v)) y
                     /\ fle y (max_element (x :: v))).
Proof.
  intros x v.
  split; [apply min_fold_in|]. split; [apply max_fold_in|].
  split.
  - intros H. apply FloatOrderFacts.is_nan_true in H. subst x.
    split; [apply min_fold_from_nan | apply max_fold_from_nan].
  - apply min_max_enclose.
Qed.

Lemma min_max_bounds_witness :
  fle (min_element [3; nan; -1; 2]%float) 2%float
  /\ min_element [nan; 1; 2]%float = nan.
Proof.
  split.
  - apply (proj2 (proj2 (proj2 (min_max_bounds 3%float [nan; -1; 2]%float)))).
    + reflexivity.
    + simpl. auto.
    + reflexivity.
  - apply (proj1 (proj2 (proj2 (min_max_bounds nan [1; 2]%float)))).
    reflexivity.
Defined.

(* ------------------------------------------------------------------ *)
(** ** Order statistics are values of the vector *)

Section MemberFacts.

Import FloatOrder FloatOrderFacts.

Lemma runs_nonempty (v : list float) : Forall (fun r => r <> []) (runs v).
Proof.
  induction v as [|x v IH]; [constructor|].
  destruct v as [|y v]; [repeat constructor; discriminate|].
  destruct (runs_head y v) as (r & rs & E).
  rewrite (runs_cons x y v r rs E). rewrite E in IH.
  inversion IH; subst.
  destruct (y =? x)%float; repeat constructor; auto; discriminate.
Qed.

Lemma last_In (r : list float) (d : float) : r <> [] -> In (last r d) r.
Proof.
  induction r as [|x r IH]; intros H; [congruence|].
  destruct r as [|y r]; [now left|].
  right. apply IH. discriminate.
Qed.

(** The run that [first_longest] keeps is one of the runs. *)
Lemma first_longest_In (rs : list (list float)) :
  rs <> [] -> In (first_longest rs) rs.
Proof.
  destruct rs as [|r0 rs]; intros H; [congruence|].
  unfold first_longest.
  destruct (fold_longer_run_split rs r0) as (pre & post & E & _ & _).
  rewrite E. apply in_elt.
Qed.

Lemma spec_mode_In (s : list float) : s <> [] -> In (spec_mode s) s.
Proof.
  intros H. unfold spec_mode.
  assert (Hr : runs s <> []).
  { destruct s as [|x s]; [congruence|].
    destruct (runs_head x s) as (r & rs & E). rewrite E. discriminate. }
  pose proof (first_longest_In (runs s) Hr) as Hin.
  pose proof (runs_nonempty s) as Hne. rewrite Forall_forall in Hne.
  rewrite <- (runs_concat s) at 2.
  apply in_concat. exists (first_longest (runs s)). split; [assumption|].
  apply last_In. now apply Hne.
Qed.

Lemma at_sort_In (v : list float) (i : nat) :
  i < List.length v -> In (at_ (sort v) i) v.
Proof.
  intros H. eapply Permutation_in; [apply sort_perm|].
  apply nth_In. now rewrite sort_length.
Qed.

Lemma sorted_nth_kle (s : list float) :
  StronglySorted kle s ->
  forall i j, i <= j -> j < List.length s -> kle (at_ s i) (at_ s j).
Proof.
  induction 1 as [|x s Hs IH Hx]; intros i j Hij Hj; [simpl in Hj; lia|].
  destruct i as [|i], j as [|j]; try lia.
  - apply kle_refl.
  - unfold at_. cbn [nth]. rewrite Forall_forall in Hx. apply Hx.
    apply nth_In. simpl in Hj. lia.
  - unfold at_ in *. cbn [nth]. apply IH; [lia | simpl in Hj; lia].
Qed.

Lemma at_sort_fle (v : list float) (i j : nat) :
  no_nan v -> i <= j -> j < List.length v ->
  fle (at_ (sort v) i) (at_ (sort v) j).
Proof.
  intros Hn Hij Hj. unfold no_nan in Hn. rewrite Forall_forall in Hn.
  unfold fle. apply leb_key.
  - apply Hn, at_sort_In. lia.
  - apply Hn, at_sort_In. lia.
  - apply sorted_nth_kle; [| assumption | now rewrite sort_length].
    apply sort_sorted_kle. unfold no_nan. now rewrite Forall_forall.
Qed.

End MemberFacts.

(** The mode, the three quartiles of four numbers or more and the median
    of an odd count of numbers are numbers of the vector; the median of an
    even count is half the sum of two of them.  No index of lines 81, 83,
    113 and 148 leaves the sorted copy. *)
Theorem order_statistics_are_members :
  forall st : NumberAnalyzer,
    numbers st <> [] ->
    let v := numbers st in
    let n := List.length v in
    In (eval findMode st) v
    /\ (n mod 2 = 1 -> In (eval calculateMedian st) v)
    /\ (n mod 2 = 0 ->
        exists a b, In a v /\ In b v
                    /\ eval calculateMedian st = ((a + b) / 2)%float)
    /\ (4 <= n -> Forall (fun q => In q v) (eval calculateQuartiles st)).
Proof.
  intros st H v n.
  assert (L : 0 < n) by (subst n v; destruct (numbers st); [congruence | simpl; lia]).
  split.
  { rewrite findMode_eval by assumption.
    eapply Permutation_in; [apply sort_perm|].
    apply spec_mode_In. now apply sort_nonempty. }
  rewrite calculateMedian_eval by assumption.
  unfold median_of_sorted. cbv zeta. rewrite sort_length. fold v n.
  split.
  { intros Hodd. rewrite Hodd. cbn [Nat.eqb].
    apply at_sort_In. apply Nat.div_lt; lia. }
  split.
  { intros Heven. rewrite Heven. cbn [Nat.eqb].
    assert (n / 2 < n) by (apply Nat.div_lt; lia).
    exists (at_ (sort v) (n / 2 - 1)), (at_ (sort v) (n / 2)).
    repeat split; auto; apply at_sort_In; fold n; lia. }
  intros H4. rewrite calculateQuartiles_eval. cbv zeta. fold v n.
  assert (F : (n <? 4)%nat = false) by (apply Nat.ltb_ge; lia).
  rewrite F.
  repeat constructor; apply at_sort_In; fold n;
    apply Nat.Div0.div_lt_upper_bound; lia.
Qed.

Lemma order_statistics_are_members_witness :
  let st := mkAnalyzer [5; 1; 5; 2; 9]%float "" in
  In (eval findMode st) (numbers st)
  /\ In (eval calculateMedian st) (numbers st).
Proof.
  pose proof (order_statistics_are_members
                (mkAnalyzer [5; 1; 5; 2; 9]%float "")) as H.
  cbv zeta in H. destruct H as (Hm & Hodd & _); [simpl; discriminate|].
  split; [exact Hm | apply Hodd; reflexivity].
Defined.

(** On numbers without NaN the five-number summary is in order: each
    quartile of four numbers or more lies between the minimum and the
    maximum, and [Q1 <= Q2 <= Q3]. *)
Theorem quartiles_in_order :
  forall st : NumberAnalyzer,
    no_nan (numbers st) -> 4 <= List.length (numbers st) ->
    exists q1 q2 q3,
      eval calculateQuartiles st = [q1; q2; q3]
      /\ fle (min_element (numbers st)) q1
      /\ fle q1 q2 /\ fle q2 q3
      /\ fle q3 (max_element (numbers st)).
Proof.
  intros st Hn H4.
  rewrite calculateQuartiles_eval. cbv zeta.
  set (v := numbers st) in *. set (n := List.length v) in *.
  assert (F : (n <? 4)%nat = false) by (apply Nat.ltb_ge; lia).
  rewrite F. do 3 eexists. split; [reflexivity|].
  pose proof (Nat.div_mod_eq n 4) as D4.
  pose proof (Nat.mod_upper_bound n 4 ltac:(lia)) as M4.
  pose proof (Nat.div_mod_eq n 2) as D2.
  pose proof (Nat.mod_upper_bound n 2 ltac:(lia)) as M2.
  pose proof (Nat.div_mod_eq (3 * n) 4) as D3.
  pose proof (Nat.mod_upper_bound (3 * n) 4 ltac:(lia)) as M3.
  assert (B1 : n / 4 <= n / 2) by lia.
  assert (B2 : n / 2 <= 3 * n / 4) by lia.
  assert (B3 : 3 * n / 4 < n) by lia.
  assert (Hq1 : In (at_ (sort v) (n / 4)) v) by (apply at_sort_In; fold n; lia).
  assert (Hq3 : In (at_ (sort v) (3 * n / 4)) v) by (apply at_sort_In; fold n; lia).
  pose proof Hn as Hall. unfold no_nan in Hall. rewrite Forall_forall in Hall.
  destruct v as [|x v'] eqn:Ev; [simpl in n; lia|].
  destruct (min_max_enclose x v') as (_ & _ & Hb).
  { apply Hall. now left. }
  repeat split.
  - apply Hb; auto.
  - apply at_sort_fle; auto; fold n; lia.
  - apply at_sort_fle; auto; fold n; lia.
  - apply Hb; auto.
Qed.

Lemma quartiles_in_order_witness :
  exists q1 q2 q3,
    eval calculateQuartiles (mkAnalyzer [7; 1; 5; 3; 9]%float "") = [q1; q2; q3]
    /\ fle q1 q2 /\ fle q2 q3.
Proof.
  destruct (quartiles_in_order (mkAnalyzer [7; 1; 5; 3; 9]%float ""))
    as (q1 & q2 & q3 & E & _ & H12 & H23 & _).
  - repeat constructor.
  - simpl. lia.
  - exists q1, q2, q3. auto.
Defined.

(* ------------------------------------------------------------------ *)
(** ** The mode is a most frequent value *)

Section FrequencyFacts.

Import FloatOrder FloatOrderFacts.

Lemma StronglySorted_app_inv {A : Type} (R : A -> A -> Prop) (l1 l2 : list A) :
  StronglySorted R (l1 ++ l2) ->
  StronglySorted R l1 /\ StronglySorted R l2
  /\ forall a b, In a l1 -> In b l2 -> R a b.
Proof.
  induction l1 as [|x l1 IH]; intros H; simpl in *.
  - repeat split; [constructor | assumption | intros a b []].
  - apply StronglySorted_inv in H as [H Hx].
    destruct (IH H) as (H1 & H2 & H12).
    apply Forall_app in Hx as [Hx1 Hx2].
    repeat split; [now constructor | assumption |].
    intros a b [<-|Ha] Hb; [|now apply H12].
    rewrite Forall_forall in Hx2. now apply Hx2.
Qed.

Lemma filter_all {A : Type} (f : A -> bool) (l : list A) :
  (forall a, In a l -> f a = true) -> filter f l = l.
Proof.
  induction l as [|a l IH]; intros H; simpl; [reflexivity|].
  rewrite (H a) by now left. f_equal. apply IH. intros b Hb. apply H. now right.
Qed.

Lemma filter_none {A : Type} (f : A -> bool) (l : list A) :
  (forall a, In a l -> f a = false) -> filter f l = [].
Proof.
  induction l as [|a l IH]; intros H; simpl; [reflexivity|].
  rewrite (H a) by now left. apply IH. intros b Hb. apply H. now right.
Qed.

Lemma filter_length_perm {A : Type} (f : A -> bool) (l l' : list A) :
  Permutation l l' -> List.length (filter f l) = List.length (filter f l').
Proof.
  induction 1 as [|a l l' P IH|a b l|l l' l'' P1 IH1 P2 IH2]; simpl.
  - reflexivity.
  - destruct (f a); simpl; now rewrite IH.
  - destruct (f a), (f b); reflexivity.
  - now rewrite IH1.
Qed.

Lemma count_eq_perm (x : float) (v w : list float) :
  Permutation v w -> count_eq x v = count_eq x w.
Proof. apply filter_length_perm. Qed.

Lemma eqb_of_key (x y : float) :
  is_nan x = false -> is_nan y = false -> fkey x = fkey y ->
  (x =? y)%float = true.
Proof. intros Hx Hy K. now apply eqb_key. Qed.

Lemma eqb_of_key_lt (x y : float) :
  is_nan x = false -> is_nan y = false ->
  key_lt (fkey x) (fkey y) \/ key_lt (fkey y) (fkey x) ->
  (x =? y)%float = false.
Proof.
  intros Hx Hy K. destruct (x =? y)%float eqn:E; [|reflexivity].
  apply eqb_key in E; auto. rewrite E in K.
  destruct K as [K|K]; exfalso; eapply key_lt_irrefl; eauto.
Qed.

(** In a run without NaN all the keys are the same. *)
Lemma chain_same_key (r : list float) :
  chain r -> no_nan r ->
  forall a b, In a r -> In b r -> fkey a = fkey b.
Proof.
  intros Hc Hn.
  assert (K : forall a, In a r -> fkey a = fkey (last r 0%float)).
  { pose proof (chain_all_equal r Hc) as H. rewrite Forall_forall in H.
    intros a Ha. destruct (H a Ha) as [E|E]; [now rewrite <- E|].
    destruct (eqb_true_not_nan _ _ E) as [N1 N2]. now apply eqb_key. }
  intros a b Ha Hb. now rewrite (K a Ha), (K b Hb).
Qed.

Lemma good_runs_tail (r : list float) (rs : list (list float)) :
  good_runs (r :: rs) -> good_runs rs.
Proof.
  intros (Hc & Hne & Hsep & Hs & Hn). unfold good_runs.
  inversion Hc; inversion Hne; subst. simpl in Hs, Hn.
  apply StronglySorted_app_inv in Hs as (_ & Hs & _).
  unfold no_nan in Hn. apply Forall_app in Hn as [_ Hn].
  repeat split; auto.
  destruct rs as [|r2 rs]; [exact I | exact (proj2 Hsep)].
Qed.

Lemma good_runs_head (r : list float) (rs : list (list float)) :
  good_runs (r :: rs) ->
  chain r /\ no_nan r
  /\ forall x y, In x r -> In y (List.concat rs) -> kle x y.
Proof.
  intros (Hc & Hne & Hsep & Hs & Hn).
  inversion Hc; subst. simpl in Hs, Hn.
  apply StronglySorted_app_inv in Hs as (_ & _ & H12).
  unfold no_nan in *. apply Forall_app in Hn as [Hn _]. auto.
Qed.

(** A later run holds greater values only. *)
Lemma runs_increase (r : list float) (rs : list (list float)) :
  good_runs (r :: rs) ->
  forall x y, In x r -> In y (List.concat rs) ->
              key_lt (fkey x) (fkey y).
Proof.
  intros G x y Hx Hy.
  destruct (good_runs_head r rs G) as (Hc & Hn & H12).
  destruct G as (_ & Hne & Hsep & Hs & Hall).
  destruct rs as [|r2 rs]; [contradiction|].
  inversion Hne as [|? ? Hr Hne']; subst. inversion Hne' as [|? ? Hr2 _]; subst.
  destruct r2 as [|h r2]; [congruence|].
  destruct Hsep as [Hsep _]. cbn [hd] in Hsep.
  assert (Hl : In (last r 0%float) r) by now apply last_In.
  assert (Hh : In h (List.concat ((h :: r2) :: rs))) by (simpl; now left).
  unfold no_nan in Hall. rewrite Forall_forall in Hall.
  assert (Nl : is_nan (last r 0%float) = false)
    by (apply Hall; simpl; apply in_or_app; now left).
  assert (Nh : is_nan h = false)
    by (apply Hall; simpl; apply in_or_app; right; now left).
  assert (K1 : key_lt (fkey (last r 0%float)) (fkey h)).
  { destruct (H12 _ _ Hl Hh) as [K|K]; [exact K|].
    exfalso. apply eqb_key in K; auto.
    assert (E : (h =? last r 0%float)%float = true).
    { apply eqb_key; auto. symmetry. now apply eqb_key. }
    congruence. }
  assert (K2 : key_le (fkey h) (fkey y)).
  { simpl in Hs. apply StronglySorted_app_inv in Hs as (_ & Hs & _).
    simpl in Hs. apply StronglySorted_inv in Hs as [_ Hs].
    simpl in Hy. destruct Hy as [<-|Hy]; [apply key_le_refl|].
    rewrite Forall_forall in Hs. now apply Hs. }
  rewrite (chain_same_key r Hc Hn x (last r 0%float) Hx Hl).
  destruct K2 as [K2|K2]; [eapply key_lt_trans; eauto | now rewrite <- K2].
Qed.

(** In a sorted vector without NaN a run holds every element that
    compares equal to its value. *)
Lemma run_holds_all_equal (pre : list (list float)) :
  forall (r : list float) (post : list (list float)) (x : float),
    good_runs (pre ++ r :: post) -> In x r ->
    filter (fun y => (y =? x)%float) (List.concat (pre ++ r :: post)) = r.
Proof.
  induction pre as [|p pre IH]; intros r post x G Hx.
  - destruct (good_runs_head r post G) as (Hc & Hn & _).
    pose proof (runs_increase r post G) as Hinc.
    destruct G as (_ & _ & _ & _ & Hall).
    unfold no_nan in Hall, Hn. rewrite Forall_forall in Hall, Hn.
    simpl. rewrite filter_app.
    rewrite (filter_all _ r), (filter_none _ (List.concat post)).
    + apply app_nil_r.
    + intros y Hy. apply eqb_of_key_lt.
      * apply Hall. simpl. apply in_or_app. now right.
      * now apply Hn.
      * right. now apply Hinc.
    + intros y Hy. apply eqb_of_key; auto.
      now apply (chain_same_key r Hc); auto; apply Forall_forall.
  - pose proof (runs_increase p (pre ++ r :: post) G) as Hinc.
    destruct (good_runs_head p _ G) as (_ & Hnp & _).
    pose proof (good_runs_tail _ _ G) as G'.
    assert (Hxc : In x (List.concat (pre ++ r :: post))).
    { apply in_concat. exists r. split; [apply in_elt | assumption]. }
    destruct G as (_ & _ & _ & _ & Hall).
    unfold no_nan in Hall, Hnp. rewrite Forall_forall in Hall, Hnp.
    cbn [app List.concat]. rewrite filter_app.
    rewrite (filter_none _ p).
    + simpl. now apply IH.
    + intros y Hy. apply eqb_of_key_lt.
      * now apply Hnp.
      * apply Hall. simpl. apply in_or_app. now right.
      * left. now apply Hinc.
Qed.

Lemma runs_good (s : list float) :
  StronglySorted kle s -> no_nan s -> good_runs (runs s).
Proof.
  intros Hs Hn. unfold good_runs. rewrite runs_concat.
  repeat split; auto using runs_chain, runs_nonempty, runs_separated.
Qed.

(** On a sorted vector without NaN: the mode occurs at least as often as
    any element, and it is not above an element that occurs as often. *)
Lemma spec_mode_most_frequent (s : list float) :
  s <> [] -> StronglySorted kle s -> no_nan s ->
  forall x, In x s ->
    count_eq x s <= count_eq (spec_mode s) s
    /\ (count_eq x s = count_eq (spec_mode s) s -> kle (spec_mode s) x).
Proof.
  intros Hne Hs Hn x Hx.
  pose proof (runs_good s Hs Hn) as G.
  assert (E : exists r0 rs, runs s = r0 :: rs).
  { destruct s as [|x0 s0]; [congruence|].
    destruct (runs_head x0 s0) as (r & rs & E). eauto. }
  destruct E as (r0 & rs & E).
  destruct (fold_longer_run_split rs r0) as (pre & post & Ep & Hpre & Hpost).
  set (best := fold_left longer_run rs r0) in *.
  assert (Em : spec_mode s = last best 0%float).
  { unfold spec_mode, first_longest. now rewrite E. }
  assert (Er : runs s = pre ++ best :: post) by now rewrite E, Ep.
  assert (Hb : best <> []).
  { pose proof (runs_nonempty s) as H. rewrite Er in H.
    apply Forall_app in H as [_ H]. now inversion H. }
  assert (Hmb : In (spec_mode s) best) by (rewrite Em; now apply last_In).
  assert (Cm : count_eq (spec_mode s) s = List.length best).
  { pose proof (run_holds_all_equal pre best post (spec_mode s)) as R.
    rewrite <- Er, runs_concat in R. unfold count_eq. now rewrite R. }
  rewrite <- (runs_concat s) in Hx. apply in_concat in Hx as (rx & Hrx & Hxr).
  destruct (in_split _ _ Hrx) as (l1 & l2 & El).
  assert (Cx : count_eq x s = List.length rx).
  { pose proof (run_holds_all_equal l1 rx l2 x) as R.
    rewrite <- El, runs_concat in R. unfold count_eq. now rewrite R. }
  rewrite Cx, Cm. rewrite Er in Hrx.
  rewrite Forall_forall in Hpre, Hpost.
  apply in_app_or in Hrx as [Hin|[Heq|Hin]].
  - specialize (Hpre _ Hin). split; [lia | intros; lia].
  - subst rx. split; [lia|]. intros _.
    destruct G as (Hc & _ & _ & _ & _). rewrite Er in Hc.
    apply Forall_app in Hc as [_ Hc]. inversion Hc; subst.
    unfold kle. right.
    apply (chain_same_key best); auto.
    unfold no_nan in *. rewrite Forall_forall in *. intros y Hy. apply Hn.
    rewrite <- (runs_concat s), Er. apply in_concat. exists best.
    split; [apply in_elt | assumption].
  - specialize (Hpost _ Hin). split; [lia|]. intros _.
    pose proof Hs as Hs'. rewrite <- (runs_concat s), Er in Hs'.
    rewrite concat_app in Hs'. apply StronglySorted_app_inv in Hs' as (_ & Hs' & _).
    simpl in Hs'. apply StronglySorted_app_inv in Hs' as (_ & _ & H12).
    apply H12; [assumption|]. apply in_concat. exists rx. auto.
Qed.

Lemma findMode_most_frequent (v : list float) (errs : string) :
  v <> [] -> no_nan v ->
  let m := eval findMode (mkAnalyzer v errs) in
  is_nan m = false
  /\ forall x, In x v ->
       count_eq x v <= count_eq m v
       /\ (count_eq x v = count_eq m v -> fle m x).
Proof.
  intros Hne Hn m. subst m. rewrite findMode_eval by assumption.
  cbn [numbers].
  assert (Hs : sort v <> []) by now apply sort_nonempty.
  assert (Hns : no_nan (sort v))
    by (eapply no_nan_perm; [symmetry; apply sort_perm | assumption]).
  assert (Hm : In (spec_mode (sort v)) v).
  { eapply Permutation_in; [apply sort_perm|]. now apply spec_mode_In. }
  pose proof Hn as Hall. unfold no_nan in Hall. rewrite Forall_forall in Hall.
  split; [now apply Hall|].
  intros x Hx.
  rewrite !(count_eq_perm _ v (sort v)) by (symmetry; apply sort_perm).
  destruct (spec_mode_most_frequent (sort v) Hs (sort_sorted_kle v Hn) Hns x)
    as [H1 H2].
  { eapply Permutation_in; [symmetry; apply sort_perm | assumption]. }
  split; [exact H1|]. intros E. apply leb_key; auto.
Qed.

End FrequencyFacts.

(** On numbers without NaN the mode is a most frequent value, and the
    least of the most frequent ones: no number compares equal to more
    elements than the mode does, and a number that is as frequent is not
    below the mode. *)
Theorem mode_is_most_frequent :
  forall st : NumberAnalyzer,
    numbers st <> [] -> no_nan (numbers st) ->
    forall x, In x (numbers st) ->
      count_eq x (numbers st) <= count_eq (eval findMode st) (numbers st)
      /\ (count_eq x (numbers st) = count_eq (eval findMode st) (numbers st)
          -> fle (eval findMode st) x).
Proof.
  intros [v errs] Hne Hn x Hx. cbn [numbers] in *.
  now apply (findMode_most_frequent v errs Hne Hn).
Qed.

Lemma mode_is_most_frequent_witness :
  let st := mkAnalyzer [3; 1; 3; 1; 2]%float "" in
  count_eq 2%float (numbers st) <= count_eq (eval findMode st) (numbers st).
Proof.
  apply (mode_is_most_frequent (mkAnalyzer [3; 1; 3; 1; 2]%float "")).
  - discriminate.
  - repeat constructor.
  - simpl. do 4 right. now left.
Defined.

(* ------------------------------------------------------------------ *)
(** ** The order of the input *)

Section OrderFacts.

Import FloatOrder FloatOrderFacts.

Lemma fle_antisym (x y : float) :
  is_nan x = false -> is_nan y = false -> fle x y -> fle y x ->
  (x =? y)%float = true.
Proof.
  intros Hx Hy H1 H2. apply eqb_key; auto.
  apply key_le_antisym; apply leb_key; auto.
Qed.

Lemma sign_counts_perm (v w : list float) :
  Permutation v w -> sign_counts v = sign_counts w.
Proof.
  intros P. unfold sign_counts. rewrite !sign_counts_from.
  unfold count_if. now rewrite !(filter_length_perm _ v w P).
Qed.

Lemma findMode_In (v : list float) (errs : string) :
  v <> [] -> In (eval findMode (mkAnalyzer v errs)) v.
Proof.
  intros H. rewrite findMode_eval by assumption. cbn [numbers].
  eapply Permutation_in; [apply sort_perm|].
  apply spec_mode_In. now apply sort_nonempty.
Qed.

Lemma findMode_perm (v w : list float) (errs errs' : string) :
  v <> [] -> no_nan v -> Permutation v w ->
  (eval findMode (mkAnalyzer v errs)
   =? eval findMode (mkAnalyzer w errs'))%float = true.
Proof.
  intros Hne Hn P.
  assert (Hw : w <> []).
  { intros E. subst w. symmetry in P. apply Permutation_nil in P. congruence. }
  assert (Hnw : no_nan w) by (eapply no_nan_perm; eauto).
  destruct (findMode_most_frequent v errs Hne Hn) as [N1 F1].
  destruct (findMode_most_frequent w errs' Hw Hnw) as [N2 F2].
  cbv zeta in *.
  set (m1 := eval findMode (mkAnalyzer v errs)) in *.
  set (m2 := eval findMode (mkAnalyzer w errs')) in *.
  assert (I1 : In m1 w)
    by (eapply Permutation_in; [exact P | now apply findMode_In]).
  assert (I2 : In m2 v)
    by (eapply Permutation_in; [symmetry; exact P | now apply findMode_In]).
  destruct (F1 m2 I2) as [L1 E1]. destruct (F2 m1 I1) as [L2 E2].
  rewrite !(count_eq_perm _ v w P) in L1, E1.
  apply fle_antisym; auto; [apply E1 | apply E2]; lia.
Qed.

Lemma min_max_perm (v w : list float) :
  v <> [] -> no_nan v -> Permutation v w ->
  (min_element v =? min_element w)%float = true
  /\ (max_element v =? max_element w)%float = true.
Proof.
  intros Hne Hn P.
  assert (Hnw : no_nan w) by (eapply no_nan_perm; eauto).
  destruct v as [|x v']; [congruence|].
  destruct w as [|y w'].
  { symmetry in P. apply Permutation_nil in P. discriminate. }
  pose proof Hn as A1. unfold no_nan in A1. rewrite Forall_forall in A1.
  pose proof Hnw as A2. unfold no_nan in A2. rewrite Forall_forall in A2.
  destruct (min_max_enclose x v' (A1 x (or_introl eq_refl))) as (Nm1 & NM1 & B1).
  destruct (min_max_enclose y w' (A2 y (or_introl eq_refl))) as (Nm2 & NM2 & B2).
  assert (I1 : In (min_element (x :: v')) (y :: w'))
    by (eapply Permutation_in; [exact P | apply min_fold_in]).
  assert (I2 : In (min_element (y :: w')) (x :: v'))
    by (eapply Permutation_in; [symmetry; exact P | apply min_fold_in]).
  assert (J1 : In (max_element (x :: v')) (y :: w'))
    by (eapply Permutation_in; [exact P | apply max_fold_in]).
  assert (J2 : In (max_element (y :: w')) (x :: v'))
    by (eapply Permutation_in; [symmetry; exact P | apply max_fold_in]).
  split; apply fle_antisym; auto.
  - apply B1; auto.
  - apply B2; auto.
  - apply B2; auto.
  - apply B1; auto.
Qed.

Lemma quartiles_perm (v w : list float) (errs errs' : string) :
  no_nan v -> Permutation v w ->
  Forall2 same_number (eval calculateQuartiles (mkAnalyzer v errs))
          (eval calculateQuartiles (mkAnalyzer w errs')).
Proof.
  intros Hn P. rewrite !calculateQuartiles_eval. cbv zeta. cbn [numbers].
  rewrite <- (Permutation_length P).
  destruct (Nat.ltb_spec (List.length v) 4) as [L|L].
  - repeat (constructor; [left; reflexivity|]). constructor.
  - assert (Hs : forall i, i < List.length v ->
                           same_number (at_ (sort v) i) (at_ (sort w) i)).
    { intros i Hi. apply sf_same_number, at_sorted_same.
      - eapply no_nan_perm; [symmetry; apply sort_perm | assumption].
      - rewrite sort_perm, P. symmetry. apply sort_perm.
      - now apply sort_sorted_kle.
      - apply sort_sorted_kle. eapply no_nan_perm; eauto.
      - now rewrite sort_length. }
    assert (B : forall k, k < 4 -> k * List.length v / 4 < List.length v)
      by (intros k Hk; apply Nat.Div0.div_lt_upper_bound; nia).
    constructor; [apply Hs; apply Nat.Div0.div_lt_upper_bound; lia|].
    constructor; [apply Hs; apply Nat.Div0.div_lt_upper_bound; lia|].
    constructor; [apply Hs, (B 3); lia | constructor].
Qed.

End OrderFacts.

(** The sign counts and the count do not depend on the order of the
    numbers.  On numbers without NaN neither do the mode, the minimum, the
    maximum and the quartiles: after any rearrangement each of them
    compares equal to what it was. *)
Theorem statistics_ignore_input_order :
  forall (v w : list float) (errs errs' : string),
    Permutation v w ->
    sign_counts v = sign_counts w
    /\ eval getCount (mkAnalyzer v errs) = eval getCount (mkAnalyzer w errs')
    /\ (v <> [] -> no_nan v ->
        (eval findMode (mkAnalyzer v errs)
         =? eval findMode (mkAnalyzer w errs'))%float = true
        /\ (min_element v =? min_element w)%float = true
        /\ (max_element v =? max_element w)%float = true
        /\ Forall2 same_number
             (eval calculateQuartiles (mkAnalyzer v errs))
             (eval calculateQuartiles (mkAnalyzer w errs'))).
Proof.
  intros v w errs errs' P.
  split; [now apply sign_counts_perm|].
  split; [apply (Permutation_length P)|].
  intros Hne Hn.
  split; [now apply findMode_perm|].
  destruct (min_max_perm v w Hne Hn P) as [Hmin Hmax].
  repeat split; auto. now apply quartiles_perm.
Qed.

Lemma statistics_ignore_input_order_witness :
  (eval findMode (mkAnalyzer [2; 1; 2]%float "")
   =? eval findMode (mkAnalyzer [1; 2; 2]%float "x"))%float = true.
Proof.
  apply (statistics_ignore_input_order [2; 1; 2]%float [1; 2; 2]%float "" "x").
  - apply perm_swap.
  - discriminate.
  - repeat constructor.
Defined.

(* ------------------------------------------------------------------ *)
(** ** NaN and infinities in the sum, the average and the deviation *)

Section NanFacts.

Import FloatOrder FloatOrderFacts.

Lemma SFadd_nan_r (a : spec_float) : SF64add a S754_nan = S754_nan.
Proof. now destruct a. Qed.

Lemma SFadd_inf_l (s : bool) (b : spec_float) :
  SF64add (S754_infinity s) b <> S754_nan ->
  SF64add (S754_infinity s) b = S754_infinity s.
Proof.
  destruct b as [sb|sb| |sb mb eb]; simpl; auto; try congruence.
  destruct s, sb; simpl; congruence.
Qed.

Lemma SFadd_inf_r (s : bool) (a : spec_float) :
  SF64add a (S754_infinity s) <> S754_nan ->
  SF64add a (S754_infinity s) = S754_infinity s.
Proof.
  destruct a as [sa|sa| |sa ma ea]; simpl; auto; try congruence.
  destruct s, sa; simpl; congruence.
Qed.

Lemma to_nan (x : float) : Prim2SF x = S754_nan -> x = nan.
Proof. intros H. apply Prim2SF_inj. now rewrite Prim2SF_nan. Qed.

Lemma sum_from_nan (ns : list float) :
  forall acc, Prim2SF acc = S754_nan ->
  Prim2SF (fold_left (fun sum num => sum + num)%float ns acc) = S754_nan.
Proof.
  induction ns as [|y ns IH]; intros acc H; simpl; [exact H|].
  apply IH. now rewrite add_spec, H.
Qed.

Lemma sum_with_nan (ns : list float) :
  In nan ns ->
  forall acc,
    Prim2SF (fold_left (fun sum num => sum + num)%float ns acc) = S754_nan.
Proof.
  induction ns as [|y ns IH]; intros H acc; [contradiction|].
  simpl. destruct H as [->|H]; [|now apply IH].
  apply sum_from_nan. rewrite add_spec, Prim2SF_nan. apply SFadd_nan_r.
Qed.

(** A sum that is not a NaN is the infinity that it met on its way. *)
Lemma sum_with_infinity (s : bool) (ns : list float) :
  forall acc,
    Prim2SF (fold_left (fun sum num => sum + num)%float ns acc) <> S754_nan ->
    Prim2SF acc = S754_infinity s
    \/ (exists x, In x ns /\ Prim2SF x = S754_infinity s) ->
    Prim2SF (fold_left (fun sum num => sum + num)%float ns acc)
    = S754_infinity s.
Proof.
  induction ns as [|y ns IH]; intros acc Hn H.
  - destruct H as [H|(x & [] & _)]. exact H.
  - simpl in *.
    assert (Hstep : Prim2SF (acc + y)%float <> S754_nan).
    { intros E. apply Hn. now apply sum_from_nan. }
    apply IH; [exact Hn|].
    rewrite add_spec in Hstep.
    destruct H as [H|(x & [<-|Hx] & E)].
    + left. rewrite add_spec, H in *. now apply SFadd_inf_l.
    + left. rewrite add_spec, E in *. now apply SFadd_inf_r.
    + right. eauto.
Qed.

Lemma square_sum_from_nan (avg : float) (ns : list float) :
  forall acc, Prim2SF acc = S754_nan ->
  Prim2SF (fold_left
             (fun acc num => let diff := num - avg in acc + diff * diff)%float
             ns acc) = S754_nan.
Proof.
  induction ns as [|y ns IH]; intros acc H; simpl; [exact H|].
  apply IH. now rewrite add_spec, H.
Qed.

Lemma square_sum_with_nan (avg : float) (ns : list float) :
  (exists x, In x ns /\ Prim2SF (x - avg)%float = S754_nan) ->
  forall acc,
    Prim2SF (fold_left
               (fun acc num => let diff := num - avg in acc + diff * diff)%float
               ns acc) = S754_nan.
Proof.
  induction ns as [|y ns IH]; intros (x & Hx & E) acc; [contradiction|].
  simpl. destruct Hx as [->|Hx]; [|apply IH; eauto].
  apply square_sum_from_nan.
  rewrite add_spec, mul_spec, E. apply SFadd_nan_r.
Qed.

Lemma not_finite_cases (x : float) :
  is_finite x = false ->
  Prim2SF x = S754_nan \/ exists s, Prim2SF x = S754_infinity s.
Proof.
  intros H. destruct (Prim2SF x) as [s|s| |s m e] eqn:E; eauto; exfalso.
  - assert (N : is_nan x = false) by (apply is_nan_spec; rewrite E; discriminate).
    unfold is_finite, is_infinity in H.
    rewrite N, FloatAxioms.eqb_spec, abs_spec, E in H. discriminate.
  - assert (N : is_nan x = false) by (apply is_nan_spec; rewrite E; discriminate).
    unfold is_finite, is_infinity in H.
    rewrite N, FloatAxioms.eqb_spec, abs_spec, E in H. discriminate.
Qed.

(** A number that is a NaN or an infinity makes the deviation a NaN. *)
Lemma stddev_not_finite (st : NumberAnalyzer) (x : float) :
  (Z.of_nat (List.length (numbers st)) < 2 ^ 53)%Z ->
  In x (numbers st) -> is_finite x = false ->
  eval calculateStdDev st = nan.
Proof.
  intros Hb Hx Hf. rewrite calculateStdDev_eval.
  destruct (numbers st) as [|x0 ns] eqn:E; [contradiction|].
  assert (Hne : numbers st <> []) by congruence.
  destruct (double_of_size_finite (List.length (x0 :: ns)))
    as (m & e & Hsize); [simpl; lia | exact Hb |].
  cbv zeta. apply to_nan. rewrite sqrt_spec, div_spec.
  rewrite square_sum_with_nan; [reflexivity|].
  exists x. split; [exact Hx|]. rewrite sub_spec.
  rewrite calculateAverage_eval, calculateSum_eval, E by assumption.
  rewrite div_spec, Hsize.
  set (S := Prim2SF (fold_left (fun sum num => sum + num)%float (x0 :: ns) 0%float)).
  destruct (not_finite_cases x Hf) as [N|(s & I)].
  - rewrite N. reflexivity.
  - rewrite I.
    assert (HS : S = S754_nan \/ S = S754_infinity s).
    { destruct S as [sS|sS| |sS mS eS] eqn:ES; auto; right;
        rewrite <- ES; subst S; apply sum_with_infinity;
        try (rewrite ES; discriminate); right; eauto. }
    destruct HS as [-> | ->]; [reflexivity|].
    simpl. now destruct s.
Qed.

End NanFacts.

(** The standard deviation of a non-empty vector (of fewer than [2^53]
    numbers) is a NaN exactly when one of the numbers is a NaN or an
    infinity. *)
Theorem stddev_nan_iff_not_finite :
  forall st : NumberAnalyzer,
    numbers st <> [] ->
    (Z.of_nat (List.length (numbers st)) < 2 ^ 53)%Z ->
    (eval calculateStdDev st = nan
     <-> exists x, In x (numbers st) /\ is_finite x = false).
Proof.
  intros st Hne Hb. split.
  - intros E.
    destruct (Forall_Exists_dec (fun x => is_finite x = true)
                (fun x => Bool.bool_dec (is_finite x) true) (numbers st))
      as [F|X].
    + exfalso. pose proof (stddev_finite_signed st F Hb) as S.
      rewrite E, Prim2SF_nan in S. exact S.
    + apply Exists_exists in X as (x & Hx & Hf).
      exists x. split; [exact Hx|]. now apply not_true_is_false.
  - intros (x & Hx & Hf). eapply stddev_not_finite; eauto.
Qed.

Lemma stddev_nan_iff_not_finite_witness :
  eval calculateStdDev (mkAnalyzer [1; neg_infinity; 2]%float "") = nan.
Proof.
  apply (stddev_nan_iff_not_finite (mkAnalyzer [1; neg_infinity; 2]%float "")).
  - discriminate.
  - simpl. lia.
  - exists neg_infinity. split; [simpl; auto | reflexivity].
Defined.

(** The sum and the average of finite numbers (fewer than [2^53]) are
    never NaN, though they may overflow to an infinity.  A NaN among the
    numbers makes both NaN, and with an infinity among them the sum is
    that infinity or a NaN. *)
Theorem sum_and_average_nan :
  forall st : NumberAnalyzer,
    numbers st <> [] ->
    (Z.of_nat (List.length (numbers st)) < 2 ^ 53)%Z ->
    (Forall (fun x => is_finite x = true) (numbers st) ->
     is_nan (eval calculateSum st) = false
     /\ is_nan (eval calculateAverage st) = false)
    /\ (In nan (numbers st) ->
        eval calculateSum st = nan /\ eval calculateAverage st = nan)
    /\ (forall x, In x (numbers st) -> is_infinity x = true ->
                  eval calculateSum st = x \/ eval calculateSum st = nan).
Proof.
  intros st Hne Hb.
  destruct (double_of_size_finite (List.length (numbers st)))
    as (m & e & Hsize);
    [destruct (numbers st); [congruence | simpl; lia] | exact Hb |].
  rewrite calculateAverage_eval, calculateSum_eval by assumption.
  split; [|split].
  - intros F.
    assert (Hfin : Forall (fun x => sf_finite (Prim2SF x)) (numbers st)).
    { eapply Forall_impl; [|exact F]. intros a. apply is_finite_spec. }
    assert (S : Prim2SF (fold_left (fun sum num => sum + num)%float
                                   (numbers st) 0%float) <> S754_nan)
      by (apply sum_not_nan; [exact Hfin | discriminate]).
    split; apply FloatOrderFacts.is_nan_spec; [exact S|].
    rewrite div_spec, Hsize. now apply SFdiv_positive_not_nan.
  - intros Hin.
    pose proof (sum_with_nan (numbers st) Hin 0%float) as S.
    split; apply to_nan; [exact S|].
    now rewrite div_spec, S.
  - intros x Hx Hi.
    set (sum := fold_left (fun sum num => sum + num)%float (numbers st) 0%float).
    destruct (Prim2SF sum) as [s'|s'| |s' m' e'] eqn:ES;
      try (right; now apply to_nan); left.
    all: assert (Hn : is_nan x = false)
      by (unfold is_infinity in Hi; apply eqb_true_not_nan in Hi;
          destruct (is_nan x) eqn:N; [|reflexivity];
          apply FloatOrderFacts.is_nan_true in N; subst x;
          destruct Hi as [Hi _]; discriminate Hi).
    all: assert (Hf : is_finite x = false)
      by (unfold is_finite; now rewrite Hn, Hi).
    all: destruct (not_finite_cases x Hf) as [N|(s & I)];
      [apply FloatOrderFacts.is_nan_spec in Hn; contradiction|].
    all: apply Prim2SF_inj; rewrite I; subst sum;
      apply sum_with_infinity; [rewrite ES; discriminate | right; eauto].
Qed.

Lemma sum_and_average_nan_witness :
  let st := mkAnalyzer [0x1p1023; 0x1p1023; -1]%float "" in
  is_nan (eval calculateSum st) = false
  /\ eval calculateSum st = infinity.
Proof.
  split; [|reflexivity].
  apply (sum_and_average_nan (mkAnalyzer [0x1p1023; 0x1p1023; -1]%float "")).
  - discriminate.
  - simpl. lia.
  - repeat constructor.
Defined.

(* ------------------------------------------------------------------ *)
(** ** The range and the interquartile range are not negative *)

Section DifferenceFacts.

Import FloatOrder FloatOrderFacts.

Lemma digits2_pos_bounds (m : positive) :
  (2 ^ Z.pos (digits2_pos m) <= 2 * Z.pos m
   /\ Z.pos m < 2 ^ Z.pos (digits2_pos m))%Z.
Proof.
  rewrite digits2_pos_size. split.
  - pose proof (Pos.size_le m) as H. apply Pos2Z.pos_le_pos in H.
    now rewrite Pos2Z.inj_pow in H.
  - pose proof (Pos.size_gt m) as H. apply Pos2Z.pos_lt_pos in H.
    now rewrite Pos2Z.inj_pow in H.
Qed.

(** What [valid_binary] says on a finite number. *)
Lemma bounded_digits (m : positive) (e : Z) :
  bounded prec emax m e = true ->
  (Z.pos (digits2_pos m) <= 53
   /\ (-1074 <= e)
   /\ (-1074 < e -> Z.pos (digits2_pos m) = 53))%Z.
Proof.
  unfold bounded, canonical_mantissa, fexp, SpecFloat.emin, prec, emax.
  intros H. apply andb_prop in H as [H _]. apply Z.eqb_eq in H. lia.
Qed.

Lemma iter_xO_value (m d : positive) :
  Z.pos (Pos.iter xO m d) = (Z.pos m * 2 ^ Z.pos d)%Z.
Proof.
  induction d as [|d IH] using Pos.peano_ind.
  - simpl. lia.
  - rewrite Pos.iter_succ, Pos2Z.inj_succ, Z.pow_succ_r by lia.
    change (Z.pos (Pos.iter xO m d)~0) with (2 * Z.pos (Pos.iter xO m d))%Z.
    lia.
Qed.

Lemma shl_align_same (m : positive) (e : Z) : shl_align m e e = (m, e).
Proof. unfold shl_align. now rewrite Z.sub_diag. Qed.

Lemma shl_align_value (m : positive) (e e' : Z) :
  (e' < e)%Z ->
  Z.pos (fst (shl_align m e e')) = (Z.pos m * 2 ^ (e - e'))%Z.
Proof.
  intros H. unfold shl_align.
  destruct (e' - e)%Z as [|d|d] eqn:E; try lia.
  cbn [fst]. rewrite iter_xO_value. f_equal. f_equal. lia.
Qed.

(** Two valid positive numbers in the order of their keys, once aligned
    on the smaller exponent, have their mantissas in that order. *)
Lemma aligned_in_order (m1 : positive) (e1 : Z) (m2 : positive) (e2 : Z) :
  bounded prec emax m1 e1 = true -> bounded prec emax m2 e2 = true ->
  (e1 < e2 \/ (e1 = e2 /\ Z.pos m1 <= Z.pos m2))%Z ->
  (Z.pos (fst (shl_align m1 e1 (Z.min e1 e2)))
   <= Z.pos (fst (shl_align m2 e2 (Z.min e1 e2))))%Z.
Proof.
  intros B1 B2 [L|[E L]].
  - rewrite Z.min_l by lia. rewrite shl_align_same. cbn [fst].
    rewrite shl_align_value by lia.
    destruct (bounded_digits m1 e1 B1) as (D1 & E1 & _).
    destruct (bounded_digits m2 e2 B2) as (_ & _ & D2).
    specialize (D2 ltac:(lia)).
    destruct (digits2_pos_bounds m1) as [_ U1].
    destruct (digits2_pos_bounds m2) as [L2 _].
    rewrite D2 in L2.
    assert (P1 : (2 ^ Z.pos (digits2_pos m1) <= 2 ^ 53)%Z)
      by (apply Z.pow_le_mono_r; lia).
    assert (P2 : (2 ^ 1 <= 2 ^ (e2 - e1))%Z)
      by (apply Z.pow_le_mono_r; lia).
    change (2 ^ 1)%Z with 2%Z in P2.
    change (2 ^ 53)%Z with 9007199254740992%Z in *. nia.
  - subst e2. rewrite Z.min_id, !shl_align_same. exact L.
Qed.

Lemma binary_normalize_nonneg (m e : Z) :
  (0 <= m)%Z ->
  binary_normalize prec emax m e false = S754_zero false
  \/ sf_signed false (binary_normalize prec emax m e false).
Proof.
  intros H. destruct m as [|p|p]; [now left | right | lia].
  apply binary_round_signed.
Qed.

(** The difference of two valid finite numbers in the order of their keys
    is a zero or has the sign bit clear. *)
Lemma SFsub_ordered (X Y : spec_float) :
  valid_binary X = true -> valid_binary Y = true ->
  sf_finite X -> sf_finite Y ->
  key_le (sf_key X) (sf_key Y) ->
  SFleb (S754_zero false) (SF64sub Y X) = true.
Proof.
  intros VX VY FX FY K.
  assert (Z0 : forall R, (R = S754_zero false \/ sf_signed false R) ->
                         SFleb (S754_zero false) R = true).
  { intros R [->|H]; [reflexivity|].
    destruct R as [s|s| |s m e]; simpl in H; try contradiction; now subst. }
  destruct X as [sx|sx| |sx mx ex], Y as [sy|sy| |sy my ey];
    try contradiction.
  - destruct sx, sy; reflexivity.
  - (* x zero, y finite *)
    destruct sy; [|reflexivity].
    destruct K as [K|K]; [simpl in K; lia | discriminate].
  - (* x finite, y zero *)
    destruct sx; [destruct sy; reflexivity|].
    destruct K as [K|K]; [simpl in K; lia | discriminate].
  - unfold SF64sub, SFsub. apply Z0, binary_normalize_nonneg.
    simpl in VX, VY.
    destruct sx, sy; cbn [cond_Zopp sf_key] in *.
    + (* both negative *)
      assert (O : (ey < ex \/ (ey = ex /\ Z.pos my <= Z.pos mx))%Z).
      { destruct K as [K|K]; [simpl in K; lia|].
        injection K as K1 K2. right. split; lia. }
      pose proof (aligned_in_order my ey mx ex VY VX O). lia.
    + lia.
    + destruct K as [K|K]; [simpl in K; lia | discriminate].
    + assert (O : (ex < ey \/ (ex = ey /\ Z.pos mx <= Z.pos my))%Z).
      { destruct K as [K|K]; [simpl in K; lia|].
        injection K as K1 K2. right. split; lia. }
      pose proof (aligned_in_order mx ex my ey VX VY O) as A.
      rewrite (Z.min_comm ex ey) in A. lia.
Qed.

Lemma sub_ordered (x y : float) :
  is_finite x = true -> is_finite y = true -> fle x y ->
  (0 <=? y - x)%float = true.
Proof.
  intros Fx Fy L.
  assert (Nx : is_nan x = false)
    by (unfold is_finite in Fx; destruct (is_nan x); [discriminate | reflexivity]).
  assert (Ny : is_nan y = false)
    by (unfold is_finite in Fy; destruct (is_nan y); [discriminate | reflexivity]).
  rewrite FloatAxioms.leb_spec, Prim2SF_zero, sub_spec.
  apply SFsub_ordered; try apply Prim2SF_valid; try now apply is_finite_spec.
  now apply leb_key.
Qed.

End DifferenceFacts.

(** Lines 187 and 200: on finite numbers the range [max - min] is [>= 0],
    and so is the interquartile range [Q3 - Q1] of four numbers or more. *)
Theorem range_and_iqr_not_negative :
  forall st : NumberAnalyzer,
    numbers st <> [] ->
    Forall (fun x => is_finite x = true) (numbers st) ->
    (0 <=? max_element (numbers st) - min_element (numbers st))%float = true
    /\ (4 <= List.length (numbers st) ->
        (0 <=? at_ (eval calculateQuartiles st) 2
               - at_ (eval calculateQuartiles st) 0)%float = true).
Proof.
  intros st Hne Hf.
  pose proof Hf as Hall. rewrite Forall_forall in Hall.
  assert (Hn : no_nan (numbers st)).
  { eapply Forall_impl; [|exact Hf]. intros a Ha. unfold is_finite in Ha.
    destruct (is_nan a); [discriminate | reflexivity]. }
  split.
  - destruct (numbers st) as [|x v] eqn:E; [congruence|].
    destruct (min_max_enclose x v) as (_ & NM & B).
    { inversion Hn; assumption. }
    apply sub_ordered.
    + apply Hall. exact (min_fold_in v x).
    + apply Hall. exact (max_fold_in v x).
    + exact (proj1 (B _ (max_fold_in v x) NM)).
  - intros H4. rewrite calculateQuartiles_eval. cbv zeta.
    set (n := List.length (numbers st)) in *.
    assert (F : (n <? 4)%nat = false) by (apply Nat.ltb_ge; lia).
    rewrite F. unfold at_ at 1 3. cbn [nth].
    pose proof (Nat.div_mod_eq n 4) as D4.
    pose proof (Nat.mod_upper_bound n 4 ltac:(lia)) as M4.
    pose proof (Nat.div_mod_eq (3 * n) 4) as D3.
    pose proof (Nat.mod_upper_bound (3 * n) 4 ltac:(lia)) as M3.
    apply sub_ordered.
    + apply Hall, at_sort_In. fold n. lia.
    + apply Hall, at_sort_In. fold n. lia.
    + apply at_sort_fle; auto; fold n; lia.
Qed.

Lemma range_and_iqr_not_negative_witness :
  let st := mkAnalyzer [-2; 7; 0; 3; -5]%float "" in
  (0 <=? max_element (numbers st) - min_element (numbers st))%float = true.
Proof.
  apply (proj1 (range_and_iqr_not_negative
                  (mkAnalyzer [-2; 7; 0; 3; -5]%float "")
                  ltac:(discriminate)
                  ltac:(repeat (constructor; [reflexivity|]); constructor))).
Defined.

(* ------------------------------------------------------------------ *)
(** ** The second quartile and the median *)

(** For an odd count of five numbers or more the second quartile is the
    median; for an even count of four or more it is the upper one of the
    two middle elements, whose half-sum with the lower one is the
    median. *)
Theorem second_quartile_and_median :
  forall st : NumberAnalyzer,
    4 <= List.length (numbers st) ->
    let n := List.length (numbers st) in
    let q2 := at_ (eval calculateQuartiles st) 1 in
    (n mod 2 = 1 -> eval calculateMedian st = q2)
    /\ (n mod 2 = 0 ->
        eval calculateMedian st
        = ((at_ (sort (numbers st)) (n / 2 - 1) + q2) / 2)%float).
Proof.
  intros st H4 n q2. subst q2.
  assert (Hne : numbers st <> [])
    by (destruct (numbers st); [simpl in H4; lia | discriminate]).
  rewrite calculateMedian_eval, calculateQuartiles_eval by assumption.
  unfold median_of_sorted. cbv zeta. rewrite sort_length. fold n.
  assert (F : (n <? 4)%nat = false) by (apply Nat.ltb_ge; lia).
  rewrite F. unfold at_ at 2 5. cbn [nth].
  split; intros E; rewrite E; reflexivity.
Qed.

Lemma second_quartile_and_median_witness :
  let st := mkAnalyzer [9; 1; 7; 3; 5]%float "" in
  eval calculateMedian st = at_ (eval calculateQuartiles st) 1.
Proof.
  apply (proj1 (second_quartile_and_median
                  (mkAnalyzer [9; 1; 7; 3; 5]%float "")
                  ltac:(simpl; lia))).
  reflexivity.
Defined.

(* ------------------------------------------------------------------ *)
(** ** White space around a token, and the exit status *)

Lemma all_space_append (s t : string) :
  all_space (s ++ t) = all_space s && all_space t.
Proof.
  induction s as [|c s IH]; [reflexivity|].
  cbn [append all_space]. rewrite IH. now rewrite andb_assoc.
Qed.

Lemma trim_surrounded (w1 tok w2 : string) :
  all_space w1 = true -> all_space w2 = true -> all_space tok = false ->
  trim (w1 ++ tok ++ w2) = trim tok.
Proof.
  intros H1 H2 H.
  destruct (decompose_spaces tok H) as (a & mid & b & E & Ha & Hb & Hf & Hl).
  subst tok. rewrite (trim_decomposed a mid b) by assumption.
  replace (w1 ++ (a ++ mid ++ b) ++ w2)%string
    with ((w1 ++ a) ++ mid ++ (b ++ w2))%string
    by (now rewrite !append_assoc).
  apply trim_decomposed; auto; rewrite all_space_append;
    now rewrite ?H1, ?H2, ?Ha, ?Hb.
Qed.

(** White space around a token that is not white space only does not
    change what the token gives: the same value, or the same message. *)
Theorem surrounding_space_is_ignored :
  forall (w1 tok w2 : string) (st : NumberAnalyzer),
    all_space w1 = true -> all_space w2 = true -> all_space tok = false ->
    exec (parse_token (w1 ++ tok ++ w2)) st = exec (parse_token tok) st.
Proof.
  intros w1 tok w2 st H1 H2 H.
  rewrite !parse_token_cases. now rewrite trim_surrounded.
Qed.

Lemma surrounding_space_is_ignored_witness :
  exec (parse_token (" " ++ "4x" ++ String Chars.TAB " ")) new_analyzer
  = exec (parse_token "4x") new_analyzer.
Proof.
  apply (surrounding_space_is_ignored " " "4x" (String Chars.TAB " ")
           new_analyzer); reflexivity.
Defined.

Lemma flat_map_values_nil (toks : list string) :
  flat_map token_values toks = []
  <-> Forall (fun tok => token_fails tok = true) toks.
Proof.
  induction toks as [|tok toks IH]; simpl.
  - split; [constructor | reflexivity].
  - unfold token_values at 1. split.
    + intros H. apply app_eq_nil in H as [H1 H2].
      constructor; [|now apply IH].
      unfold token_fails. now destruct (stod (trim tok)).
    + intros H. inversion H as [|? ? Ht Hts]; subst.
      unfold token_fails in Ht.
      destruct (stod (trim tok)); try discriminate; now apply IH.
Qed.

(** With an argument, [main] fails exactly when every token of the
    argument fails to convert (in particular when there is no token);
    when it succeeds the Count line of the report shows the number of
    tokens that convert. *)
Theorem main_fails_iff_all_tokens_fail :
  forall (show_double : float -> string) (prog input : string)
         (rest : list string),
    let out := main show_double (prog :: input :: rest) in
    let st := exec (parse input) new_analyzer in
    (exit_status out = 1%Z
     <-> Forall (fun tok => token_fails tok = true) (tokens input))
    /\ eval getCount st
       = List.length (filter (fun tok => negb (token_fails tok))
                             (tokens input)).
Proof.
  intros show_double prog input rest out st. subst out.
  rewrite main_with_argument. fold st.
  assert (N : numbers st = flat_map token_values (tokens input)).
  { subst st. rewrite exec_parse, parse_tokens_spec. reflexivity. }
  clearbody st. cbv zeta. split.
  - rewrite <- flat_map_values_nil, <- N.
    destruct (numbers st); cbn [exit_status]; split; intros H;
      try reflexivity; discriminate.
  - unfold eval, getCount, gets. cbn [fst]. rewrite N. clear N.
    induction (tokens input) as [|tok toks IH]; [reflexivity|].
    cbn [flat_map filter]. unfold token_values at 1, token_fails at 1.
    rewrite length_app.
    destruct (stod (trim tok)); cbn [negb List.length app]; rewrite IH;
      reflexivity.
Qed.

(* ------------------------------------------------------------------ *)
(** ** The mode when no value repeats *)

(** When no value repeats (and none is a NaN) the mode is the smallest
    number: it compares equal to the minimum. *)
Theorem mode_without_repeats_is_minimum :
  forall st : NumberAnalyzer,
    numbers st <> [] -> no_nan (numbers st) ->
    (forall x, In x (numbers st) -> count_eq x (numbers st) = 1) ->
    (eval findMode st =? min_element (numbers st))%float = true.
Proof.
  intros [v errs] Hne Hn H1. cbn [numbers] in *.
  destruct (findMode_most_frequent v errs Hne Hn) as [Nm F]. cbv zeta in *.
  pose proof (findMode_In v errs Hne) as Im.
  destruct v as [|x v']; [congruence|].
  pose proof Hn as A. unfold no_nan in A. rewrite Forall_forall in A.
  destruct (min_max_enclose x v' (A x (or_introl eq_refl))) as (Nmin & _ & B).
  pose proof (min_fold_in v' x) as Imin.
  apply fle_antisym; auto.
  - apply (F _ Imin). now rewrite !H1.
  - exact (proj1 (B _ Im Nm)).
Qed.

Lemma mode_without_repeats_is_minimum_witness :
  (eval findMode (mkAnalyzer [8; 4; 15]%float "")
   =? min_element [8; 4; 15]%float)%float = true.
Proof.
  apply (mode_without_repeats_is_minimum (mkAnalyzer [8; 4; 15]%float "")).
  - discriminate.
  - repeat constructor.
  - intros x [<-|[<-|[<-|[]]]]; reflexivity.
Defined.

(* ================================================================== *)
(** * The mode and the quartiles on the ascending copy *)

Section AscendingCopy.

Import FloatOrder FloatOrderFacts.

Lemma eqb_trans (x y z : float) :
  is_nan x = false -> is_nan y = false -> is_nan z = false ->
  (x =? y)%float = true -> (y =? z)%float = true -> (x =? z)%float = true.
Proof.
  intros Hx Hy Hz E1 E2. apply eqb_key; auto.
  apply eqb_key in E1; auto. apply eqb_key in E2; auto. congruence.
Qed.

(** Any ascending arrangement of numbers without NaN has the mode of
    [findMode] as the value of its first run of greatest length. *)
Lemma spec_mode_of_ascending (v s : list float) (errs : string) :
  v <> [] -> no_nan v -> Permutation s v -> StronglySorted fle s ->
  is_nan (spec_mode s) = false
  /\ (spec_mode s =? eval findMode (mkAnalyzer v errs))%float = true.
Proof.
  intros Hne Hn P Hs.
  assert (Hns : no_nan s)
    by (eapply no_nan_perm; [symmetry; exact P | exact Hn]).
  assert (Hse : s <> []).
  { intros E. subst s. apply Permutation_nil in P. congruence. }
  destruct (findMode_most_frequent v errs Hne Hn) as [N F]. cbv zeta in *.
  set (m := eval findMode (mkAnalyzer v errs)) in *.
  pose proof (spec_mode_In s Hse) as Is.
  assert (Ns : is_nan (spec_mode s) = false).
  { unfold no_nan in Hns. rewrite Forall_forall in Hns. now apply Hns. }
  assert (Im : In m s).
  { eapply Permutation_in; [symmetry; exact P | now apply findMode_In]. }
  destruct (spec_mode_most_frequent s Hse (fle_sorted_kle s Hns Hs) Hns m Im)
    as [L1 E1].
  destruct (F (spec_mode s) (Permutation_in _ P Is)) as [L2 E2].
  rewrite !(count_eq_perm _ s v P) in L1, E1.
  split; [exact Ns|].
  apply fle_antisym; auto.
  - apply leb_key; auto. apply E1. lia.
  - apply E2. lia.
Qed.

(** The elements of an ascending arrangement of numbers without NaN are,
    position by position, the numbers of the copy that [sort] returns. *)
Lemma at_ascending_same (v s : list float) (i : nat) :
  no_nan v -> Permutation s v -> StronglySorted fle s ->
  i < List.length v ->
  same_number (at_ (sort v) i) (at_ s i).
Proof.
  intros Hn P Hs Hi.
  assert (Hns : no_nan s)
    by (eapply no_nan_perm; [symmetry; exact P | exact Hn]).
  apply sf_same_number, at_sorted_same.
  - eapply no_nan_perm; [symmetry; apply sort_perm | assumption].
  - rewrite sort_perm. symmetry. exact P.
  - now apply sort_sorted_kle.
  - now apply fle_sorted_kle.
  - now rewrite sort_length.
Qed.

End AscendingCopy.

(** C3, as the code has it: on a non-empty vector without NaN the copy
    that [findMode] scans is the numbers in ascending order, and the mode
    is the value of the first run of greatest length of it.  The runs cut
    an ascending arrangement into maximal stretches of values that compare
    equal; the runs before the chosen one are strictly shorter and the
    runs after it are not longer, so of two runs of the same greatest
    length the earlier one is kept.  Every ascending arrangement of the
    numbers has the mode as the value of that run, up to [==].  On the
    input ["1,1,2,2,2,3"] the mode is 2. *)
Theorem mode_is_first_longest_run :
  forall st : NumberAnalyzer,
    numbers st <> [] -> no_nan (numbers st) ->
    let sorted := sort (numbers st) in
    Permutation sorted (numbers st)
    /\ StronglySorted fle sorted
    /\ eval findMode st = spec_mode sorted
    /\ (forall s : list float,
           Permutation s (numbers st) -> StronglySorted fle s ->
           List.concat (runs s) = s
           /\ Forall chain (runs s)
           /\ separated (runs s)
           /\ exists pre r post,
               runs s = pre ++ r :: post
               /\ Forall (fun r' => List.length r' < List.length r) pre
               /\ Forall (fun r' => List.length r' <= List.length r) post
               /\ spec_mode s = last r 0%float
               /\ Forall (fun x => (x =? eval findMode st)%float = true) r)
    /\ eval findMode (exec (parse "1,1,2,2,2,3") new_analyzer) = 2%float.
Proof.
  intros [v errs] Hne Hn sorted. cbn [numbers] in *.
  split; [apply sort_perm|].
  split; [now apply sort_sorted|].
  split; [now apply (findMode_eval (mkAnalyzer v errs))|].
  split; [|vm_compute; reflexivity].
  intros s P Hs.
  split; [apply runs_concat|].
  split; [apply runs_chain|].
  split; [apply runs_separated|].
  assert (Hns : no_nan s)
    by (eapply no_nan_perm; [symmetry; exact P | exact Hn]).
  destruct (spec_mode_of_ascending v s errs Hne Hn P Hs) as [Nm Q].
  assert (Hm : is_nan (eval findMode (mkAnalyzer v errs)) = false)
    by apply (findMode_most_frequent v errs Hne Hn).
  destruct s as [|first rest] eqn:Es.
  { apply Permutation_nil in P. congruence. }
  destruct (runs_head first rest) as (r0 & rs & Er).
  destruct (fold_longer_run_split rs (first :: r0))
    as (pre & post & Ep & Hpre & Hpost).
  exists pre, (fold_left longer_run rs (first :: r0)), post.
  assert (Em : spec_mode (first :: rest)
               = last (fold_left longer_run rs (first :: r0)) 0%float).
  { unfold spec_mode, first_longest. now rewrite Er. }
  rewrite Er.
  split; [exact Ep|]. split; [exact Hpre|]. split; [exact Hpost|].
  split; [exact Em|].
  rewrite Em in Q, Nm.
  pose proof (runs_chain (first :: rest)) as Hc. rewrite Er, Ep in Hc.
  apply Forall_app in Hc as [_ Hc].
  apply Forall_inv in Hc. apply chain_all_equal in Hc.
  rewrite Forall_forall in Hc |- *. intros x Hx.
  assert (Nx : is_nan x = false).
  { unfold no_nan in Hns. rewrite Forall_forall in Hns. apply Hns.
    rewrite <- (runs_concat (first :: rest)), Er, Ep.
    apply in_concat. eexists. split; [|exact Hx].
    apply in_or_app. right. now left. }
  destruct (Hc x Hx) as [->|E]; [exact Q|].
  exact (eqb_trans _ _ _ Nx Nm Hm E Q).
Qed.

Lemma mode_is_first_longest_run_witness :
  let st := mkAnalyzer [2; 1; 2; 1; 3]%float "" in
  StronglySorted fle (sort (numbers st))
  /\ eval findMode st = spec_mode (sort (numbers st))
  /\ eval findMode st = 1%float.
Proof.
  pose proof (mode_is_first_longest_run
                (mkAnalyzer [2; 1; 2; 1; 3]%float "")
                ltac:(discriminate) ltac:(repeat constructor)) as H.
  cbv zeta in H. destruct H as (_ & Hs & Hm & _).
  split; [exact Hs|]. split; [exact Hm | reflexivity].
Defined.

(** C3 as stated fails: with a NaN among the numbers the copy that is
    scanned need not be ascending, because no comparison with a NaN
    holds.  On the input ["0,2,nan,2,2,1,1"] the NaN keeps the 2 before it
    in place, the occurrences of 2 fall into two runs, and the mode is 1
    although 2 occurs more often. *)
Lemma mode_with_nan_is_not_most_frequent :
  let v := [0; 2; nan; 2; 2; 1; 1]%float in
  numbers (exec (parse "0,2,nan,2,2,1,1") new_analyzer) = v
  /\ sort v = [0; 2; nan; 1; 1; 2; 2]%float
  /\ ~ StronglySorted fle (sort v)
  /\ runs (sort v) = [[0]; [2]; [nan]; [1; 1]; [2; 2]]%float
  /\ eval findMode (mkAnalyzer v "") = 1%float
  /\ count_eq 1%float v = 2
  /\ count_eq 2%float v = 3.
Proof.
  cbv zeta. repeat split; try (vm_compute; reflexivity).
  intros H.
  replace (sort [0; 2; nan; 2; 2; 1; 1]%float)
    with [0; 2; nan; 1; 1; 2; 2]%float in H by (vm_compute; reflexivity).
  apply StronglySorted_inv in H as [H _].
  apply StronglySorted_inv in H as [_ H].
  apply Forall_inv in H. vm_compute in H. discriminate H.
Qed.

(** C4, as the code has it: below four values the quartiles are three
    zeros.  From four values on, when none is a NaN, the copy is the
    numbers in ascending order and the quartiles are its elements at
    [n/4], [n/2] and [3n/4], three positions inside the vector; every
    ascending arrangement of the numbers holds the same numbers at these
    positions.  The IQR line of the report shows [Q3 - Q1]. *)
Theorem quartiles_by_index :
  forall (show_double : float -> string) (st : NumberAnalyzer),
    let n := List.length (numbers st) in
    let sorted := sort (numbers st) in
    (n < 4 -> eval calculateQuartiles st = [0; 0; 0]%float)
    /\ (4 <= n -> no_nan (numbers st) ->
        Permutation sorted (numbers st)
        /\ StronglySorted fle sorted
        /\ eval calculateQuartiles st
           = [at_ sorted (n / 4); at_ sorted (n / 2); at_ sorted (3 * n / 4)]
        /\ n / 4 < List.length sorted
        /\ n / 2 < List.length sorted
        /\ 3 * n / 4 < List.length sorted
        /\ (forall s : list float,
               Permutation s (numbers st) -> StronglySorted fle s ->
               Forall2 same_number (eval calculateQuartiles st)
                 [at_ s (n / 4); at_ s (n / 2); at_ s (3 * n / 4)]))
    /\ (exists q1 q2 q3,
           eval calculateQuartiles st = [q1; q2; q3]
           /\ eval (report_quartiles show_double) st
              = (ln "Quartile Analysis:"
                 ++ "  Q1 (25th percentile): " ++ show_double q1 ++ Chars.nl
                 ++ "  Q2 (50th percentile): " ++ show_double q2 ++ Chars.nl
                 ++ "  Q3 (75th percentile): " ++ show_double q3 ++ Chars.nl
                 ++ "  IQR: " ++ show_double (q3 - q1)%float
                 ++ Chars.nl ++ Chars.nl)%string).
Proof.
  intros show_double st n sorted.
  pose proof (calculateQuartiles_eval st) as E. cbv zeta in E. fold n in E.
  split.
  { intros H. rewrite E. apply Nat.ltb_lt in H. now rewrite H. }
  split.
  { intros H Hn.
    assert (F : (n <? 4)%nat = false) by (apply Nat.ltb_ge; lia).
    assert (B1 : n / 4 < n) by (apply Nat.Div0.div_lt_upper_bound; lia).
    assert (B2 : n / 2 < n) by (apply Nat.Div0.div_lt_upper_bound; lia).
    assert (B3 : 3 * n / 4 < n) by (apply Nat.Div0.div_lt_upper_bound; lia).
    split; [apply sort_perm|].
    split; [now apply sort_sorted|].
    rewrite E, F. subst sorted. rewrite sort_length. fold n.
    split; [reflexivity|].
    split; [exact B1|]. split; [exact B2|]. split; [exact B3|].
    intros s P Hs.
    constructor; [now apply at_ascending_same|].
    constructor; [now apply at_ascending_same|].
    constructor; [now apply at_ascending_same | constructor]. }
  assert (Q : exists q1 q2 q3, eval calculateQuartiles st = [q1; q2; q3]).
  { rewrite E. destruct (n <? 4)%nat; eauto. }
  destruct Q as (q1 & q2 & q3 & Q). exists q1, q2, q3.
  split; [assumption|].
  unfold report_quartiles.
  rewrite eval_bind_read_only by apply calculateQuartiles_read_only.
  rewrite Q. reflexivity.
Qed.

Lemma quartiles_by_index_witness :
  let st := mkAnalyzer [7; 1; 5; 3; 9]%float "" in
  StronglySorted fle (sort (numbers st))
  /\ eval calculateQuartiles st = [3; 5; 7]%float.
Proof.
  pose proof (quartiles_by_index (fun _ => "")
                (mkAnalyzer [7; 1; 5; 3; 9]%float "")) as H.
  cbv zeta in H. destruct H as (_ & H4 & _).
  destruct (H4 ltac:(simpl; lia) ltac:(repeat constructor))
    as (_ & Hs & Hq & _).
  split; [exact Hs | exact Hq].
Defined.

(** C4 as stated fails: with a NaN among the numbers the copy need not be
    ascending.  On the input ["0,3,nan,2,1"] the NaN keeps the 3 before it
    in place, the quartiles are 3, NaN and 1, the first one is greater
    than the third, and the IQR line shows -2. *)
Lemma quartiles_with_nan_out_of_order :
  let v := [0; 3; nan; 2; 1]%float in
  numbers (exec (parse "0,3,nan,2,1") new_analyzer) = v
  /\ sort v = [0; 3; nan; 1; 2]%float
  /\ ~ StronglySorted fle (sort v)
  /\ eval calculateQuartiles (mkAnalyzer v "") = [3; nan; 1]%float
  /\ (3 <=? 1)%float = false
  /\ forall show_double : float -> string,
      eval (report_quartiles show_double) (mkAnalyzer v "")
      = (ln "Quartile Analysis:"
         ++ "  Q1 (25th percentile): " ++ show_double 3%float ++ Chars.nl
         ++ "  Q2 (50th percentile): " ++ show_double nan ++ Chars.nl
         ++ "  Q3 (75th percentile): " ++ show_double 1%float ++ Chars.nl
         ++ "  IQR: " ++ show_double (-2)%float
         ++ Chars.nl ++ Chars.nl)%string.
Proof.
  cbv zeta. repeat split; try (vm_compute; reflexivity).
  intros H.
  replace (sort [0; 3; nan; 2; 1]%float)
    with [0; 3; nan; 1; 2]%float in H by (vm_compute; reflexivity).
  apply StronglySorted_inv in H as [H _].
  apply StronglySorted_inv in H as [_ H].
  apply Forall_inv in H. vm_compute in H. discriminate H.
Qed.

(* ------------------------------------------------------------------ *)
(** ** The Variance line of the report *)


